(** * Sparse tensor components with index symmetries

    A shallow embedding of [sage/geometry/manifolds/comp.py]: the classes
    [Components], [CompWithSym], [CompFullySym], [CompFullyAntiSym] and
    [KroneckerDelta], with the properties of the component engine that
    the specification states about them.

    Conventions of the embedding.
    - The dictionary [_comp] is a [gmap (list Z) R]: keys are index
      tuples, values are elements of the coefficient ring.
    - A Python exception is a constructor of [exn]; a method that can
      raise returns a [result]. The specification's error kinds are
      IndexOutOfRange = [IndexError] (or [TypeError] for a wrong number
      of indices), IncompatibleOperands = [TypeError],
      AntisymmetryConflict = [ValueError], Frozen = [NotImplementedError],
      InvalidSymmetrySpec = [IndexError].
    - Index values are in [Z]; index positions and the numbers [nid] and
      [dim] are in [nat] (the constructor rejects negative positions, so
      only the upper bound of a position is left to check).
    - Component access is the raw access by double brackets, which the
      methods of the module use internally and to which no output
      formatter is applied. [getitem c ind] and [setitem c ind v] stand
      for [c[[ind]]] and [c[[ind]] = v] with a tuple [ind] of integers:
      the argument of [__getitem__] is then a list whose first element is
      the tuple, which is taken as the indices. The access by single
      brackets [c[i,j,...]], which reads an argument in excess as an
      output format, and the slices [c[:]] are not modelled. The access
      [c[[ind]]] with a list [ind] is [getitem_list].
    - [tuple(s)] lists a set [s] in the order of the hash table of the
      implementation: the engine is written over any listing of a set
      ([SetListing]), and the stores of the examples are evaluated with
      the increasing listing, that of CPython for small integers.
    - A value assigned to a component is a Python integer or an element
      of the ring; it is tested against zero as it is given and stored
      after its conversion into the ring. *)

From stdpp Require Import base option list gmap sets sorting numbers strings.
From Stdlib Require Import ZArith Lia Ring_theory.

Local Open Scope Z_scope.

(** ** Exceptions and results *)

Inductive exn :=
  | TypeError | IndexError | ValueError | NotImplementedError
  | AttributeError | ZeroDivisionError.

(** [OutOfFuel] is the outcome for which the embedding has no answer: a
    loop that has not ended within its bound, or a value that the
    embedding cannot hold. *)
Inductive result (A : Type) :=
  | Ok (a : A)
  | Raise (e : exn)
  | OutOfFuel.
Arguments Ok {A} a.
Arguments Raise {A} e.
Arguments OutOfFuel {A}.

#[global] Instance exn_eq_dec : EqDecision exn.
Proof. solve_decision. Defined.

#[global] Instance result_ret : MRet result := @Ok.
#[global] Instance result_bind : MBind result := λ A B f m,
  match m with
  | Ok a => f a
  | Raise e => Raise e
  | OutOfFuel => OutOfFuel
  end.
#[global] Instance result_fmap : FMap result := λ A B f m,
  match m with
  | Ok a => Ok (f a)
  | Raise e => Raise e
  | OutOfFuel => OutOfFuel
  end.

(** ** The coefficient ring *)

Class Ring (R : Type) := {
  ring_eq_dec :: EqDecision R;
  zero_element : R;
  one_element : R;
  radd : R → R → R;
  rneg : R → R;
  rmul : R → R → R;
  (** [x / y]; division can raise *)
  rdiv : R → R → result R;
  (** coercion of a Python integer into the ring, [ring(n)] *)
  rofZ : Z → R;
  (** [isinstance(x, Integer)]: whether the element is a Sage integer *)
  is_Integer : R → bool;
}.

Definition rsub `{Ring R} (x y : R) : R := radd x (rneg y).

(** The laws of a commutative ring, in the Standard Library's format. *)
Class CommRing (R : Type) `{Ring R} :=
  ring_laws : ring_theory zero_element one_element radd rmul rsub rneg eq.

(** [value == 0] *)
Definition is0 `{Ring R} (v : R) : bool := bool_decide (v = zero_element).

(** ** Frames and stores *)

(** A frame is opaque: it is compared with [!=] and has a length. *)
Record Frame := { frame_id : nat; frame_len : nat }.

#[global] Instance Frame_eq_dec : EqDecision Frame.
Proof. solve_decision. Defined.

(** The class of an instance. *)
Inductive klass := cComponents | cCompWithSym | cCompFullySym | cCompFullyAntiSym.

#[global] Instance klass_eq_dec : EqDecision klass.
Proof. solve_decision. Defined.

(** [isinstance(c, CompWithSym)] *)
Definition isinstance_CompWithSym (k : klass) : bool :=
  match k with cComponents => false | _ => true end.

(** The attributes bound by [Components.__init__] and, for the subclasses,
    by [CompWithSym.__init__]. An instance of the base class has no [sym]
    and [antisym] attributes; they are kept empty for it. *)
Record Components (R : Type) := mkComponents {
  klass_of : klass;
  frame : Frame;
  nid : nat;
  dim : nat;
  sindex : Z;
  output_formatter : option nat;
  _comp : gmap (list Z) R;
  sym : list (list nat);
  antisym : list (list nat);
}.
Arguments mkComponents {R}.
Arguments klass_of {R}.
Arguments frame {R}.
Arguments nid {R}.
Arguments dim {R}.
Arguments sindex {R}.
Arguments output_formatter {R}.
Arguments _comp {R}.
Arguments sym {R}.
Arguments antisym {R}.

Definition set_comp {R} (self : Components R) (m : gmap (list Z) R) : Components R :=
  mkComponents (klass_of self) (frame self) (nid self) (dim self) (sindex self)
    (output_formatter self) m (sym self) (antisym self).

(** ** The listing of a set *)

(** [tuple(s)] for a set [s] of positions: the elements of [s], once each,
    in the order of the hash table of the implementation. *)
Class SetListing := {
  tuple_of_set : gset nat → list nat;
  tuple_of_set_NoDup (X : gset nat) : NoDup (tuple_of_set X);
  elem_of_tuple_of_set (X : gset nat) (x : nat) : x ∈ tuple_of_set X ↔ x ∈ X;
}.

Section Engine.
Context {R : Type} `{Ring R} `{SetListing}.

(** *** Constructors *)

(** [Components.__init__]: no test is performed on the arguments. *)
Definition Components_init (fr : Frame) (nb_indices : nat) (start_index : Z)
    (fmt : option nat) : Components R :=
  mkComponents cComponents fr nb_indices (frame_len fr) start_index fmt ∅ [] [].

(** The [sym] and [antisym] arguments of [CompWithSym.__init__]: absent,
    a single group given as a sequence of positions, or a list of groups. *)
Inductive sym_arg :=
  | SymNone
  | SymOne (g : list nat)
  | SymList (gs : list (list nat)).

(** The loop over the groups of one argument: each group needs two
    positions at least, each of them below [nid]. *)
Fixpoint check_groups (nb : nat) (gs : list (list nat)) : result (list (list nat)) :=
  match gs with
  | [] => Ok []
  | isym :: rest =>
      if bool_decide (length isym < 2)%nat then Raise IndexError
      else if existsb (λ i, bool_decide (nb ≤ i)%nat) isym then Raise IndexError
      else rest' ← check_groups nb rest; Ok (isym :: rest')
  end.

Definition groups_of_arg (nb : nat) (a : sym_arg) : result (list (list nat)) :=
  match a with
  | SymNone => Ok []
  | SymOne [] => Ok []
  | SymOne g => check_groups nb [g]
  | SymList gs => check_groups nb gs
  end.

(** [len(index_list) != len(set(index_list))] *)
Definition has_repeat `{Countable A} (l : list A) : bool :=
  bool_decide (length l ≠ size (list_to_set l : gset A)).

Definition CompWithSym_init_as (k : klass) (fr : Frame) (nb_indices : nat)
    (start_index : Z) (fmt : option nat) (s a : sym_arg) : result (Components R) :=
  s' ← groups_of_arg nb_indices s;
  a' ← groups_of_arg nb_indices a;
  let index_list := concat s' ++ concat a' in
  if has_repeat index_list then Raise IndexError
  else Ok (mkComponents k fr nb_indices (frame_len fr) start_index fmt ∅ s' a').

Definition CompWithSym_init := CompWithSym_init_as cCompWithSym.

(** [CompFullySym.__init__]: [sym=range(nb_indices)]. *)
Definition CompFullySym_init (fr : Frame) (nb_indices : nat) (start_index : Z)
    (fmt : option nat) : result (Components R) :=
  CompWithSym_init_as cCompFullySym fr nb_indices start_index fmt
    (SymOne (seq 0 nb_indices)) SymNone.

(** [CompFullyAntiSym.__init__]: [antisym=range(nb_indices)]. *)
Definition CompFullyAntiSym_init (fr : Frame) (nb_indices : nat) (start_index : Z)
    (fmt : option nat) : result (Components R) :=
  CompWithSym_init_as cCompFullyAntiSym fr nb_indices start_index fmt
    SymNone (SymOne (seq 0 nb_indices)).

(** [_new_instance], by class. *)
Definition _new_instance (self : Components R) : result (Components R) :=
  match klass_of self with
  | cComponents =>
      Ok (Components_init (frame self) (nid self) (sindex self) (output_formatter self))
  | cCompWithSym =>
      CompWithSym_init (frame self) (nid self) (sindex self) (output_formatter self)
        (SymList (sym self)) (SymList (antisym self))
  | cCompFullySym =>
      CompFullySym_init (frame self) (nid self) (sindex self) (output_formatter self)
  | cCompFullyAntiSym =>
      CompFullyAntiSym_init (frame self) (nid self) (sindex self) (output_formatter self)
  end.

(** *** Index checks *)

Fixpoint check_range (si imax : Z) (ind : list Z) : bool :=
  match ind with
  | [] => true
  | i :: rest => if (i <? si) || (i >? imax) then false else check_range si imax rest
  end.

Definition _check_indices (self : Components R) (indices : list Z) : result (list Z) :=
  if bool_decide (length indices ≠ nid self) then Raise TypeError
  else
    let si := sindex self in
    let imax := Z.of_nat (dim self) - 1 + si in
    if check_range si imax indices then Ok indices else Raise IndexError.

(** *** Values *)

(** What is assigned to a component. *)
Inductive value :=
  | VInt (n : Z)
  | VRing (x : R).

(** [value == 0] *)
Definition value_is0 (v : value) : bool :=
  match v with
  | VInt n => bool_decide (n = 0)
  | VRing x => is0 x
  end.

(** [self.ring(value)] *)
Definition ring_of (v : value) : R :=
  match v with
  | VInt n => rofZ n
  | VRing x => x
  end.

(** *** Plain access *)

Definition Components_getitem (self : Components R) (indices : list Z) : result R :=
  ind ← _check_indices self indices;
  match _comp self !! ind with
  | Some v => Ok v
  | None => Ok zero_element
  end.

Definition Components_setitem (self : Components R) (indices : list Z) (value : value)
    : result (Components R) :=
  ind ← _check_indices self indices;
  if value_is0 value then
    match _comp self !! ind with
    | Some _ => Ok (set_comp self (delete ind (_comp self)))
    | None => Ok self
    end
  else Ok (set_comp self (<[ind := ring_of value]> (_comp self))).

(** *** Canonical form of an index tuple *)

(** [[ind[pos] for pos in isym]]. The positions of a group are below
    [nid] and [ind] has [nid] entries, so every lookup is in range. *)
Definition gather (ind : list Z) (isym : list nat) : list Z :=
  (λ pos, ind !!! pos) <$> isym.

(** [for k, pos in enumerate(isym): ind[pos] = vals[k]] *)
Fixpoint scatter (ind : list Z) (isym : list nat) (vals : list Z) : list Z :=
  match isym, vals with
  | pos :: isym', v :: vals' => scatter (<[pos := v]> ind) isym' vals'
  | _, _ => ind
  end.

(** Python's [sorted] on integers. *)
Definition sorted (l : list Z) : list Z := merge_sort Z.le l.

(** [l.index(x)]: the first position of [x] in [l]. *)
Fixpoint index_of (x : Z) (l : list Z) : nat :=
  match l with
  | [] => 0
  | y :: l' => if bool_decide (y = x) then 0%nat else S (index_of x l')
  end.

Fixpoint inversions (l : list nat) : nat :=
  match l with
  | [] => 0
  | x :: l' => (length (filter (λ y, y < x)%nat l') + inversions l')%nat
  end.

(** Modelled from the spec: [Permutation(perm).signature()] of
    [sage.combinat.permutation] is not under src/. The specification
    asks for the parity of the permutation that sorts the group's
    values: 1 when the number of inversions is even and -1 when it is
    odd. *)
Definition signature (perm : list nat) : Z :=
  if Nat.even (inversions perm) then 1 else -1.

Definition sym_pass (ind : list Z) (groups : list (list nat)) : list Z :=
  foldl (λ ind isym, scatter ind isym (sorted (gather ind isym))) ind groups.

Fixpoint antisym_pass (sign : Z) (ind : list Z) (groups : list (list nat))
    : Z * option (list Z) :=
  match groups with
  | [] => (sign, Some ind)
  | isym :: rest =>
      let indsym := gather ind isym in
      if has_repeat indsym then (0, None)
      else
        let indsym_ordered := sorted indsym in
        let ind' := scatter ind isym indsym_ordered in
        let sign' :=
          if bool_decide (indsym_ordered ≠ indsym) then
            sign * signature ((λ i, index_of i indsym + 1)%nat <$> indsym_ordered)
          else sign in
        antisym_pass sign' ind' rest
  end.

Definition _ordered_indices (self : Components R) (indices : list Z)
    : result (Z * option (list Z)) :=
  ind ← _check_indices self indices;
  Ok (antisym_pass 1 (sym_pass ind (sym self)) (antisym self)).

(** [ind in self._comp], where [ind] can be [None]: [None] is never a key. *)
Definition key_in (ind : option (list Z)) (m : gmap (list Z) R) : bool :=
  match ind with
  | Some k => bool_decide (is_Some (m !! k))
  | None => false
  end.

(** [self._comp[ind]] once [ind in self._comp] holds. *)
Definition value_at (ind : option (list Z)) (m : gmap (list Z) R) : R :=
  match ind with
  | Some k => default zero_element (m !! k)
  | None => zero_element
  end.

(** [del self._comp[ind]] once [ind in self._comp] holds. *)
Definition del_key (ind : option (list Z)) (m : gmap (list Z) R) : gmap (list Z) R :=
  match ind with
  | Some k => delete k m
  | None => m
  end.

(** [self._comp[ind] = v]; the key is a tuple on every path that stores. *)
Definition put_key (ind : option (list Z)) (v : R) (m : gmap (list Z) R)
    : gmap (list Z) R :=
  match ind with
  | Some k => <[k := v]> m
  | None => m
  end.

Definition CompWithSym_getitem (self : Components R) (indices : list Z) : result R :=
  '(sign, ind) ← _ordered_indices self indices;
  if bool_decide (sign = 0) || negb (key_in ind (_comp self)) then Ok zero_element
  else if bool_decide (sign = 1) then Ok (value_at ind (_comp self))
  else Ok (rneg (value_at ind (_comp self))).

Definition CompWithSym_setitem (self : Components R) (indices : list Z) (value : value)
    : result (Components R) :=
  '(sign, ind) ← _ordered_indices self indices;
  if bool_decide (sign = 0) then
    if negb (value_is0 value) then Raise ValueError
    else if key_in ind (_comp self) then Ok (set_comp self (del_key ind (_comp self)))
    else Ok self
  else if value_is0 value then
    if key_in ind (_comp self) then Ok (set_comp self (del_key ind (_comp self)))
    else Ok self
  else if bool_decide (sign = 1)
  then Ok (set_comp self (put_key ind (ring_of value) (_comp self)))
  else Ok (set_comp self (put_key ind (rneg (ring_of value)) (_comp self))).

(** [CompFullySym] overrides both accessors; the sign is not used. *)
Definition CompFullySym_getitem (self : Components R) (indices : list Z) : result R :=
  '(_, ind) ← _ordered_indices self indices;
  if key_in ind (_comp self) then Ok (value_at ind (_comp self))
  else Ok zero_element.

Definition CompFullySym_setitem (self : Components R) (indices : list Z) (value : value)
    : result (Components R) :=
  '(_, ind) ← _ordered_indices self indices;
  if value_is0 value then
    if key_in ind (_comp self) then Ok (set_comp self (del_key ind (_comp self)))
    else Ok self
  else Ok (set_comp self (put_key ind (ring_of value) (_comp self))).

(** Method resolution: [self[[indices]]] and [self[[indices]] = value] for a
    tuple [indices]. *)
Definition getitem (self : Components R) (indices : list Z) : result R :=
  match klass_of self with
  | cComponents => Components_getitem self indices
  | cCompWithSym | cCompFullyAntiSym => CompWithSym_getitem self indices
  | cCompFullySym => CompFullySym_getitem self indices
  end.

Definition setitem (self : Components R) (indices : list Z) (value : value)
    : result (Components R) :=
  match klass_of self with
  | cComponents => Components_setitem self indices value
  | cCompWithSym | cCompFullyAntiSym => CompWithSym_setitem self indices value
  | cCompFullySym => CompFullySym_setitem self indices value
  end.

(** [self[[ind]]] for a list [ind]. The argument [[ind]] is a list whose
    first element is neither a slice nor a tuple, so all three
    [__getitem__] methods take the whole of it as the indices: one index,
    which is the list [ind]. With [nid] other than 1 it is a wrong number
    of indices; with [nid = 1] the list, which compares greater than any
    number, is out of range. *)
Definition getitem_list (self : Components R) (ind : list Z) : result R :=
  if bool_decide (nid self ≠ 1%nat) then Raise TypeError else Raise IndexError.

(** *** Index generators *)

(** One pass of [for pos in range(self.nid-1,-1,-1)] over [ind]: the
    positions are visited from the last to the first, [ret] is the carry.
    The result is the new [ind] and the final [ret]. *)
Fixpoint advance (si imax : Z) (pos : nat) (ind : list Z) : list Z * Z :=
  match ind with
  | [] => ([], 1)
  | i :: rest =>
      let '(rest', ret) := advance si imax (S pos) rest in
      if bool_decide (i ≠ imax) then ((i + ret) :: rest', 0)
      else if bool_decide (ret = 1) then
        match pos with
        | O => ((imax + 1) :: rest', 1)
        | S _ => (si :: rest', 1)
        end
      else (i :: rest', ret)
  end.

(** [while ind != ind_end]: the tuples yielded from [ind] on; [keep] is the
    test made before [yield]. *)
Fixpoint generator_loop (fuel : nat) (keep : list Z → bool) (si imax : Z)
    (ind ind_end : list Z) : result (list (list Z)) :=
  match fuel with
  | O => if bool_decide (ind = ind_end) then Ok [] else OutOfFuel
  | S fuel' =>
      if bool_decide (ind = ind_end) then Ok []
      else
        rest ← generator_loop fuel' keep si imax (advance si imax 0 ind).1 ind_end;
        Ok (if keep ind then ind :: rest else rest)
  end.

(** The tuples a generator yields when it is run to its end. With no index
    ([nid = 0]) the assignment [ind_end[0] = imax+1] raises before the
    first [yield]. *)
Definition run_generator (fuel : nat) (keep : list Z → bool) (self : Components R)
    : result (list (list Z)) :=
  let si := sindex self in
  let imax := Z.of_nat (dim self) - 1 + si in
  let ind := replicate (nid self) si in
  match ind with
  | [] => Raise IndexError
  | _ :: tl => generator_loop fuel keep si imax ind ((imax + 1) :: tl)
  end.

(** The loop makes [dim ^ nid] passes and one last test. *)
Definition generator_fuel (self : Components R) : nat :=
  S (dim self ^ nid self).

Definition index_generator (self : Components R) : result (list (list Z)) :=
  run_generator (generator_fuel self) (λ _, true) self.

(** [for k in range(len(isym)-1): if ind[isym[k+1]] < ind[isym[k]]] (with
    [<=] for an antisymmetry) *)
Definition group_ordered (strict : bool) (ind : list Z) (isym : list nat) : bool :=
  forallb (λ k,
      let a := ind !!! (isym !!! k) in
      let b := ind !!! (isym !!! S k) in
      negb (if strict then b <=? a else b <? a))
    (seq 0 (length isym - 1)).

Definition is_ordered (self : Components R) (ind : list Z) : bool :=
  forallb (group_ordered false ind) (sym self)
  && forallb (group_ordered true ind) (antisym self).

Definition CompWithSym_non_redundant_index_generator (self : Components R)
    : result (list (list Z)) :=
  run_generator (generator_fuel self) (is_ordered self) self.

Definition non_redundant_index_generator (self : Components R) : result (list (list Z)) :=
  match klass_of self with
  | cComponents => index_generator self
  | _ => CompWithSym_non_redundant_index_generator self
  end.

(** *** Comparison with zero, copies and the unary minus *)

(** [self._comp.items()] *)
Definition items (self : Components R) : list (list Z * R) := map_to_list (_comp self).

Definition is_zero (self : Components R) : bool :=
  if bool_decide (_comp self = ∅) then true
  else forallb (λ iv, is0 iv.2) (items self).

(** A loop body that can raise, run over a list. *)
Fixpoint foldM {A B : Type} (f : B → A → result B) (l : list A) (b : B) : result B :=
  match l with
  | [] => Ok b
  | a :: l' => b' ← f b a; foldM f l' b'
  end.

(** [for ind, val in src: result._comp[ind] = f(val)] *)
Definition store_all (f : R → R) (src : list (list Z * R)) (result_ : Components R)
    : Components R :=
  foldl (λ r iv, set_comp r (<[iv.1 := f iv.2]> (_comp r))) result_ src.

Definition copy (self : Components R) : result (Components R) :=
  result_ ← _new_instance self;
  Ok (store_all id (items self) result_).

Definition Components_pos := copy.

Definition Components_neg (self : Components R) : result (Components R) :=
  result_ ← _new_instance self;
  Ok (store_all rneg (items self) result_).

(** *** Operands of the binary operators *)

Inductive operand :=
  | OInt (n : Z)
  | OScalar (x : R)
  | OComp (c : Components R).

(** [other == 0]: for a store this is [other.__eq__(0)], that is
    [other.is_zero()]. *)
Definition eq_zero (other : operand) : bool :=
  match other with
  | OInt n => bool_decide (n = 0)
  | OScalar x => is0 x
  | OComp c => is_zero c
  end.

(** [result[[ind]] += val] *)
Definition add_at (result_ : Components R) (iv : list Z * R) : result (Components R) :=
  v ← getitem result_ iv.1;
  setitem result_ iv.1 (VRing (radd v iv.2)).

(** The three tests shared by the additions. *)
Definition check_same_shape (self other : Components R) : result () :=
  if bool_decide (frame other ≠ frame self) then Raise TypeError
  else if bool_decide (nid other ≠ nid self) then Raise TypeError
  else if bool_decide (sindex other ≠ sindex self) then Raise TypeError
  else Ok ().

(** [tuple(set(isym).intersection(set(osym)))] *)
Definition common (isym osym : list nat) : list nat :=
  tuple_of_set ((list_to_set isym : gset nat) ∩ list_to_set osym).

(** The two nested loops that collect the common groups. *)
Definition common_groups (ss os : list (list nat)) : list (list nat) :=
  isym ← ss;
  osym ← os;
  let com := common isym osym in
  if bool_decide (1 < length com)%nat then [com] else [].

(** [set(self.sym).symmetric_difference(set(other.sym)) == set()] *)
Definition same_groups (ss os : list (list nat)) : bool :=
  bool_decide ((list_to_set ss : gset (list nat)) = list_to_set os).

(** [for ind in result.non_redundant_index_generator():
       result[[ind]] = self[[ind]] + other[[ind]]] *)
Definition fill_sum (self other result_ : Components R) : result (Components R) :=
  inds ← non_redundant_index_generator result_;
  foldM (λ r ind,
      a ← getitem self ind;
      b ← getitem other ind;
      setitem r ind (VRing (radd a b)))
    inds result_.

Definition CompWithSym_add (self : Components R) (other : operand)
    : result (Components R) :=
  if eq_zero other then Components_pos self
  else match other with
  | OInt _ | OScalar _ => Raise TypeError
  | OComp other =>
      _ ← check_same_shape self other;
      if isinstance_CompWithSym (klass_of other) then
        if same_groups (sym self) (sym other)
           && same_groups (antisym self) (antisym other) then
          result_ ← copy self;
          foldM add_at (items other) result_
        else
          let common_sym := common_groups (sym self) (sym other) in
          let common_antisym := common_groups (antisym self) (antisym other) in
          result_ ←
            (if bool_decide (common_sym ≠ []) || bool_decide (common_antisym ≠ []) then
               CompWithSym_init (frame self) (nid self) (sindex self)
                 (output_formatter self) (SymList common_sym) (SymList common_antisym)
             else
               Ok (Components_init (frame self) (nid self) (sindex self)
                     (output_formatter self)));
          fill_sum self other result_
      else
        fill_sum self other
          (Components_init (frame self) (nid self) (sindex self) (output_formatter self))
  end.

(** [CompFullySym.__add__] and [CompFullyAntiSym.__add__]: a shortcut when
    [other] is of the class [k] of [self], else the general addition. *)
Definition CompFully_add (k : klass) (self : Components R) (other : operand)
    : result (Components R) :=
  if eq_zero other then Components_pos self
  else match other with
  | OInt _ | OScalar _ => Raise TypeError
  | OComp o =>
      if bool_decide (klass_of o = k) then
        _ ← check_same_shape self o;
        result_ ← copy self;
        foldM add_at (items o) result_
      else CompWithSym_add self other
  end.

(** The addition of an instance of a class with symmetries. *)
Definition sym_add (self : Components R) (other : operand) : result (Components R) :=
  match klass_of self with
  | cCompFullySym => CompFully_add cCompFullySym self other
  | cCompFullyAntiSym => CompFully_add cCompFullyAntiSym self other
  | _ => CompWithSym_add self other
  end.

Definition Components_add (self : Components R) (other : operand)
    : result (Components R) :=
  if eq_zero other then Components_pos self
  else match other with
  | OInt _ | OScalar _ => Raise TypeError
  | OComp o =>
      if isinstance_CompWithSym (klass_of o) then sym_add o (OComp self)
      else
        _ ← check_same_shape self o;
        result_ ← copy self;
        foldM add_at (items o) result_
  end.

(** [self + other] *)
Definition add (self : Components R) (other : operand) : result (Components R) :=
  match klass_of self with
  | cComponents => Components_add self other
  | _ => sym_add self other
  end.

(** [-other] for an operand. *)
Definition neg_operand (other : operand) : result operand :=
  match other with
  | OInt n => Ok (OInt (- n))
  | OScalar x => Ok (OScalar (rneg x))
  | OComp c => OComp <$> Components_neg c
  end.

(** [self - other] *)
Definition sub (self : Components R) (other : operand) : result (Components R) :=
  if eq_zero other then Components_pos self
  else o ← neg_operand other; add self o.

(** [self == other] and [self != other]. An element of the ring that is a
    Sage integer is compared as a Python integer is; any other element
    of the ring is not an instance of [Components]. *)
Definition Components_eq (self : Components R) (other : operand) : result bool :=
  match other with
  | OInt n => if bool_decide (n = 0) then Ok (is_zero self) else Raise TypeError
  | OScalar x =>
      if is_Integer x then
        if is0 x then Ok (is_zero self) else Raise TypeError
      else Raise TypeError
  | OComp o =>
      if bool_decide (frame o ≠ frame self) then Ok false
      else if bool_decide (nid o ≠ nid self) then Ok false
      else if bool_decide (sindex o ≠ sindex self) then Ok false
      else if bool_decide (output_formatter o ≠ output_formatter self) then Ok false
      else is_zero <$> sub self other
  end.

Definition Components_ne (self : Components R) (other : operand) : result bool :=
  negb <$> Components_eq self other.

(** *** Tensor product, products and quotients by a scalar *)

(** [tuple(s[i]+self.nid for i in range(len(s)))] for every group *)
Definition shift_groups (n : nat) (gs : list (list nat)) : list (list nat) :=
  (λ s : list nat, (λ p, p + n)%nat <$> s) <$> gs.

(** [for ind_s, val_s in self._comp.items():
       for ind_o, val_o in other._comp.items():
         result._comp[ind_s + ind_o] = val_s * val_o] *)
Definition store_products (self other result_ : Components R) : Components R :=
  foldl (λ r ivs,
      foldl (λ r ivo, set_comp r (<[ivs.1 ++ ivo.1 := rmul ivs.2 ivo.2]> (_comp r)))
        r (items other))
    result_ (items self).

(** [Components.__mul__]; [self_is_other] is the outcome of [self is other]. *)
Definition Components_mul (self_is_other : bool) (self : Components R) (other : operand)
    : result (Components R) :=
  match other with
  | OInt _ | OScalar _ => Raise TypeError
  | OComp o =>
      if bool_decide (frame o ≠ frame self) then Raise TypeError
      else if bool_decide (sindex o ≠ sindex self) then Raise TypeError
      else
        result_ ←
          (if isinstance_CompWithSym (klass_of o) then
             CompWithSym_init (frame self) (nid self + nid o) (sindex self)
               (output_formatter self)
               (SymList (shift_groups (nid self) (sym o)))
               (SymList (shift_groups (nid self) (antisym o)))
           else if bool_decide (nid self = 1%nat) && bool_decide (nid o = 1%nat) then
             if self_is_other then
               CompFullySym_init (frame self) 2 (sindex self) (output_formatter self)
             else
               Ok (Components_init (frame self) 2 (sindex self) (output_formatter self))
           else
             Ok (Components_init (frame self) (nid self + nid o) (sindex self)
                   (output_formatter self)));
        Ok (store_products self o result_)
  end.

(** [CompWithSym.__mul__] *)
Definition CompWithSym_mul (self : Components R) (other : operand)
    : result (Components R) :=
  match other with
  | OInt _ | OScalar _ => Raise TypeError
  | OComp o =>
      if bool_decide (frame o ≠ frame self) then Raise TypeError
      else if bool_decide (sindex o ≠ sindex self) then Raise TypeError
      else
        let sym_ := sym self ++
          (if isinstance_CompWithSym (klass_of o)
           then shift_groups (nid self) (sym o) else []) in
        let antisym_ := antisym self ++
          (if isinstance_CompWithSym (klass_of o)
           then shift_groups (nid self) (antisym o) else []) in
        result_ ← CompWithSym_init (frame self) (nid self + nid o) (sindex self)
                    (output_formatter self) (SymList sym_) (SymList antisym_);
        Ok (store_products self o result_)
  end.

(** [self * other] on values, given the outcome of [self is other] *)
Definition mul (self_is_other : bool) (self : Components R) (other : operand)
    : result (Components R) :=
  match klass_of self with
  | cComponents => Components_mul self_is_other self other
  | _ => CompWithSym_mul self other
  end.

(** Stores are objects: a heap maps a reference to the store it points to,
    and [a is b] compares references. [None] stands for a dangling
    reference, which Python does not have. *)
Definition mul_ref (h : gmap nat (Components R)) (a b : nat)
    : option (result (Components R)) :=
  self ← h !! a;
  other ← h !! b;
  Some (mul (bool_decide (a = b)) self (OComp other)).

(** The scalar of a product or a quotient, in the ring. *)
Definition scalar_of (other : operand) : R :=
  match other with
  | OInt n => rofZ n
  | OScalar x => x
  | OComp _ => zero_element
  end.

(** [other * self] for a scalar [other] *)
Definition Components_rmul (self : Components R) (other : operand)
    : result (Components R) :=
  match other with
  | OComp _ => Raise NotImplementedError
  | _ =>
      result_ ← _new_instance self;
      if eq_zero other then Ok result_
      else Ok (store_all (rmul (scalar_of other)) (items self) result_)
  end.

(** [self / other] for a scalar [other] *)
Definition Components_div (self : Components R) (other : operand)
    : result (Components R) :=
  match other with
  | OComp _ => Raise NotImplementedError
  | _ =>
      result_ ← _new_instance self;
      foldM (λ r iv,
          q ← rdiv iv.2 (scalar_of other);
          Ok (set_comp r (<[iv.1 := q]> (_comp r))))
        (items self) result_
  end.

(** *** Contraction *)

(** What [self.manifold] would give, if the attribute existed. *)
Record Manifold := { manifold_sindex : Z; manifold_dim : nat }.

(** [self.manifold]: [Components.__init__] binds [ring], [frame], [nid],
    [dim], [sindex], [output_formatter] and [_comp], [CompWithSym.__init__]
    adds [sym] and [antisym], and no class of the module defines an
    attribute [manifold]. The lookup raises [AttributeError] on every
    instance. *)
Definition attr_manifold (self : Components R) : result Manifold :=
  Raise AttributeError.

(** The four tests that open both [self_contract] methods. *)
Definition contract_checks (self : Components R) (pos1 pos2 : nat) : result () :=
  if bool_decide (nid self < 2)%nat then Raise TypeError
  else if bool_decide (nid self ≤ pos1)%nat then Raise IndexError
  else if bool_decide (nid self ≤ pos2)%nat then Raise IndexError
  else if bool_decide (pos1 = pos2) then Raise IndexError
  else Ok ().

(** [res = 0; for i in range(si, nsi): res += self[[i,i]]] *)
Definition trace_loop (self : Components R) (si nsi : Z) : result R :=
  foldM (λ res i, v ← getitem self [i; i]; Ok (radd res v))
    (seqZ si (nsi - si)) (rofZ 0).

(** The outcome of a contraction: a ring element when [nid = 2], a store
    otherwise. *)
Inductive contraction :=
  | Scalar (x : R)
  | Comps (c : Components R).

(** [Components.self_contract]. With more than two indices the method
    calls [Components(self.frame, self.nid - 2)], two arguments where
    [__init__] needs three, which is a [TypeError]. *)
Definition Components_self_contract (self : Components R) (pos1 pos2 : nat)
    : result contraction :=
  _ ← contract_checks self pos1 pos2;
  m ← attr_manifold self;
  let si := manifold_sindex m in
  let nsi := si + Z.of_nat (manifold_dim m) in
  if bool_decide (nid self = 2%nat) then Scalar <$> trace_loop self si nsi
  else Raise TypeError.

(** [l.remove(x)] when [x in l] *)
Fixpoint remove_first (x : nat) (l : list nat) : list nat :=
  match l with
  | [] => []
  | y :: l' => if bool_decide (y = x) then l' else y :: remove_first x l'
  end.

(** The groups that survive the contraction of [pos1] and [pos2]. The
    groups of a store are distinct, so the replacement and the removal by
    value in the list act on the group being visited. *)
Definition remaining_groups (pos1 pos2 : nat) (gs : list (list nat)) : list (list nat) :=
  omap (λ isym : list nat,
      let isym_res := remove_first pos2 (remove_first pos1 isym) in
      if bool_decide (length isym_res < 2)%nat then None else Some isym_res)
    gs.

Definition shift_position (pos1 pos2 pos : nat) : nat :=
  if bool_decide (pos < pos1)%nat then pos
  else if bool_decide (pos < pos2)%nat then (pos - 1)%nat
  else (pos - 2)%nat.

Definition max_len (gs : list (list nat)) : nat :=
  foldl (λ m isym, m `max` length isym)%nat 0%nat gs.

(** [ind.insert(pos, v)] *)
Definition list_insert_at (pos : nat) (v : Z) (ind : list Z) : list Z :=
  take pos ind ++ v :: drop pos ind.

(** [CompWithSym.self_contract] *)
Definition CompWithSym_self_contract (self : Components R) (pos1 pos2 : nat)
    : result contraction :=
  _ ← contract_checks self pos1 pos2;
  m ← attr_manifold self;
  let si := manifold_sindex m in
  let nsi := si + Z.of_nat (manifold_dim m) in
  if bool_decide (nid self = 2%nat) then Scalar <$> trace_loop self si nsi
  else
    let '(pos1, pos2) := if bool_decide (pos2 < pos1)%nat then (pos2, pos1) else (pos1, pos2) in
    let sym_res :=
      (λ g : list nat, shift_position pos1 pos2 <$> g)
        <$> remaining_groups pos1 pos2 (sym self) in
    let antisym_res :=
      (λ g : list nat, shift_position pos1 pos2 <$> g)
        <$> remaining_groups pos1 pos2 (antisym self) in
    let max_sym := max_len sym_res in
    let max_antisym := max_len antisym_res in
    let nid_res := (nid self - 2)%nat in
    result_ ←
      (if bool_decide (max_sym = 0%nat) && bool_decide (max_antisym = 0%nat) then
         Ok (Components_init (frame self) nid_res (sindex self) (output_formatter self))
       else if bool_decide (max_sym = nid_res) then
         CompFullySym_init (frame self) nid_res (sindex self) (output_formatter self)
       else if bool_decide (max_antisym = nid_res) then
         CompFullyAntiSym_init (frame self) nid_res (sindex self) (output_formatter self)
       else
         CompWithSym_init (frame self) nid_res (sindex self) (output_formatter self)
           (SymList sym_res) (SymList antisym_res));
    inds ← index_generator result_;
    Comps <$> foldM (λ r ind_res,
        let ind := list_insert_at pos2 0 (list_insert_at pos1 0 ind_res) in
        res ← foldM (λ res i,
                 v ← getitem_list self (<[pos2 := i]> (<[pos1 := i]> ind));
                 Ok (radd res v))
               (seqZ si (nsi - si)) (rofZ 0);
        setitem r ind_res (VRing res))
      inds result_.

(** [self.self_contract(pos1, pos2)] *)
Definition self_contract (self : Components R) (pos1 pos2 : nat) : result contraction :=
  match klass_of self with
  | cComponents => Components_self_contract self pos1 pos2
  | _ => CompWithSym_self_contract self pos1 pos2
  end.

(** *** Symmetrization and antisymmetrization *)

(** Modelled from the spec: [SymmetricGroup(n).list()] of
    [sage.groups.perm_gps] is not under src/. The specification asks for
    all the permutations of the [n] positions involved; each is given here
    as the list [perm_action] that the loop reads, the images of
    [0, ..., n-1]. *)
Definition SymmetricGroup_list (n : nat) : list (list nat) :=
  permutations (seq 0 n).

(** Modelled from the spec: [perm.sign()], the parity of the permutation. *)
Definition perm_sign (perm_action : list nat) : Z := signature perm_action.

(** [pos is None] stands for [range(self.nid)]; an explicit list needs
    two positions at least and [nid] at most. *)
Definition positions_arg (self : Components R) (pos : option (list nat))
    : result (list nat) :=
  match pos with
  | None => Ok (seq 0 (nid self))
  | Some pos =>
      if bool_decide (length pos < 2)%nat then Raise TypeError
      else if bool_decide (nid self < length pos)%nat then Raise TypeError
      else Ok pos
  end.

(** [ind_perm = list(ind);
     for k in range(n_sym): ind_perm[pos[perm_action[k]]] = ind[pos[k]]] *)
Definition permuted_index (ind : list Z) (pos perm_action : list nat) : list Z :=
  foldl (λ ind_perm k,
      <[pos !!! (perm_action !!! k) := ind !!! (pos !!! k)]> ind_perm)
    ind (seq 0 (length pos)).

(** The loop that fills the result of a (anti)symmetrization: for every
    non-redundant index the sum over the permutations, with the sign of
    the permutation when [signed], divided by the order of the group. *)
Definition fill_symmetrized (signed : bool) (self : Components R) (pos : list nat)
    (result_ : Components R) : result (Components R) :=
  let n_sym := length pos in
  inds ← non_redundant_index_generator result_;
  foldM (λ r ind,
      sum ← foldM (λ sum perm_action,
               v ← getitem_list self (permuted_index ind pos perm_action);
               if signed && negb (bool_decide (perm_sign perm_action = 1))
               then Ok (rsub sum v) else Ok (radd sum v))
             (SymmetricGroup_list n_sym) (rofZ 0);
      q ← rdiv sum (rofZ (Z.of_nat (fact n_sym)));
      setitem r ind (VRing q))
    inds result_.

(** [Components.symmetrize] and [Components.antisymmetrize] *)
Definition Components_symmetrize (self : Components R) (pos : option (list nat))
    : result (Components R) :=
  pos ← positions_arg self pos;
  result_ ←
    (if bool_decide (length pos = nid self) then
       CompFullySym_init (frame self) (nid self) (sindex self) (output_formatter self)
     else
       CompWithSym_init (frame self) (nid self) (sindex self) (output_formatter self)
         (SymOne pos) SymNone);
  fill_symmetrized false self pos result_.

Definition Components_antisymmetrize (self : Components R) (pos : option (list nat))
    : result (Components R) :=
  pos ← positions_arg self pos;
  result_ ←
    (if bool_decide (length pos = nid self) then
       CompFullyAntiSym_init (frame self) (nid self) (sindex self) (output_formatter self)
     else
       CompWithSym_init (frame self) (nid self) (sindex self) (output_formatter self)
         SymNone (SymOne pos));
  fill_symmetrized true self pos result_.

(** [for isym in groups: if pos_set.issubset(set(isym)): return ...] *)
Definition already_present (pos_set : gset nat) (groups : list (list nat)) : bool :=
  existsb (λ isym : list nat, bool_decide (pos_set ⊆ list_to_set isym)) groups.

(** The loop on the groups of the opposite kind. [None] is the early
    return of the zero store, when two positions of [pos_set] at least lie
    in one group; otherwise the groups that are kept, a group that meets
    [pos_set] in one position losing it. *)
Fixpoint interference (pos_set : gset nat) (groups : list (list nat))
    (res : list (list nat)) : option (list (list nat)) :=
  match groups with
  | [] => Some res
  | iasym :: rest =>
      let inter := pos_set ∩ list_to_set iasym in
      if bool_decide (1 < size inter)%nat then None
      else if bool_decide (size inter = 1%nat) then
        let iasym_set := (list_to_set iasym : gset nat) ∖ inter in
        if bool_decide (1 < size iasym_set)%nat
        then interference pos_set rest (res ++ [tuple_of_set iasym_set])
        else interference pos_set rest res
      else interference pos_set rest (res ++ [iasym])
  end.

(** The loop that merges the new group with the groups of the same kind it
    meets: the merged set and the ranks of the groups merged into it. *)
Fixpoint extension (esym_set : gset nat) (i : nat) (groups : list (list nat))
    (index_esym : list nat) : gset nat * list nat :=
  match groups with
  | [] => (esym_set, index_esym)
  | isym :: rest =>
      if bool_decide (esym_set ## (list_to_set isym : gset nat))
      then extension esym_set (S i) rest index_esym
      else extension (esym_set ∪ list_to_set isym) (S i) rest (index_esym ++ [i])
  end.

Definition merged_groups (pos_set : gset nat) (groups : list (list nat))
    : list (list nat) :=
  let '(esym_set, index_esym) := extension pos_set 0 groups [] in
  tuple_of_set esym_set ::
    omap (λ ig : nat * list nat,
        if bool_decide (ig.1 ∈ index_esym) then None else Some ig.2)
      (imap pair groups).

(** [CompWithSym.symmetrize] *)
Definition CompWithSym_symmetrize (self : Components R) (pos : option (list nat))
    : result (Components R) :=
  pos ← positions_arg self pos;
  let pos_set : gset nat := list_to_set pos in
  if already_present pos_set (sym self) then copy self
  else
    match interference pos_set (antisym self) [] with
    | None =>
        CompFullySym_init (frame self) (nid self) (sindex self) (output_formatter self)
    | Some antisym_res =>
        let sym_res := merged_groups pos_set (sym self) in
        result_ ←
          (if bool_decide (max_len sym_res = nid self) then
             CompFullySym_init (frame self) (nid self) (sindex self)
               (output_formatter self)
           else
             CompWithSym_init (frame self) (nid self) (sindex self)
               (output_formatter self) (SymList sym_res) (SymList antisym_res));
        fill_symmetrized false self pos result_
    end.

(** [CompWithSym.antisymmetrize] *)
Definition CompWithSym_antisymmetrize (self : Components R) (pos : option (list nat))
    : result (Components R) :=
  pos ← positions_arg self pos;
  let pos_set : gset nat := list_to_set pos in
  if already_present pos_set (antisym self) then copy self
  else
    match interference pos_set (sym self) [] with
    | None =>
        CompFullyAntiSym_init (frame self) (nid self) (sindex self)
          (output_formatter self)
    | Some sym_res =>
        let antisym_res := merged_groups pos_set (antisym self) in
        result_ ←
          (if bool_decide (max_len antisym_res = nid self) then
             CompFullyAntiSym_init (frame self) (nid self) (sindex self)
               (output_formatter self)
           else
             CompWithSym_init (frame self) (nid self) (sindex self)
               (output_formatter self) (SymList sym_res) (SymList antisym_res));
        fill_symmetrized true self pos result_
    end.

Definition symmetrize (self : Components R) (pos : option (list nat))
    : result (Components R) :=
  match klass_of self with
  | cComponents => Components_symmetrize self pos
  | _ => CompWithSym_symmetrize self pos
  end.

Definition antisymmetrize (self : Components R) (pos : option (list nat))
    : result (Components R) :=
  match klass_of self with
  | cComponents => Components_antisymmetrize self pos
  | _ => CompWithSym_antisymmetrize self pos
  end.

(** *** The Kronecker delta *)

(** The positional arguments of a call. *)
Inductive pyarg :=
  | ARing
  | AFrame (fr : Frame)
  | AInt (n : Z).

(** A call [CompFullySym.__init__(self, ring, frame, nb_indices,
    start_index=0, output_formatter=None)] with the given positional
    arguments after [self]: three are required. *)
Definition CompFullySym_init_call (args : list pyarg) : result (Components R) :=
  match args with
  | [ARing; AFrame fr; AInt nb] => CompFullySym_init fr (Z.to_nat nb) 0 None
  | [ARing; AFrame fr; AInt nb; AInt si] => CompFullySym_init fr (Z.to_nat nb) si None
  | _ => Raise TypeError
  end.

(** [KroneckerDelta.__init__(self, frame)]: the call
    [CompFullySym.__init__(self, frame, 2)] passes two arguments. After it
    the diagonal would be filled with the unit over [self.manifold.irange()]. *)
Definition KroneckerDelta_init (fr : Frame) : result (Components R) :=
  self ← CompFullySym_init_call [AFrame fr; AInt 2];
  m ← attr_manifold self;
  Ok (foldl (λ r i, set_comp r (<[[i; i] := one_element]> (_comp r)))
        self (seqZ (manifold_sindex m) (Z.of_nat (manifold_dim m)))).

(** [KroneckerDelta.__setitem__] *)
Definition KroneckerDelta_setitem (self : Components R) (args : list Z) (value : value)
    : result (Components R) :=
  Raise NotImplementedError.

End Engine.

(** ** Two coefficient rings *)

(** The integers, whose elements are Sage integers. The quotient [x / y]
    of two integers is a rational: it is given when it is an integer.
    When it is not, it lies outside the ring and a store over [Z] cannot
    hold it: the embedding has no answer. *)
#[global] Instance Z_Ring : Ring Z := {|
  zero_element := 0;
  one_element := 1;
  radd := Z.add;
  rneg := Z.opp;
  rmul := Z.mul;
  rdiv := λ x y,
    if bool_decide (y = 0) then Raise ZeroDivisionError
    else if bool_decide (x mod y = 0) then Ok (x / y)
    else OutOfFuel;
  rofZ := λ n, n;
  is_Integer := λ _, true;
|}.

#[global] Instance Z_CommRing : CommRing Z.
Proof. constructor; intros; cbn; unfold rsub; cbn; lia. Qed.

(** The integers modulo 4, a commutative ring in which 2 * 2 = 0. *)
Inductive Z4 := Z4_0 | Z4_1 | Z4_2 | Z4_3.

#[global] Instance Z4_eq_dec : EqDecision Z4.
Proof. solve_decision. Defined.

Definition Z4_to_Z (x : Z4) : Z :=
  match x with Z4_0 => 0 | Z4_1 => 1 | Z4_2 => 2 | Z4_3 => 3 end.

Definition Z4_of_Z (n : Z) : Z4 :=
  match n mod 4 with
  | 0 => Z4_0
  | 1 => Z4_1
  | 2 => Z4_2
  | _ => Z4_3
  end.

#[global] Instance Z4_Ring : Ring Z4 := {|
  zero_element := Z4_0;
  one_element := Z4_1;
  radd := λ x y, Z4_of_Z (Z4_to_Z x + Z4_to_Z y);
  rneg := λ x, Z4_of_Z (- Z4_to_Z x);
  rmul := λ x y, Z4_of_Z (Z4_to_Z x * Z4_to_Z y);
  rdiv := λ x y,
    match y with
    | Z4_1 => Ok x
    | Z4_3 => Ok (Z4_of_Z (Z4_to_Z x * 3))
    | _ => Raise ZeroDivisionError
    end;
  rofZ := Z4_of_Z;
  is_Integer := λ _, false;
|}.

#[global] Instance Z4_CommRing : CommRing Z4.
Proof.
  constructor; try (intros [] []; reflexivity); try (intros []; reflexivity);
    intros [] [] []; reflexivity.
Qed.

(** ** Concrete stores used in the examples *)

Definition frame3 : Frame := {| frame_id := 0; frame_len := 3 |}.

(** [c = Components(ZZ, frame3, 2)] then [c[i,j] = 3*i + j + 1] for all
    [i], [j]: the matrix [[1,2,3],[4,5,6],[7,8,9]]. *)
Definition matrix_1_9 : result (Components Z) :=
  foldM (λ c ij, setitem c [ij.1; ij.2] (VInt (3 * ij.1 + ij.2 + 1)))
    (i ← seqZ 0 3; j ← seqZ 0 3; [(i, j)])
    (Components_init frame3 2 0 None).

(** A store with one index and the class [CompWithSym], with [v[0] = 1]. *)
Definition vector_with_sym : result (Components Z) :=
  v ← CompWithSym_init frame3 1 0 None SymNone SymNone;
  setitem v [0] (VInt 1).

(** The same with the class [Components]. *)
Definition vector_plain : result (Components Z) :=
  setitem (Components_init frame3 1 0 None) [0] (VInt 1).

(** Over the integers modulo 4: [a[0] = 2]. *)
Definition vector_two : result (Components Z4) :=
  setitem (Components_init frame3 1 0 None) [0] (VInt 2).

(** [c = CompWithSym(ZZ, frame3, 2, antisym=(0,1))] then [c[0,1] = 3] *)
Definition antisym_3 : result (Components Z) :=
  c ← CompWithSym_init frame3 2 0 None SymNone (SymOne [0; 1]%nat);
  setitem c [0; 1] (VInt 3).

(** ** The invariant of the dictionary *)

(** No stored value is the zero of the ring. *)
Definition no_zero_entry `{Ring R} (c : Components R) : Prop :=
  ∀ ind v, _comp c !! ind = Some v → v ≠ zero_element.

(** ** Shapes *)

(** Two stores have the same shape when they agree on everything but the
    dictionary. *)
Definition same_shape {R} (a b : Components R) : Prop :=
  klass_of a = klass_of b ∧ frame a = frame b ∧ nid a = nid b ∧ dim a = dim b
  ∧ sindex a = sindex b ∧ output_formatter a = output_formatter b
  ∧ sym a = sym b ∧ antisym a = antisym b.

(** ** Well-formed stores *)

(** The symmetry specification of a store is valid when the constructor
    [CompWithSym.__init__] accepts it: its three checks pass on the groups
    the store holds. *)
Definition valid_spec {R} (c : Components R) : Prop :=
  check_groups (nid c) (sym c) = Ok (sym c)
  ∧ check_groups (nid c) (antisym c) = Ok (antisym c)
  ∧ has_repeat (concat (sym c) ++ concat (antisym c)) = false.

(** What the constructor of each class leaves in [sym] and [antisym]. *)
Definition class_spec {R} (c : Components R) : Prop :=
  match klass_of c with
  | cComponents => sym c = [] ∧ antisym c = []
  | cCompWithSym => True
  | cCompFullySym =>
      sym c = (if bool_decide (nid c = 0%nat) then [] else [seq 0 (nid c)])
      ∧ antisym c = []
  | cCompFullyAntiSym =>
      sym c = []
      ∧ antisym c = (if bool_decide (nid c = 0%nat) then [] else [seq 0 (nid c)])
  end.

Definition well_formed {R} (c : Components R) : Prop :=
  valid_spec c ∧ class_spec c ∧ dim c = frame_len (frame c).

(** [sign * v] for a sign that is 1 or -1, as both accessors compute it. *)
Definition signed `{Ring R} (sign : Z) (v : R) : R :=
  if bool_decide (sign = 1) then v else rneg v.

(** [c = CompWithSym(ZZ, frame3, 2, antisym=(0,1))], still empty. *)
Definition antisym_pair : Components Z :=
  mkComponents cCompWithSym frame3 2 3 0 None ∅ [] [[0; 1]%nat].

(** The zero store over the shape of [c]: nothing is stored, so every
    component reads as zero. *)
Definition zero_store `{Ring R} (c r : Components R) : Prop :=
  frame r = frame c ∧ nid r = nid c ∧ sindex r = sindex c
  ∧ _comp r = ∅ ∧ is_zero r = true
  ∧ ∀ ind x, getitem r ind = Ok x → x = zero_element.

(** ** Index ranges and counts *)

(** All the tuples of [n] indices over [si, si + d - 1], in lexicographic
    order. *)
Fixpoint all_indices (si : Z) (d n : nat) : list (list Z) :=
  match n with
  | O => [[]]
  | S n' => i ← seqZ si (Z.of_nat d); cons i <$> all_indices si d n'
  end.

(** The lexicographic order on tuples of one length. *)
Fixpoint lex_lt (s t : list Z) : Prop :=
  match s, t with
  | a :: s', b :: t' => a < b ∨ (a = b ∧ lex_lt s' t')
  | _, _ => False
  end.

(** The binomial coefficient C(n, k), by Pascal's rule. *)
Fixpoint binom (n k : nat) : nat :=
  match n, k with
  | _, O => 1
  | O, S _ => 0
  | S n', S k' => binom n' k' + binom n' (S k')
  end.

(** Consecutive entries are in non-decreasing order, or in increasing
    order when [strict]. *)
Fixpoint chain_ok (strict : bool) (t : list Z) : bool :=
  match t with
  | [] => true
  | a :: t' =>
      match t' with
      | [] => true
      | b :: _ => negb (if strict then b <=? a else b <? a) && chain_ok strict t'
      end
  end.

(** A step function [adv] walks along the list [l]: it maps every element
    to the next one with carry 0, and the last one to [fin]. *)
Fixpoint steps_along (adv : list Z → list Z * Z) (l : list (list Z))
    (fin : list Z * Z) : Prop :=
  match l with
  | [] => True
  | x :: l' =>
      adv x = match l' with [] => fin | y :: _ => (y, 0) end
      ∧ steps_along adv l' fin
  end.

(** What the first position holds when the odometer turns over. *)
Definition wrap_digit (si imax : Z) (pos : nat) : Z :=
  match pos with O => imax + 1 | S _ => si end.

(** [self._comp[k] = v], or the deletion of [k] when [v] is zero. *)
Definition upd `{Ring R} (m : gmap (list Z) R) (k : list Z) (v : R) : gmap (list Z) R :=
  if is0 v then delete k m else <[k := v]> m.

(** The value that [getitem] returns, zero when it raises. *)
Definition getv `{Ring R} (c : Components R) (ind : list Z) : R :=
  match getitem c ind with
  | Ok v => v
  | _ => zero_element
  end.

(** Stores with three indices over a frame of length 3: the first is
    symmetric in its three indices and holds 2 at (0, 1, 2), the second is
    symmetric in its first two indices and holds 3 at (0, 0, 1). *)
Definition sym_triple : Components Z :=
  mkComponents cCompWithSym frame3 3 3 0 None {[ [0; 1; 2] := 2 ]} [[0; 1; 2]%nat] [].

Definition sym_first_two : Components Z :=
  mkComponents cCompWithSym frame3 3 3 0 None {[ [0; 0; 1] := 3 ]} [[0; 1]%nat] [].

(** [c = CompWithSym(ZZ, frame3, 2, sym=(0,1))] with [c[0,1] = 1]. *)
Definition sym_pair_1 : Components Z :=
  mkComponents cCompWithSym frame3 2 3 0 None {[ [0; 1] := 1 ]} [[0; 1]%nat] [].

(** [CompFullySym(ZZ, frame3, 2)] and [CompFullyAntiSym(ZZ, frame3, 2)],
    still empty. *)
Definition fully_sym_pair : Components Z :=
  mkComponents cCompFullySym frame3 2 3 0 None ∅ [[0; 1]%nat] [].

Definition fully_antisym_pair : Components Z :=
  mkComponents cCompFullyAntiSym frame3 2 3 0 None ∅ [] [[0; 1]%nat].

(** The index values of [ind] lie in the range of the store. *)
Definition in_range {R} (c : Components R) (ind : list Z) : Prop :=
  Forall (λ i, sindex c ≤ i ≤ Z.of_nat (dim c) - 1 + sindex c) ind.

(** What [CompWithSym.__init__] asks of its groups. *)
Definition groups_ok (nb : nat) (gs : list (list nat)) : Prop :=
  Forall (λ g, (2 ≤ length g)%nat ∧ Forall (λ p, (p < nb)%nat) g) gs.

Section MoreEngine.
Context {R : Type} `{Ring R}.

(** [Components.contract]; [self_is_other] is the outcome of [self is other]
    in the product [self*other]. *)
Definition contract (self_is_other : bool) (self : Components R) (pos1 : nat)
    (other : operand) (pos2 : nat) : result contraction :=
  match other with
  | OInt _ | OScalar _ => Raise TypeError
  | OComp o =>
      if bool_decide (nid self ≤ pos1)%nat then Raise IndexError
      else if bool_decide (nid o ≤ pos2)%nat then Raise IndexError
      else
        prod ← mul self_is_other self other;
        self_contract prod pos1 (pos2 + nid self)
  end.

End MoreEngine.

(** Every key of the dictionary is a valid index tuple in canonical form:
    the storage is not redundant. *)
Definition canonical_keys `{Ring R} (c : Components R) : Prop :=
  ∀ k v, _comp c !! k = Some v → _check_indices c k = Ok k ∧ is_ordered c k = true.

(** Two positions of an antisymmetric group of [c] carry the same index
    value in [ind]. *)
Definition antisym_conflict {R} (c : Components R) (ind : list Z) : Prop :=
  ∃ g, g ∈ antisym c ∧ ¬ NoDup (gather ind g).

Section Housekeeping.
Context {R : Type} `{Ring R} `{SetListing}.

(** [Components._del_zeros]: the zeros are searched first and deleted in
    a second stage. *)
Definition _del_zeros (self : Components R) : Components R :=
  let zeros := (λ iv : list Z * R, iv.1) <$> List.filter (λ iv, is0 iv.2) (items self) in
  foldl (λ r ind, set_comp r (delete ind (_comp r))) self zeros.

(** [Components.__radd__]: [self.__add__(other)] *)
Definition Components_radd (self : Components R) (other : operand)
    : result (Components R) :=
  add self other.

(** [Components.__rsub__]: [(-self).__add__(other)] *)
Definition Components_rsub (self : Components R) (other : operand)
    : result (Components R) :=
  n ← Components_neg self; add n other.

End Housekeeping.

(** Two stores of one class over the same frame, with the same number of
    indices, start index and groups: what the additions ask for to work
    on the dictionary of the left operand. *)
Definition same_symmetries {R} (a b : Components R) : Prop :=
  klass_of a = klass_of b ∧ frame a = frame b ∧ nid a = nid b
  ∧ sindex a = sindex b ∧ sym a = sym b ∧ antisym a = antisym b.

(** One pass of [result[[ind]] += val] on the dictionary, for a canonical
    key [ind]. *)
Definition sum_step `{Ring R} (m : gmap (list Z) R) (iv : list Z * R) : gmap (list Z) R :=
  upd m iv.1 (radd (default zero_element (m !! iv.1)) iv.2).

(** The index tuple [ind] with the values at positions [p] and [q]
    exchanged. *)
Definition swap_positions (ind : list Z) (p q : nat) : list Z :=
  <[p := ind !!! q]> (<[q := ind !!! p]> ind).

(** [ind'] is [ind] with the values at positions [p] and [q] exchanged. *)
Definition swapped (p q : nat) (ind' ind : list Z) : Prop :=
  length ind' = length ind ∧ ind' !!! p = ind !!! q ∧ ind' !!! q = ind !!! p
  ∧ ∀ i, i ≠ p → i ≠ q → ind' !!! i = ind !!! i.

(** The transposition of the positions [p] and [q]. *)
Definition transpose (p q i : nat) : nat :=
  if bool_decide (i = p) then q else if bool_decide (i = q) then p else i.

(** The quotient [v / x] when the division returns, zero otherwise. *)
Definition quotient `{Ring R} (x v : R) : R :=
  match rdiv v x with
  | Ok q => q
  | _ => zero_element
  end.

(** ** The increasing listing *)

(** CPython keeps a small integer in the slot of its own value: a set of
    positions below the size of its table, of 8 slots at least, is listed
    in increasing order. *)
Definition increasing (X : gset nat) : list nat := merge_sort Nat.le (elements X).

#[global] Instance increasing_listing : SetListing.
Proof.
  refine {| tuple_of_set := increasing |}.
  - intros X. unfold increasing. rewrite merge_sort_Permutation. apply NoDup_elements.
  - intros X x. unfold increasing. rewrite merge_sort_Permutation.
    apply elem_of_elements.
Defined.

(** [g] lists, once each, the positions that the groups [gs] and [go]
    share. *)
Definition lists_intersection (g gs go : list nat) : Prop :=
  NoDup g ∧ ∀ p, p ∈ g ↔ p ∈ gs ∧ p ∈ go.

(** The groups [res] are the pairwise intersections, of two positions at
    least, of a group of [ss] with a group of [os]: every group of [res]
    is one, and every pair of groups that share two positions has its
    intersection in [res]. *)
Definition pairwise_intersections (res ss os : list (list nat)) : Prop :=
  (∀ g, g ∈ res →
     (2 ≤ length g)%nat
     ∧ ∃ gs go, gs ∈ ss ∧ go ∈ os ∧ lists_intersection g gs go)
  ∧ (∀ gs go p q, gs ∈ ss → go ∈ os → p ≠ q →
       p ∈ gs → q ∈ gs → p ∈ go → q ∈ go →
       ∃ g, g ∈ res ∧ lists_intersection g gs go).

(** The transposition of the index values [x] and [y]. *)
Definition transposeZ (x y z : Z) : Z :=
  if bool_decide (z = x) then y else if bool_decide (z = y) then x else z.

(** [Permutation(...)] of [_ordered_indices]: the ranks, from 1, that the
    values of [indsym] taken in increasing order have in [indsym]. *)
Definition sorting_perm (indsym : list Z) : list nat :=
  (λ i, (index_of i indsym + 1)%nat) <$> sorted indsym.

(** The tuple [j] is the tuple [i] up to the symmetries of [c]: it is
    reached from [i] by exchanging, any number of times, the values at
    two positions of one group. The sign [s] is the relative parity of
    [i] and [j]: 1 or -1 with the parity of the number of exchanges made
    inside an antisymmetric group. *)
Inductive same_up_to_symmetry {R} (c : Components R) (i : list Z) : list Z → Z → Prop :=
  | same_refl : same_up_to_symmetry c i i 1
  | same_sym j s g p q :
      same_up_to_symmetry c i j s → g ∈ sym c → p ∈ g → q ∈ g →
      same_up_to_symmetry c i (swap_positions j p q) s
  | same_antisym j s g p q :
      same_up_to_symmetry c i j s → g ∈ antisym c → p ∈ g → q ∈ g → p ≠ q →
      same_up_to_symmetry c i (swap_positions j p q) (- s).

(** * Properties *)

(** ** Comparison with a number *)

Section Comparison.
Context {R : Type} `{Ring R} `{SetListing}.

(** C10: a store is compared with the integer 0 only. [c == 0] is
    [c.is_zero()] and [c != 0] is its negation; with a nonzero integer
    both comparisons raise [TypeError] instead of answering. *)
Theorem eq_number_only_zero (c : Components R) (n : Z) (Hn : n ≠ 0) :
  Components_eq c (OInt 0) = Ok (is_zero c)
  ∧ Components_ne c (OInt 0) = Ok (negb (is_zero c))
  ∧ Components_eq c (OInt n) = Raise TypeError
  ∧ Components_ne c (OInt n) = Raise TypeError.
Proof.
  unfold Components_ne, Components_eq.
  rewrite bool_decide_eq_true_2 by reflexivity.
  rewrite bool_decide_eq_false_2 by exact Hn.
  repeat split.
Qed.

End Comparison.

Lemma eq_number_only_zero_witness :
  1 ≠ 0
  ∧ Components_eq (Components_init (R:=Z) frame3 2 0 None) (OInt 1) = Raise TypeError.
Proof.
  split; [lia |].
  apply (eq_number_only_zero (Components_init (R:=Z) frame3 2 0 None) 1); lia.
Defined.

(** ** The Kronecker delta *)

Section Kronecker.
Context {R : Type} `{Ring R} `{SetListing}.

(** C6: no Kronecker delta can be built. For every frame the constructor
    raises [TypeError], in its call of [CompFullySym.__init__] with two
    arguments, before any diagonal entry is stored. *)
Theorem KroneckerDelta_init_raises (fr : Frame) :
  KroneckerDelta_init (R:=R) fr = Raise TypeError.
Proof. reflexivity. Qed.

(** Assignment is rejected on every store and for every argument. *)
Lemma KroneckerDelta_setitem_raises (self : Components R) args value :
  KroneckerDelta_setitem self args value = Raise NotImplementedError.
Proof. reflexivity. Qed.

End Kronecker.

(** ** Contraction *)

Section Contraction.
Context {R : Type} `{Ring R} `{SetListing}.

(** Once its four tests are passed, a contraction raises [AttributeError]
    on the lookup of [self.manifold]. *)
Lemma self_contract_attribute_error (c : Components R) (pos1 pos2 : nat) :
  (2 ≤ nid c)%nat → (pos1 < nid c)%nat → (pos2 < nid c)%nat → pos1 ≠ pos2 →
  self_contract c pos1 pos2 = Raise AttributeError.
Proof.
  intros Hn H1 H2 Hne.
  assert (Hc : contract_checks c pos1 pos2 = Ok ()).
  { unfold contract_checks.
    rewrite !bool_decide_eq_false_2 by lia. reflexivity. }
  unfold self_contract, Components_self_contract, CompWithSym_self_contract.
  rewrite Hc. destruct (klass_of c); reflexivity.
Qed.

End Contraction.

(** The loop of the two-index case gives the trace when it is run over the
    index range of the store. *)
Lemma trace_loop_matrix_1_9 :
  ∃ c, matrix_1_9 = Ok c ∧ trace_loop c (sindex c) (sindex c + Z.of_nat (dim c)) = Ok 15.
Proof. eexists. split; vm_compute; reflexivity. Qed.

(** C4: on the matrix [[1,2,3],[4,5,6],[7,8,9]] over a frame of length 3,
    [self_contract(0,1)] does not return 15: it raises [AttributeError]. *)
Theorem self_contract_matrix_1_9 :
  ∃ c, matrix_1_9 = Ok c
    ∧ klass_of c = cComponents ∧ nid c = 2%nat ∧ dim c = 3%nat
    ∧ (∀ i j, 0 ≤ i < 3 → 0 ≤ j < 3 → getitem c [i; j] = Ok (3 * i + j + 1))
    ∧ self_contract c 0 1 = Raise AttributeError.
Proof.
  eexists. split; [vm_compute; reflexivity |].
  split; [reflexivity |]. split; [reflexivity |]. split; [reflexivity |].
  split; [| vm_compute; reflexivity].
  intros i j Hi Hj.
  assert (Hi' : i = 0 ∨ i = 1 ∨ i = 2) by lia.
  assert (Hj' : j = 0 ∨ j = 1 ∨ j = 2) by lia.
  destruct Hi' as [-> | [-> | ->]], Hj' as [-> | [-> | ->]]; vm_compute; reflexivity.
Qed.

(** ** Stores keep their shape when entries are written *)

Lemma same_shape_refl {R} (a : Components R) : same_shape a a.
Proof. repeat split. Qed.

Lemma same_shape_trans {R} (a b c : Components R) :
  same_shape a b → same_shape b c → same_shape a c.
Proof. unfold same_shape. intros; destruct_and!; repeat split; congruence. Qed.

Lemma same_shape_sym {R} (a b : Components R) : same_shape a b → same_shape b a.
Proof. unfold same_shape. intros; destruct_and!; repeat split; congruence. Qed.

Lemma same_shape_set_comp {R} (a : Components R) m : same_shape a (set_comp a m).
Proof. repeat split. Qed.

Section Shape.
Context {R : Type} `{Ring R} `{SetListing}.

Lemma store_all_shape (f : R → R) src (r : Components R) :
  same_shape r (store_all f src r).
Proof.
  unfold store_all. revert r.
  induction src as [| iv src IH]; intros r; simpl; [apply same_shape_refl |].
  eapply same_shape_trans; [| apply IH]. apply same_shape_set_comp.
Qed.

Lemma store_products_shape (a b r : Components R) :
  same_shape r (store_products a b r).
Proof.
  unfold store_products. generalize (items a) as la. intros la. revert r.
  induction la as [| ivs la IH]; intros r; simpl; [apply same_shape_refl |].
  eapply same_shape_trans; [| apply IH].
  generalize (items b) as lb. intros lb. clear IH. revert r.
  induction lb as [| ivo lb IH]; intros r; simpl; [apply same_shape_refl |].
  eapply same_shape_trans; [| apply IH]. apply same_shape_set_comp.
Qed.

Lemma setitem_shape (c c' : Components R) ind v :
  setitem c ind v = Ok c' → same_shape c c'.
Proof.
  unfold setitem, Components_setitem, CompWithSym_setitem, CompFullySym_setitem.
  intros Hs.
  destruct (klass_of c);
    [ destruct (_check_indices c ind) as [k | |]; simpl in Hs; try discriminate
    | destruct (_ordered_indices c ind) as [[s k] | |]; simpl in Hs; try discriminate ..];
    repeat (case_match; try discriminate);
    simplify_eq; first [apply same_shape_refl | apply same_shape_set_comp].
Qed.

Lemma CompFullySym_init_2 (fr : Frame) (si : Z) (fmt : option nat) :
  CompFullySym_init (R:=R) fr 2 si fmt
  = Ok (mkComponents cCompFullySym fr 2 (frame_len fr) si fmt ∅ [[0; 1]%nat] []).
Proof. reflexivity. Qed.

(** The product of a one-index store of the base class with itself is
    flagged fully symmetric. *)
Lemma mul_same_vector_plain (h : gmap nat (Components R)) (a : nat) (v : Components R) :
  h !! a = Some v → klass_of v = cComponents → nid v = 1%nat →
  ∃ r, mul_ref h a a = Some (Ok r)
    ∧ klass_of r = cCompFullySym ∧ nid r = 2%nat
    ∧ sym r = [[0; 1]%nat] ∧ antisym r = [].
Proof.
  intros Ha Hk Hn. unfold mul_ref. rewrite Ha. simpl.
  unfold mul, Components_mul. rewrite Hk. cbn [isinstance_CompWithSym].
  rewrite !(bool_decide_eq_false_2 (_ ≠ _)) by (intros Hf; apply Hf; reflexivity).
  rewrite Hn, !bool_decide_eq_true_2 by reflexivity. cbn [andb].
  rewrite CompFullySym_init_2. simpl.
  eexists. split; [reflexivity |].
  match goal with |- context [store_products ?x ?y ?z] =>
    destruct (store_products_shape x y z) as (Hk' & _ & Hn' & _ & _ & _ & Hs & Has) end.
  rewrite <- Hk', <- Hn', <- Hs, <- Has. repeat split.
Qed.

End Shape.

(** ** Tensor product *)

(** C8: the product [v * v] of a one-index store of the class
    [CompWithSym] with itself is not flagged symmetric: the result has the
    class [CompWithSym] and no symmetry. *)
Theorem mul_same_vector_with_sym :
  ∃ v r, vector_with_sym = Ok v
    ∧ klass_of v = cCompWithSym ∧ nid v = 1%nat
    ∧ mul_ref {[0%nat := v]} 0 0 = Some (Ok r)
    ∧ nid r = 2%nat ∧ klass_of r = cCompWithSym ∧ sym r = [] ∧ antisym r = []
    ∧ getitem r [0; 0] = Ok 1.
Proof. do 2 eexists. repeat split; reflexivity. Qed.

(** The same product with the class [Components]. *)
Lemma mul_same_vector_plain_example :
  ∃ v r, vector_plain = Ok v
    ∧ mul_ref {[0%nat := v]} 0 0 = Some (Ok r)
    ∧ klass_of r = cCompFullySym ∧ sym r = [[0; 1]%nat].
Proof. do 2 eexists. repeat split; reflexivity. Qed.

(** ** Zero entries *)

(** C3: over the integers modulo 4, the tensor product of two stores
    without zero entry stores a zero: with [a[0] = 2] and [b[0] = 2], the
    entry of [a * b] at (0, 0) is 2 * 2 = 0. The product by the scalar 2
    does the same, and so does the assignment [c[0] = 4] on an empty
    store: the integer 4 is not zero, its conversion into the ring is. *)
Theorem mul_stores_zero_entry :
  ∃ a r s c, vector_two = Ok a
    ∧ no_zero_entry a
    ∧ mul_ref {[0%nat := a; 1%nat := a]} 0 1 = Some (Ok r)
    ∧ _comp r !! [0; 0] = Some zero_element
    ∧ Components_rmul a (OScalar Z4_2) = Ok s
    ∧ _comp s !! [0] = Some zero_element
    ∧ setitem (Components_init (R:=Z4) frame3 1 0 None) [0] (VInt 4) = Ok c
    ∧ _comp c !! [0] = Some zero_element.
Proof.
  exists (mkComponents cComponents frame3 1 3 0 None {[ [0] := Z4_2 ]} [] []).
  do 3 eexists. split; [reflexivity |]. split.
  { intros ind v. cbn [_comp]. rewrite lookup_singleton_Some.
    intros [_ <-]. discriminate. }
  repeat split; reflexivity.
Qed.

(** ** Repeated elements *)

Section Repeats.
Context `{Countable A}.

Lemma size_list_to_set_le (l : list A) : (size (list_to_set l : gset A) ≤ length l)%nat.
Proof.
  induction l as [| x l IH].
  - rewrite list_to_set_nil, size_empty. simpl. lia.
  - rewrite list_to_set_cons. simpl length.
    destruct (decide (x ∈ l)) as [Hin | Hnin].
    + replace ({[x]} ∪ list_to_set l : gset A) with (list_to_set l : gset A)
        by (apply set_eq; intros y; rewrite elem_of_union, elem_of_singleton,
              elem_of_list_to_set; split; [tauto | intros [-> | ?]; tauto]).
      lia.
    + rewrite size_union by (rewrite disjoint_singleton_l, elem_of_list_to_set; done).
      rewrite size_singleton. lia.
Qed.

Lemma has_repeat_false (l : list A) : has_repeat l = false ↔ NoDup l.
Proof.
  unfold has_repeat. rewrite bool_decide_eq_false. split.
  - intros Hsz. assert (Hlen : length l = size (list_to_set l : gset A))
      by (destruct (decide (length l = size (list_to_set l : gset A))); [done | contradiction]).
    clear Hsz. induction l as [| x l IH]; [constructor |].
    rewrite list_to_set_cons in Hlen. simpl length in Hlen.
    destruct (decide (x ∈ l)) as [Hin | Hnin].
    + exfalso.
      replace ({[x]} ∪ list_to_set l : gset A) with (list_to_set l : gset A) in Hlen
        by (apply set_eq; intros y; rewrite elem_of_union, elem_of_singleton,
              elem_of_list_to_set; split; [tauto | intros [-> | ?]; tauto]).
      pose proof (size_list_to_set_le l). lia.
    + constructor; [done |]. apply IH.
      rewrite size_union, size_singleton in Hlen
        by (rewrite disjoint_singleton_l, elem_of_list_to_set; done).
      lia.
  - intros Hnd Hne. apply Hne. symmetry. by apply size_list_to_set.
Qed.

Lemma has_repeat_true (l : list A) : has_repeat l = true ↔ ¬ NoDup l.
Proof.
  rewrite <- has_repeat_false. destruct (has_repeat l); split; congruence.
Qed.

Lemma has_repeat_lookup (l : list A) (k1 k2 : nat) (x : A) :
  l !! k1 = Some x → l !! k2 = Some x → k1 ≠ k2 → has_repeat l = true.
Proof.
  intros H1 H2 Hne. apply has_repeat_true. intros Hnd.
  apply Hne. eapply NoDup_lookup; eauto.
Qed.

End Repeats.

(** ** What a valid specification gives *)

Lemma check_groups_Ok (nb : nat) (gs gs' : list (list nat)) :
  check_groups nb gs = Ok gs' →
  gs' = gs ∧ Forall (λ g, (2 ≤ length g)%nat ∧ Forall (λ p, (p < nb)%nat) g) gs.
Proof.
  revert gs'. induction gs as [| g gs IH]; intros gs'; simpl.
  - intros [= <-]. split; [done | constructor].
  - case_bool_decide as Hlen; [discriminate |].
    destruct (existsb _ g) eqn:Hex; [discriminate |].
    destruct (check_groups nb gs) as [r | |] eqn:Hr; simpl; try discriminate.
    intros [= <-]. destruct (IH r eq_refl) as [-> Hall]. split; [done |].
    constructor; [| done]. split; [lia |].
    apply Forall_forall. intros p Hp.
    destruct (decide (p < nb)%nat) as [| Hge]; [done |]. exfalso.
    assert (existsb (λ i, bool_decide (nb ≤ i)%nat) g = true); [| congruence].
    apply existsb_exists. exists p. split; [by apply list_elem_of_In |].
    apply bool_decide_eq_true. lia.
Qed.

Lemma check_groups_intro (nb : nat) (gs : list (list nat)) :
  Forall (λ g, (2 ≤ length g)%nat ∧ Forall (λ p, (p < nb)%nat) g) gs →
  check_groups nb gs = Ok gs.
Proof.
  induction 1 as [| g gs [Hlen Hpos] _ IH]; simpl; [done |].
  rewrite bool_decide_eq_false_2 by lia.
  destruct (existsb _ g) eqn:Hex.
  - apply existsb_exists in Hex as (p & Hp & Hb).
    apply bool_decide_eq_true in Hb. apply list_elem_of_In in Hp.
    rewrite Forall_forall in Hpos. specialize (Hpos p Hp). lia.
  - rewrite IH. done.
Qed.

Section ValidSpec.
Context {R : Type} `{Ring R} `{SetListing}.

Lemma valid_spec_groups (c : Components R) :
  valid_spec c →
  Forall (λ g, (2 ≤ length g)%nat ∧ Forall (λ p, (p < nid c)%nat) g) (sym c)
  ∧ Forall (λ g, (2 ≤ length g)%nat ∧ Forall (λ p, (p < nid c)%nat) g) (antisym c)
  ∧ NoDup (concat (sym c) ++ concat (antisym c)).
Proof.
  intros (Hs & Ha & Hr).
  apply check_groups_Ok in Hs as [_ Hs]. apply check_groups_Ok in Ha as [_ Ha].
  by apply has_repeat_false in Hr.
Qed.

Lemma valid_spec_same_shape (c c' : Components R) :
  same_shape c c' → valid_spec c → valid_spec c'.
Proof.
  intros (_ & _ & Hn & _ & _ & _ & Hs & Ha). unfold valid_spec.
  by rewrite Hn, Hs, Ha.
Qed.

Lemma well_formed_same_shape (c c' : Components R) :
  same_shape c c' → well_formed c → well_formed c'.
Proof.
  intros Hsh (Hv & Hc & Hd). split; [by eapply valid_spec_same_shape |].
  destruct Hsh as (Hk & Hf & Hn & Hdim & _ & _ & Hs & Ha).
  unfold class_spec in *. rewrite <- Hk, <- Hs, <- Ha, <- Hn, <- Hdim, <- Hf. done.
Qed.

(** Assignment keeps a store well formed. *)
Lemma setitem_well_formed (c c' : Components R) ind v :
  setitem c ind v = Ok c' → well_formed c → well_formed c'.
Proof. intros Hs. apply well_formed_same_shape. by eapply setitem_shape. Qed.

(** The constructors build well-formed stores. *)
Lemma Components_init_well_formed fr nb si fmt :
  well_formed (Components_init (R:=R) fr nb si fmt).
Proof. repeat split. Qed.

Lemma groups_of_arg_Ok nb a gs :
  groups_of_arg nb a = Ok gs → check_groups nb gs = Ok gs.
Proof.
  destruct a as [| [| p g] | gs0]; cbn [groups_of_arg].
  - by intros [= <-].
  - by intros [= <-].
  - intros Hg. destruct (check_groups_Ok _ _ _ Hg) as [-> _]. done.
  - intros Hg. destruct (check_groups_Ok _ _ _ Hg) as [-> _]. done.
Qed.

Lemma CompWithSym_init_valid k fr nb si fmt s a (c : Components R) :
  CompWithSym_init_as k fr nb si fmt s a = Ok c →
  valid_spec c ∧ klass_of c = k ∧ frame c = fr ∧ nid c = nb ∧ dim c = frame_len fr
  ∧ sindex c = si ∧ output_formatter c = fmt ∧ _comp c = ∅
  ∧ groups_of_arg nb s = Ok (sym c) ∧ groups_of_arg nb a = Ok (antisym c).
Proof.
  unfold CompWithSym_init_as.
  destruct (groups_of_arg nb s) as [s' | |] eqn:Hs; simpl; try discriminate.
  destruct (groups_of_arg nb a) as [a' | |] eqn:Ha; simpl; try discriminate.
  destruct (has_repeat _) eqn:Hr; [discriminate |].
  intros [= <-]. simpl. repeat split; try done.
  - by eapply groups_of_arg_Ok.
  - by eapply groups_of_arg_Ok.
Qed.

Lemma CompWithSym_init_well_formed fr nb si fmt s a (c : Components R) :
  CompWithSym_init fr nb si fmt s a = Ok c → well_formed c.
Proof.
  intros Hc. apply CompWithSym_init_valid in Hc as (Hv & Hk & Hf & _ & Hd & _).
  split; [done |]. split; [| congruence]. unfold class_spec. by rewrite Hk.
Qed.

End ValidSpec.

(** ** Canonical forms and signs *)

Lemma signature_cases (perm : list nat) : signature perm = 1 ∨ signature perm = -1.
Proof. unfold signature. destruct (Nat.even _); auto. Qed.

Lemma antisym_pass_cases (sign : Z) (ind : list Z) (groups : list (list nat)) :
  sign = 1 ∨ sign = -1 →
  antisym_pass sign ind groups = (0, None)
  ∨ ∃ s k, antisym_pass sign ind groups = (s, Some k) ∧ (s = 1 ∨ s = -1).
Proof.
  revert sign ind. induction groups as [| g groups IH]; intros sign ind Hs; simpl.
  - right. eauto.
  - destruct (has_repeat _); [by left |].
    apply IH. case_bool_decide; [| done].
    destruct (signature_cases
                ((λ i, (index_of i (gather ind g) + 1)%nat) <$> sorted (gather ind g)))
      as [-> | ->]; lia.
Qed.

Section Accessors.
Context {R : Type} `{Ring R} `{SetListing}.

Lemma _check_indices_Ok (c : Components R) (indices ind : list Z) :
  _check_indices c indices = Ok ind →
  ind = indices ∧ length ind = nid c
  ∧ Forall (λ i, sindex c ≤ i ≤ Z.of_nat (dim c) - 1 + sindex c) ind.
Proof.
  unfold _check_indices. case_bool_decide as Hlen; [discriminate |].
  destruct (check_range _ _ indices) eqn:Hr; [| discriminate].
  intros [= <-]. split; [done |]. split.
  { destruct (decide (length indices = nid c)); [done | contradiction]. }
  clear Hlen. induction indices as [| i l IH]; [constructor |].
  simpl in Hr. destruct (_ || _) eqn:Hb; [discriminate |].
  apply orb_false_iff in Hb as [H1 H2].
  constructor; [lia | by apply IH].
Qed.

Lemma _check_indices_intro (c : Components R) (ind : list Z) :
  length ind = nid c →
  Forall (λ i, sindex c ≤ i ≤ Z.of_nat (dim c) - 1 + sindex c) ind →
  _check_indices c ind = Ok ind.
Proof.
  intros Hlen Hall. unfold _check_indices.
  rewrite bool_decide_eq_false_2 by (intros Hf; by apply Hf).
  replace (check_range _ _ ind) with true; [done |].
  symmetry. clear Hlen. induction Hall as [| i l Hi _ IH]; [done |].
  simpl. replace ((i <? sindex c) || (i >? Z.of_nat (dim c) - 1 + sindex c)) with false
    by (symmetry; apply orb_false_iff; lia).
  done.
Qed.

Lemma _check_indices_shape (c c' : Components R) ind :
  same_shape c c' → _check_indices c' ind = _check_indices c ind.
Proof.
  intros (_ & _ & Hn & Hd & Hsi & _). unfold _check_indices.
  by rewrite Hn, Hd, Hsi.
Qed.

Lemma _ordered_indices_shape (c c' : Components R) ind :
  same_shape c c' → _ordered_indices c' ind = _ordered_indices c ind.
Proof.
  intros Hsh. unfold _ordered_indices. rewrite (_check_indices_shape c c') by done.
  destruct Hsh as (_ & _ & _ & _ & _ & _ & Hs & Ha). by rewrite Hs, Ha.
Qed.

Lemma _ordered_indices_cases (c : Components R) ind sign k :
  _ordered_indices c ind = Ok (sign, k) →
  (sign = 0 ∧ k = None) ∨ ((sign = 1 ∨ sign = -1) ∧ is_Some k).
Proof.
  unfold _ordered_indices.
  destruct (_check_indices c ind) as [i | |]; simpl; try discriminate.
  intros [= Heq].
  destruct (antisym_pass_cases 1 (sym_pass i (sym c)) (antisym c)) as [Hz | (s & key & Hs & Hc)];
    [by left | |]; rewrite Heq in *; simplify_eq; eauto.
Qed.

(** Without antisymmetry the sign is 1. *)
Lemma _ordered_indices_no_antisym (c : Components R) ind sign k :
  antisym c = [] → _ordered_indices c ind = Ok (sign, k) → sign = 1 ∧ is_Some k.
Proof.
  unfold _ordered_indices. intros ->.
  destruct (_check_indices c ind) as [i | |]; simpl; try discriminate.
  intros [= <- <-]. eauto.
Qed.

End Accessors.

(** ** Reading back what was written *)

Section RoundTrip.
Context {R : Type} `{Ring R} `{!CommRing R} `{SetListing}.

Lemma rneg_involutive (x : R) : rneg (rneg x) = x.
Proof.
  pose proof ring_laws as Rth.
  rewrite <- (Radd_0_l Rth (rneg (rneg x))).
  rewrite <- (Ropp_def Rth x).
  rewrite <- (Radd_assoc Rth).
  rewrite (Ropp_def Rth (rneg x)).
  rewrite (Radd_comm Rth). apply (Radd_0_l Rth).
Qed.

End RoundTrip.

(** ** Values forced to zero by an antisymmetry *)

Lemma elem_of_concat {A} (x : A) (ls : list (list A)) :
  x ∈ concat ls ↔ ∃ l, x ∈ l ∧ l ∈ ls.
Proof.
  induction ls as [| l0 ls IH]; simpl.
  - rewrite elem_of_nil. split; [done |]. intros (l & _ & Hl). by apply elem_of_nil in Hl.
  - rewrite elem_of_app, IH. split.
    + intros [Hx | (l & Hx & Hl)]; [exists l0 | exists l]; rewrite elem_of_cons; auto.
    + intros (l & Hx & Hl). apply elem_of_cons in Hl as [-> | Hl]; eauto.
Qed.

Lemma scatter_other (ind : list Z) (isym : list nat) (vals : list Z) (p : nat) :
  p ∉ isym → scatter ind isym vals !!! p = ind !!! p.
Proof.
  revert ind vals. induction isym as [| q isym IH]; intros ind vals Hp; [done |].
  destruct vals as [| v vals]; [done |]. simpl.
  apply not_elem_of_cons in Hp as [Hne Hp].
  rewrite IH by done. apply list_lookup_total_insert_ne. congruence.
Qed.

Lemma scatter_length (ind : list Z) (isym : list nat) (vals : list Z) :
  length (scatter ind isym vals) = length ind.
Proof.
  revert ind vals. induction isym as [| q isym IH]; intros ind vals; [done |].
  destruct vals as [| v vals]; [done |]. simpl.
  by rewrite IH, length_insert.
Qed.

Lemma gather_ext (ind1 ind2 : list Z) (g : list nat) :
  (∀ p, p ∈ g → ind1 !!! p = ind2 !!! p) → gather ind1 g = gather ind2 g.
Proof.
  intros Heq. unfold gather. apply list_fmap_ext. intros k p Hk.
  apply Heq. by eapply list_elem_of_lookup_2.
Qed.

Lemma sym_pass_other (ind : list Z) (groups : list (list nat)) (p : nat) :
  p ∉ concat groups → sym_pass ind groups !!! p = ind !!! p.
Proof.
  unfold sym_pass. revert ind.
  induction groups as [| g groups IH]; intros ind Hp; [done |].
  simpl in *. apply not_elem_of_app in Hp as [Hg Hp].
  rewrite IH by done. by apply scatter_other.
Qed.

Lemma antisym_pass_zero (sign : Z) (ind : list Z) (groups : list (list nat))
    (g : list nat) :
  g ∈ groups → NoDup (concat groups) → has_repeat (gather ind g) = true →
  antisym_pass sign ind groups = (0, None).
Proof.
  revert sign ind. induction groups as [| h groups IH]; intros sign ind Hg Hnd Hrep.
  - by apply elem_of_nil in Hg.
  - simpl. destruct (has_repeat (gather ind h)) eqn:Hh; [done |].
    apply elem_of_cons in Hg as [-> | Hg]; [congruence |].
    simpl in Hnd. apply NoDup_app in Hnd as (_ & Hdisj & Hnd).
    apply IH; [done | done |].
    rewrite <- Hrep. f_equal. apply gather_ext. intros p Hp.
    apply scatter_other. intros Hph. apply (Hdisj p Hph).
    apply elem_of_concat. eauto.
Qed.

Section ZeroLaw.
Context {R : Type} `{Ring R} `{SetListing}.

Lemma _ordered_indices_zero (c : Components R) (ind : list Z) (g : list nat)
    (k1 k2 p1 p2 : nat) :
  valid_spec c →
  _check_indices c ind = Ok ind →
  g ∈ antisym c →
  g !! k1 = Some p1 → g !! k2 = Some p2 → k1 ≠ k2 →
  ind !!! p1 = ind !!! p2 →
  _ordered_indices c ind = Ok (0, None).
Proof.
  intros Hv Hind Hg Hk1 Hk2 Hne Heq.
  apply valid_spec_groups in Hv as (_ & _ & Hnd).
  apply NoDup_app in Hnd as (_ & Hdisj & Hnd).
  unfold _ordered_indices. rewrite Hind. simpl. f_equal.
  apply (antisym_pass_zero _ _ _ g); [done | done |].
  assert (Hout : ∀ p, p ∈ g → sym_pass ind (sym c) !!! p = ind !!! p).
  { intros p Hp. apply sym_pass_other. intros Hps. apply (Hdisj p Hps).
    apply elem_of_concat. eauto. }
  apply (has_repeat_lookup _ k1 k2 (ind !!! p1)); [| | done].
  - unfold gather. rewrite list_lookup_fmap, Hk1. simpl. f_equal.
    apply Hout. by eapply list_elem_of_lookup_2.
  - unfold gather. rewrite list_lookup_fmap, Hk2. simpl. f_equal.
    rewrite Heq. apply Hout. by eapply list_elem_of_lookup_2.
Qed.

(** C2: in a well-formed store, let [ind] be an index tuple in range that
    has equal values at two positions [p1], [p2] of an antisymmetric group
    [g]. Reading [ind] gives the zero of the ring; assigning a value [v]
    that is not zero raises [ValueError]; assigning a value [z] that is
    zero succeeds and leaves the store as it is (the canonical tuple is
    [None], which is the key of no entry, so nothing is deleted). *)
Theorem antisymmetry_zero_law (c : Components R) (ind : list Z) (g : list nat)
    (k1 k2 p1 p2 : nat) (v z : value) :
  well_formed c →
  _check_indices c ind = Ok ind →
  g ∈ antisym c →
  g !! k1 = Some p1 → g !! k2 = Some p2 → k1 ≠ k2 →
  ind !!! p1 = ind !!! p2 →
  value_is0 v = false → value_is0 z = true →
  getitem c ind = Ok zero_element
  ∧ setitem c ind v = Raise ValueError
  ∧ setitem c ind z = Ok c.
Proof.
  intros (Hv & Hcls & _) Hind Hg Hk1 Hk2 Hne Heq Hv0 H00.
  pose proof (_ordered_indices_zero c ind g k1 k2 p1 p2 Hv Hind Hg Hk1 Hk2 Hne Heq) as Hz.
  unfold class_spec in Hcls.
  unfold getitem, setitem, CompWithSym_getitem, CompWithSym_setitem.
  destruct (klass_of c).
  - destruct Hcls as [_ Ha]. rewrite Ha in Hg. by apply elem_of_nil in Hg.
  - rewrite Hz. simpl. by rewrite Hv0, H00.
  - destruct Hcls as [_ Ha]. rewrite Ha in Hg. by apply elem_of_nil in Hg.
  - rewrite Hz. simpl. by rewrite Hv0, H00.
Qed.

End ZeroLaw.

Lemma antisymmetry_zero_law_witness :
  getitem antisym_pair [1; 1] = Ok (zero_element : Z)
  ∧ setitem antisym_pair [1; 1] (VRing 7) = Raise ValueError
  ∧ setitem antisym_pair [1; 1] (VRing zero_element) = Ok antisym_pair.
Proof.
  apply (antisymmetry_zero_law antisym_pair [1; 1] [0; 1]%nat 0 1 0 1
           (VRing 7) (VRing zero_element)).
  - repeat split; reflexivity.
  - reflexivity.
  - apply list_elem_of_here.
  - reflexivity.
  - reflexivity.
  - lia.
  - reflexivity.
  - reflexivity.
  - reflexivity.
Defined.

(** ** Symmetrization against an antisymmetry, and conversely *)

Lemma size_two_elements (X : gset nat) (p q : nat) :
  p ≠ q → p ∈ X → q ∈ X → (1 < size X)%nat.
Proof.
  intros Hne Hp Hq.
  assert (Hsub : ({[p]} ∪ {[q]} : gset nat) ⊆ X).
  { intros x [Hx | Hx]%elem_of_union; apply elem_of_singleton in Hx; by subst. }
  apply subseteq_size in Hsub.
  rewrite size_union, !size_singleton in Hsub
    by (by apply disjoint_singleton_l; rewrite elem_of_singleton).
  lia.
Qed.

Lemma interference_None `{SetListing} (pos_set : gset nat) (groups : list (list nat))
    (acc : list (list nat)) (grp : list nat) (p q : nat) :
  grp ∈ groups → p ≠ q → p ∈ pos_set → q ∈ pos_set → p ∈ grp → q ∈ grp →
  interference pos_set groups acc = None.
Proof.
  intros Hg Hne Hp Hq Hpg Hqg. revert acc.
  induction groups as [| h groups IH]; intros acc; [by apply elem_of_nil in Hg |].
  simpl. case_bool_decide as Hsz; [done |].
  apply elem_of_cons in Hg as [-> | Hg].
  { exfalso. apply Hsz. apply (size_two_elements _ p q); [done | |];
      rewrite elem_of_intersection, elem_of_list_to_set; done. }
  repeat case_bool_decide; by apply IH.
Qed.

Lemma already_present_false (pos_set : gset nat) (groups : list (list nat)) (p : nat) :
  p ∈ pos_set → p ∉ concat groups → already_present pos_set groups = false.
Proof.
  intros Hp Hout. unfold already_present.
  destruct (existsb _ groups) eqn:Hex; [| done].
  apply existsb_exists in Hex as (isym & Hin & Hsub).
  apply bool_decide_eq_true in Hsub. apply list_elem_of_In in Hin.
  exfalso. apply Hout. apply elem_of_concat. exists isym. split; [| done].
  specialize (Hsub p Hp). by apply elem_of_list_to_set in Hsub.
Qed.

Section Orthogonality.
Context {R : Type} `{Ring R} `{SetListing}.

Lemma CompFullySym_init_Ok (fr : Frame) (nb : nat) (si : Z) (fmt : option nat) :
  (2 ≤ nb)%nat →
  CompFullySym_init (R:=R) fr nb si fmt
  = Ok (mkComponents cCompFullySym fr nb (frame_len fr) si fmt ∅ [seq 0 nb] []).
Proof.
  intros Hnb. unfold CompFullySym_init, CompWithSym_init_as.
  assert (Hg : groups_of_arg nb (SymOne (seq 0 nb)) = Ok [seq 0 nb]).
  { destruct nb as [| nb]; [lia |]. cbn [seq groups_of_arg].
    apply check_groups_intro. constructor; [| constructor].
    split; [simpl; rewrite length_seq; lia |].
    apply Forall_forall. intros p Hp.
    change (0%nat :: seq 1 nb) with (seq 0 (S nb)) in Hp.
    apply elem_of_seq in Hp. lia. }
  rewrite Hg. simpl.
  replace (has_repeat _) with false; [done |].
  symmetry. apply has_repeat_false. rewrite !app_nil_r. apply NoDup_seq.
Qed.

Lemma CompFullyAntiSym_init_Ok (fr : Frame) (nb : nat) (si : Z) (fmt : option nat) :
  (2 ≤ nb)%nat →
  CompFullyAntiSym_init (R:=R) fr nb si fmt
  = Ok (mkComponents cCompFullyAntiSym fr nb (frame_len fr) si fmt ∅ [] [seq 0 nb]).
Proof.
  intros Hnb. unfold CompFullyAntiSym_init, CompWithSym_init_as.
  assert (Hg : groups_of_arg nb (SymOne (seq 0 nb)) = Ok [seq 0 nb]).
  { destruct nb as [| nb]; [lia |]. cbn [seq groups_of_arg].
    apply check_groups_intro. constructor; [| constructor].
    split; [simpl; rewrite length_seq; lia |].
    apply Forall_forall. intros p Hp.
    change (0%nat :: seq 1 nb) with (seq 0 (S nb)) in Hp.
    apply elem_of_seq in Hp. lia. }
  rewrite Hg. simpl.
  replace (has_repeat _) with false; [done |].
  symmetry. apply has_repeat_false. rewrite !app_nil_r. apply NoDup_seq.
Qed.

(** An empty dictionary reads as zero everywhere. *)
Lemma getitem_empty (r : Components R) (ind : list Z) (x : R) :
  _comp r = ∅ → getitem r ind = Ok x → x = zero_element.
Proof.
  intros He.
  unfold getitem, Components_getitem, CompWithSym_getitem, CompFullySym_getitem.
  destruct (klass_of r).
  - destruct (_check_indices r ind) as [k | |]; simpl; try discriminate.
    rewrite He, lookup_empty. by intros [= <-].
  - destruct (_ordered_indices r ind) as [[s [k |]] | |]; simpl; try discriminate;
      rewrite ?He, ?lookup_empty; simpl; rewrite ?orb_true_r; by intros [= <-].
  - destruct (_ordered_indices r ind) as [[s [k |]] | |]; simpl; try discriminate;
      rewrite ?He, ?lookup_empty; simpl; by intros [= <-].
  - destruct (_ordered_indices r ind) as [[s [k |]] | |]; simpl; try discriminate;
      rewrite ?He, ?lookup_empty; simpl; rewrite ?orb_true_r; by intros [= <-].
Qed.

Lemma is_zero_empty (r : Components R) : _comp r = ∅ → is_zero r = true.
Proof. intros He. unfold is_zero. by rewrite bool_decide_eq_true_2. Qed.

Lemma zero_store_intro (c r : Components R) :
  frame r = frame c → nid r = nid c → sindex r = sindex c → _comp r = ∅ →
  zero_store c r.
Proof.
  intros Hf Hn Hs He. repeat split; try done.
  - by apply is_zero_empty.
  - intros ind x. by apply getitem_empty.
Qed.

(** C7: in a well-formed store, let [pos] be a list of at most [nid]
    positions, two of which, [p] and [q], lie in one group [g]. If [g] is
    an antisymmetry of the store, symmetrizing over [pos] gives the zero
    store; if [g] is a symmetry, antisymmetrizing over [pos] gives the
    zero store. In particular, for the 2-index store antisymmetric on
    (0, 1) with [store[0,1] = 3], the symmetrization over (0, 1) is equal
    to zero and [store[1,0]] is -3. *)
Theorem symmetrize_antisymmetrize_orthogonal (c : Components R) (pos g : list nat)
    (p q : nat) :
  well_formed c →
  (length pos ≤ nid c)%nat →
  p ≠ q → p ∈ pos → q ∈ pos → p ∈ g → q ∈ g →
  (g ∈ antisym c → ∃ r, symmetrize c (Some pos) = Ok r ∧ zero_store c r)
  ∧ (g ∈ sym c → ∃ r, antisymmetrize c (Some pos) = Ok r ∧ zero_store c r)
  ∧ (∃ s r, antisym_3 = Ok s
       ∧ antisym s = [[0; 1]%nat]
       ∧ symmetrize s (Some [0; 1]%nat) = Ok r
       ∧ Components_eq r (OInt 0) = Ok true
       ∧ getitem s [1; 0] = Ok (-3)).
Proof.
  intros (Hv & Hcls & _) Hlen Hne Hp Hq Hpg Hqg.
  destruct (valid_spec_groups c Hv) as (Hsym & Hanti & Hnd).
  assert (Hpos : positions_arg c (Some pos) = Ok pos).
  { unfold positions_arg. rewrite !bool_decide_eq_false_2; [done | lia |].
    destruct pos as [| a [| b pos]]; simpl; [| | lia].
    - by apply elem_of_nil in Hp.
    - apply list_elem_of_singleton in Hp, Hq. congruence. }
  assert (Hps : p ∈ (list_to_set pos : gset nat)) by (by apply elem_of_list_to_set).
  assert (Hqs : q ∈ (list_to_set pos : gset nat)) by (by apply elem_of_list_to_set).
  apply NoDup_app in Hnd as (_ & Hdisj & _).
  unfold class_spec in Hcls.
  split; [| split].
  - intros Hg.
    assert (Hnid : (2 ≤ nid c)%nat).
    { rewrite Forall_forall in Hanti. destruct (Hanti g Hg) as [_ Hlt].
      rewrite Forall_forall in Hlt. pose proof (Hlt p Hpg). pose proof (Hlt q Hqg). lia. }
    assert (Hout : p ∉ concat (sym c)).
    { intros Hin. apply (Hdisj p Hin). apply elem_of_concat. eauto. }
    unfold symmetrize, CompWithSym_symmetrize.
    destruct (klass_of c) eqn:Hk.
    1, 3: destruct Hcls as [_ Ha]; rewrite Ha in Hg; by apply elem_of_nil in Hg.
    all: rewrite Hpos; simpl;
      rewrite (already_present_false _ _ p Hps Hout);
      rewrite (interference_None _ _ [] g p q) by done;
      rewrite CompFullySym_init_Ok by done;
      eexists; (split; [done |]); by apply zero_store_intro.
  - intros Hg.
    assert (Hnid : (2 ≤ nid c)%nat).
    { rewrite Forall_forall in Hsym. destruct (Hsym g Hg) as [_ Hlt].
      rewrite Forall_forall in Hlt. pose proof (Hlt p Hpg). pose proof (Hlt q Hqg). lia. }
    assert (Hout : p ∉ concat (antisym c)).
    { intros Hin. apply (Hdisj p); [| done]. apply elem_of_concat. eauto. }
    unfold antisymmetrize, CompWithSym_antisymmetrize.
    destruct (klass_of c) eqn:Hk.
    1, 4: destruct Hcls as [Hs _]; rewrite Hs in Hg; by apply elem_of_nil in Hg.
    all: rewrite Hpos; simpl;
      rewrite (already_present_false _ _ p Hps Hout);
      rewrite (interference_None _ _ [] g p q) by done;
      rewrite CompFullyAntiSym_init_Ok by done;
      eexists; (split; [done |]); by apply zero_store_intro.
  - do 2 eexists. repeat split; reflexivity.
Qed.

End Orthogonality.

Lemma symmetrize_antisymmetrize_orthogonal_witness :
  ∃ r, symmetrize antisym_pair (Some [0; 1]%nat) = Ok r ∧ zero_store antisym_pair r.
Proof.
  refine (proj1 (symmetrize_antisymmetrize_orthogonal (R:=Z) antisym_pair
                   [0; 1]%nat [0; 1]%nat 0 1 _ _ _ _ _ _ _) _).
  - repeat split; reflexivity.
  - simpl. lia.
  - lia.
  - apply list_elem_of_In. simpl. auto.
  - apply list_elem_of_In. simpl. auto.
  - apply list_elem_of_In. simpl. auto.
  - apply list_elem_of_In. simpl. auto.
  - apply list_elem_of_In. simpl. auto.
Defined.

(** ** The index generators *)

Lemma steps_along_app adv l1 l2 y fin :
  steps_along adv l1 (y, 0) → head l2 = Some y → steps_along adv l2 fin →
  steps_along adv (l1 ++ l2) fin.
Proof.
  intros H1 Hy H2. induction l1 as [| x l1 IH]; [done |].
  destruct H1 as [Hx H1]. simpl. split; [| by apply IH].
  destruct l1 as [| x' l1]; simpl; [| done].
  destruct l2 as [| y' l2]; simpl in *; [done |]. congruence.
Qed.

Section Odometer.
Variables (si imax : Z).

Lemma steps_along_block pos a (L : list (list Z)) first :
  steps_along (advance si imax (S pos)) L (first, 1) →
  (a ≠ imax → steps_along (advance si imax pos) (cons a <$> L) ((a + 1) :: first, 0))
  ∧ (a = imax → steps_along (advance si imax pos) (cons a <$> L) (wrap_digit si imax pos :: first, 1)).
Proof.
  induction L as [| x L IH]; [done |].
  intros [Hx HL]. specialize (IH HL).
  split; intros Ha.
  - simpl. split; [| by apply IH].
    rewrite Hx. rewrite bool_decide_eq_true_2 by done.
    destruct L as [| y L]; simpl; [done |]. f_equal. f_equal. lia.
  - simpl. split; [| by apply IH].
    rewrite Hx. rewrite bool_decide_eq_false_2 by (intros Hf; by apply Hf).
    destruct L as [| y L]; simpl; [by destruct pos |]. done.
Qed.

Lemma steps_along_digits pos (k : nat) a (L : list (list Z)) first :
  head L = Some first →
  steps_along (advance si imax (S pos)) L (first, 1) →
  a + Z.of_nat k = imax →
  steps_along (advance si imax pos)
    (i ← seqZ a (Z.of_nat (S k)); cons i <$> L) (wrap_digit si imax pos :: first, 1).
Proof.
  intros Hhd HL. revert a. induction k as [| k IH]; intros a Ha.
  - rewrite seqZ_cons, seqZ_nil by lia. simpl. rewrite app_nil_r.
    apply (steps_along_block pos a L first HL). lia.
  - rewrite seqZ_cons by lia. cbn [mbind list_bind].
    replace (Z.pred (Z.of_nat (S (S k)))) with (Z.of_nat (S k)) by lia.
    eapply steps_along_app.
    + apply (steps_along_block pos a L first HL). lia.
    + rewrite seqZ_cons by lia. cbn [mbind list_bind]. 
      destruct L as [| x L]; [done |]. simpl in *. by simplify_eq.
    + apply IH. lia.
Qed.

Lemma all_indices_head (d n : nat) :
  (1 ≤ d)%nat → head (all_indices si d n) = Some (replicate n si).
Proof.
  intros Hd. induction n as [| n IH]; [done |].
  simpl. rewrite seqZ_cons by lia. cbn [mbind list_bind].
  destruct (all_indices si d n) as [| x L]; [done |]. simpl in *. by simplify_eq.
Qed.

Lemma all_indices_steps (d n : nat) pos :
  (1 ≤ d)%nat → imax = Z.of_nat d - 1 + si →
  steps_along (advance si imax pos) (all_indices si d (S n))
    (wrap_digit si imax pos :: replicate n si, 1).
Proof.
  intros Hd Himax. revert pos. induction n as [| n IH]; intros pos.
  - cbn [all_indices]. destruct d as [| d]; [lia |].
    apply steps_along_digits; [done | | lia]. simpl. done.
  - change (all_indices si d (S (S n)))
      with (i ← seqZ si (Z.of_nat d); cons i <$> all_indices si d (S n)).
    destruct d as [| d]; [lia |].
    apply steps_along_digits; [by apply all_indices_head | | lia].
    apply (IH (S pos)).
Qed.

Lemma generator_loop_steps (keep : list Z → bool) (x : list Z) (l : list (list Z))
    (ind_end : list Z) (fuel : nat) :
  steps_along (advance si imax 0) (x :: l) (ind_end, 1) →
  ind_end ∉ x :: l →
  (length (x :: l) ≤ fuel)%nat →
  generator_loop fuel keep si imax x ind_end = Ok (List.filter keep (x :: l)).
Proof.
  revert x fuel. induction l as [| y l IH]; intros x fuel [Hx Hl] Hend Hfuel.
  - destruct fuel as [| fuel]; [simpl in Hfuel; lia |].
    simpl. rewrite bool_decide_eq_false_2 by (intros ->; apply Hend; by left).
    rewrite Hx. simpl.
    replace (generator_loop fuel keep si imax ind_end ind_end) with (Ok [] : result (list (list Z)))
      by (destruct fuel; simpl; by rewrite bool_decide_eq_true_2).
    simpl. by destruct (keep x).
  - destruct fuel as [| fuel]; [simpl in Hfuel; lia |].
    cbn [generator_loop]. rewrite bool_decide_eq_false_2 by (intros ->; apply Hend; by left).
    rewrite Hx. cbn [fst].
    rewrite (IH y fuel Hl); [| by intros Hin; apply Hend; right | simpl in *; lia].
    simpl. by destruct (keep x).
Qed.

End Odometer.

Lemma length_bind_cons (ds : list Z) (L : list (list Z)) :
  length (i ← ds; cons i <$> L) = (length ds * length L)%nat.
Proof.
  induction ds as [| i ds IH]; [done |].
  rewrite bind_cons, length_app, length_fmap, IH. simpl. lia.
Qed.

Lemma all_indices_length (si : Z) (d n : nat) :
  length (all_indices si d n) = (d ^ n)%nat.
Proof.
  induction n as [| n IH]; [done |].
  cbn [all_indices]. rewrite length_bind_cons, length_seqZ, IH, Nat.pow_succ_r'. lia.
Qed.

Lemma all_indices_elem (si : Z) (d n : nat) (t : list Z) :
  t ∈ all_indices si d n ↔
  length t = n ∧ Forall (λ i, si ≤ i ≤ Z.of_nat d - 1 + si) t.
Proof.
  revert t. induction n as [| n IH]; intros t.
  - simpl. rewrite list_elem_of_singleton. split.
    + intros ->. split; [done | constructor].
    + intros [Hl _]. by destruct t.
  - cbn [all_indices]. rewrite list_elem_of_bind. split.
    + intros (i & Ht & Hi). apply list_elem_of_fmap in Ht as (t' & -> & Ht').
      apply IH in Ht' as [Hl Hall]. apply elem_of_seqZ in Hi.
      split; [simpl; lia |]. constructor; [lia | done].
    + intros [Hl Hall]. destruct t as [| i t']; [done |].
      inversion Hall as [| ? ? Hi Hall']; subst.
      exists i. split.
      * apply list_elem_of_fmap. exists t'. split; [done |]. apply IH.
        split; [simpl in Hl; lia | done].
      * apply elem_of_seqZ. lia.
Qed.

Lemma all_indices_NoDup (si : Z) (d n : nat) : NoDup (all_indices si d n).
Proof.
  induction n as [| n IH]; [apply NoDup_singleton |].
  cbn [all_indices].
  generalize (seqZ si (Z.of_nat d)) (NoDup_seqZ si (Z.of_nat d)).
  intros ds Hds. induction Hds as [| i ds Hi Hds IHd]; [constructor |].
  cbn [mbind list_bind]. apply NoDup_app. split; [| split].
  - apply NoDup_fmap_2; [| done]. intros ? ? [=]. done.
  - intros t Ht Ht'. apply list_elem_of_fmap in Ht as (t1 & -> & _).
    apply list_elem_of_bind in Ht' as (j & Ht' & Hj).
    apply list_elem_of_fmap in Ht' as (t2 & [= -> ->] & _). done.
  - apply IHd.
Qed.

Section Run.
Context {R : Type} `{Ring R} `{SetListing}.

(** A generator run to its end yields, among all the tuples in
    lexicographic order, those that pass the test. *)
Lemma run_generator_spec (keep : list Z → bool) (c : Components R) :
  (1 ≤ nid c)%nat →
  run_generator (generator_fuel c) keep c
  = Ok (List.filter keep (all_indices (sindex c) (dim c) (nid c))).
Proof.
  intros Hn. unfold run_generator, generator_fuel.
  destruct (nid c) as [| n] eqn:Hnid; [lia |]. cbn [replicate].
  destruct (dim c) as [| d] eqn:Hdim.
  - replace (Z.of_nat 0 - 1 + sindex c + 1) with (sindex c) by lia.
    cbn [all_indices]. rewrite seqZ_nil by lia. simpl.
    by rewrite bool_decide_eq_true_2.
  - pose proof (all_indices_head (sindex c) (S d) (S n) ltac:(lia)) as Hhd.
    pose proof (all_indices_steps (sindex c) (Z.of_nat (S d) - 1 + sindex c)
                  (S d) n 0 ltac:(lia) eq_refl) as Hst.
    pose proof (all_indices_length (sindex c) (S d) (S n)) as Hlen.
    pose proof (all_indices_elem (sindex c) (S d) (S n)) as Hel.
    destruct (all_indices (sindex c) (S d) (S n)) as [| x l]; [done |].
    simpl in Hhd. injection Hhd as ->.
    apply generator_loop_steps; [done | | lia].
    intros Hin. apply Hel in Hin as [_ Hall].
    inversion Hall as [| ? ? Hi _]; subst. simpl in Hi. lia.
Qed.

Lemma index_generator_spec (c : Components R) :
  (1 ≤ nid c)%nat →
  index_generator c = Ok (all_indices (sindex c) (dim c) (nid c)).
Proof.
  intros Hn. unfold index_generator. rewrite run_generator_spec by done.
  f_equal. induction (all_indices _ _ _) as [| x l IH]; [done |]. simpl. by f_equal.
Qed.

End Run.

Lemma binom_0_r (n : nat) : binom n 0 = 1%nat.
Proof. by destruct n. Qed.

Lemma binom_small (n k : nat) : (n < k)%nat → binom n k = 0%nat.
Proof.
  revert k. induction n as [| n IH]; intros [| k] Hlt; try lia; [done |].
  simpl. rewrite !IH by lia. done.
Qed.

Lemma binom_succ (n k : nat) : binom (S n) (S k) = (binom n k + binom n (S k))%nat.
Proof. done. Qed.

Lemma length_filter_bind_cons (P : list Z → bool) (ds : list Z) (L : list (list Z)) :
  length (List.filter P (i ← ds; cons i <$> L))
  = sum_list_with (λ i, length (List.filter (λ t, P (i :: t)) L)) ds.
Proof.
  induction ds as [| i ds IH]; [done |].
  rewrite bind_cons, List.filter_app, length_app, IH.
  cbn [sum_list_with]. f_equal.
  clear IH. induction L as [| t L IHL]; [done |].
  rewrite fmap_cons. cbn [List.filter].
  destruct (P (i :: t)); cbn [length]; by rewrite IHL.
Qed.

Lemma sum_list_with_ext_in {A} (f g : A → nat) (l : list A) :
  (∀ x, x ∈ l → f x = g x) → sum_list_with f l = sum_list_with g l.
Proof.
  induction l as [| x l IH]; intros Hfg; [done |].
  simpl. rewrite Hfg by (by left). rewrite IH; [done |].
  intros y Hy. apply Hfg. by right.
Qed.

Lemma filter_false {A} (l : list A) : List.filter (λ _, false) l = [].
Proof. by induction l. Qed.

Lemma filter_ext_elem {A} (P Q : A → bool) (l : list A) :
  (∀ x, x ∈ l → P x = Q x) → List.filter P l = List.filter Q l.
Proof.
  induction l as [| x l IH]; intros HPQ; [done |].
  simpl. rewrite HPQ by (by left). rewrite IH; [done |].
  intros y Hy. apply HPQ. by right.
Qed.

Lemma chain_ok_cons2 (strict : bool) (a b : Z) (t : list Z) :
  chain_ok strict (a :: b :: t)
  = negb (if strict then b <=? a else b <? a) && chain_ok strict (b :: t).
Proof. done. Qed.

Lemma sum_nondecreasing (hi b : Z) (n d : nat) :
  sum_list_with (λ j, if b <=? j then binom (Z.to_nat (hi - j) + n - 1) n else 0%nat)
    (seqZ (hi - Z.of_nat d) (Z.of_nat d))
  = binom (Z.to_nat (Z.min (Z.of_nat d) (hi - b)) + n) (S n).
Proof.
  induction d as [| e IH].
  - rewrite seqZ_nil by lia.
    replace (Z.to_nat (Z.min (Z.of_nat 0) (hi - b))) with 0%nat by lia.
    simpl. symmetry. apply binom_small. lia.
  - rewrite seqZ_cons by lia.
    replace (Z.succ (hi - Z.of_nat (S e))) with (hi - Z.of_nat e) by lia.
    replace (Z.pred (Z.of_nat (S e))) with (Z.of_nat e) by lia.
    cbn [sum_list_with]. rewrite IH.
    destruct (Z.leb_spec b (hi - Z.of_nat (S e))) as [Hle | Hgt].
    + replace (Z.to_nat (hi - (hi - Z.of_nat (S e))) + n - 1)%nat with (e + n)%nat by lia.
      replace (Z.to_nat (Z.min (Z.of_nat e) (hi - b))) with e by lia.
      replace (Z.to_nat (Z.min (Z.of_nat (S e)) (hi - b))) with (S e) by lia.
      done.
    + replace (Z.min (Z.of_nat (S e)) (hi - b)) with (Z.min (Z.of_nat e) (hi - b)) by lia.
      done.
Qed.

Lemma sum_increasing (hi b : Z) (n d : nat) :
  sum_list_with (λ j, if b <? j then binom (Z.to_nat (hi - j - 1)) n else 0%nat)
    (seqZ (hi - Z.of_nat d) (Z.of_nat d))
  = binom (Z.to_nat (Z.min (Z.of_nat d) (hi - b - 1))) (S n).
Proof.
  induction d as [| e IH].
  - rewrite seqZ_nil by lia.
    replace (Z.to_nat (Z.min (Z.of_nat 0) (hi - b - 1))) with 0%nat by lia. done.
  - rewrite seqZ_cons by lia.
    replace (Z.succ (hi - Z.of_nat (S e))) with (hi - Z.of_nat e) by lia.
    replace (Z.pred (Z.of_nat (S e))) with (Z.of_nat e) by lia.
    cbn [sum_list_with]. rewrite IH.
    destruct (Z.ltb_spec b (hi - Z.of_nat (S e))) as [Hlt | Hge].
    + replace (Z.to_nat (hi - (hi - Z.of_nat (S e)) - 1)) with e by lia.
      replace (Z.to_nat (Z.min (Z.of_nat e) (hi - b - 1))) with e by lia.
      replace (Z.to_nat (Z.min (Z.of_nat (S e)) (hi - b - 1))) with (S e) by lia.
      done.
    + replace (Z.min (Z.of_nat (S e)) (hi - b - 1)) with (Z.min (Z.of_nat e) (hi - b - 1)) by lia.
      done.
Qed.

Lemma count_nondecreasing_from (lo : Z) (d n : nat) (b : Z) :
  length (List.filter (λ t, chain_ok false (b :: t)) (all_indices lo d n))
  = binom (Z.to_nat (Z.min (Z.of_nat d) (lo + Z.of_nat d - b)) + n - 1) n.
Proof.
  revert b. induction n as [| n IH]; intros b.
  - simpl. by rewrite binom_0_r.
  - cbn [all_indices]. rewrite length_filter_bind_cons.
    rewrite (sum_list_with_ext_in _
      (λ j, if b <=? j then binom (Z.to_nat (lo + Z.of_nat d - j) + n - 1) n else 0%nat)).
    + pose proof (sum_nondecreasing (lo + Z.of_nat d) b n d) as Hs.
      replace (lo + Z.of_nat d - Z.of_nat d) with lo in Hs by lia.
      rewrite Hs. f_equal. lia.
    + intros j Hj. apply elem_of_seqZ in Hj.
      destruct (Z.leb_spec b j) as [Hle | Hgt].
      * rewrite (filter_ext_elem _ (λ t, chain_ok false (j :: t))).
        -- rewrite (IH j). f_equal. lia.
        -- intros t _. rewrite chain_ok_cons2.
           replace (j <? b) with false by lia. done.
      * rewrite (filter_ext_elem _ (λ _, false)); [by rewrite filter_false |].
        intros t _. rewrite chain_ok_cons2.
        replace (j <? b) with true by lia. done.
Qed.

Lemma count_increasing_from (lo : Z) (d n : nat) (b : Z) :
  length (List.filter (λ t, chain_ok true (b :: t)) (all_indices lo d n))
  = binom (Z.to_nat (Z.min (Z.of_nat d) (lo + Z.of_nat d - b - 1))) n.
Proof.
  revert b. induction n as [| n IH]; intros b.
  - simpl. by rewrite binom_0_r.
  - cbn [all_indices]. rewrite length_filter_bind_cons.
    rewrite (sum_list_with_ext_in _
      (λ j, if b <? j then binom (Z.to_nat (lo + Z.of_nat d - j - 1)) n else 0%nat)).
    + pose proof (sum_increasing (lo + Z.of_nat d) b n d) as Hs.
      replace (lo + Z.of_nat d - Z.of_nat d) with lo in Hs by lia.
      rewrite Hs. done.
    + intros j Hj. apply elem_of_seqZ in Hj.
      destruct (Z.ltb_spec b j) as [Hlt | Hge].
      * rewrite (filter_ext_elem _ (λ t, chain_ok true (j :: t))).
        -- rewrite (IH j). f_equal. lia.
        -- intros t _. rewrite chain_ok_cons2.
           replace (j <=? b) with false by lia. done.
      * rewrite (filter_ext_elem _ (λ _, false)); [by rewrite filter_false |].
        intros t _. rewrite chain_ok_cons2.
        replace (j <=? b) with true by lia. done.
Qed.

Lemma count_nondecreasing (lo : Z) (d n : nat) :
  length (List.filter (chain_ok false) (all_indices lo d n)) = binom (d + n - 1) n.
Proof.
  rewrite (filter_ext_elem _ (λ t, chain_ok false (lo :: t))).
  - rewrite count_nondecreasing_from. f_equal. lia.
  - intros t Ht. apply all_indices_elem in Ht as [_ Hall].
    destruct t as [| j t]; [done |]. inversion Hall; subst.
    cbn [chain_ok]. replace (j <? lo) with false by lia. done.
Qed.

Lemma count_increasing (lo : Z) (d n : nat) :
  length (List.filter (chain_ok true) (all_indices lo d n)) = binom d n.
Proof.
  rewrite (filter_ext_elem _ (λ t, chain_ok true ((lo - 1) :: t))).
  - rewrite count_increasing_from. f_equal. lia.
  - intros t Ht. apply all_indices_elem in Ht as [_ Hall].
    destruct t as [| j t]; [done |]. inversion Hall; subst.
    cbn [chain_ok]. replace (j <=? lo - 1) with false by lia. done.
Qed.

Lemma forallb_ext_elem {A} (f g : A → bool) (l : list A) :
  (∀ x, x ∈ l → f x = g x) → forallb f l = forallb g l.
Proof.
  induction l as [| x l IH]; intros Hfg; [done |].
  simpl. rewrite Hfg by (by left). rewrite IH; [done |].
  intros y Hy. apply Hfg. by right.
Qed.

Lemma forallb_fmap {A B} (f : B → bool) (h : A → B) (l : list A) :
  forallb f (h <$> l) = forallb (λ x, f (h x)) l.
Proof. induction l as [| x l IH]; [done |]. rewrite fmap_cons. simpl. by rewrite IH. Qed.

Lemma consecutive_chain_ok (strict : bool) (t : list Z) :
  forallb (λ k, negb (if strict then t !!! S k <=? t !!! k else t !!! S k <? t !!! k))
    (seq 0 (length t - 1))
  = chain_ok strict t.
Proof.
  induction t as [| a t IH]; [done |].
  destruct t as [| b t]; [done |].
  rewrite chain_ok_cons2, <- IH.
  replace (length (a :: b :: t) - 1)%nat with (S (length (b :: t) - 1)) by (simpl; lia).
  cbn [seq forallb]. f_equal.
  rewrite <- fmap_S_seq, forallb_fmap. done.
Qed.

Lemma group_ordered_seq (strict : bool) (t : list Z) :
  group_ordered strict t (seq 0 (length t)) = chain_ok strict t.
Proof.
  rewrite <- consecutive_chain_ok. unfold group_ordered. rewrite length_seq.
  apply forallb_ext_elem. intros k Hk. apply elem_of_seq in Hk.
  rewrite !lookup_total_seq_lt by lia. done.
Qed.

Lemma seqZ_sorted (m : Z) (k : nat) : StronglySorted Z.lt (seqZ m (Z.of_nat k)).
Proof.
  revert m. induction k as [| k IH]; intros m.
  - rewrite seqZ_nil by lia. constructor.
  - rewrite seqZ_cons by lia.
    replace (Z.pred (Z.of_nat (S k))) with (Z.of_nat k) by lia.
    constructor; [apply IH |].
    apply Forall_forall. intros j Hj. apply elem_of_seqZ in Hj. lia.
Qed.

Lemma all_indices_sorted (si : Z) (d n : nat) :
  StronglySorted lex_lt (all_indices si d n).
Proof.
  induction n as [| n IH]; [repeat constructor |].
  cbn [all_indices].
  generalize (seqZ si (Z.of_nat d)) (seqZ_sorted si d). intros ds Hds.
  induction Hds as [| i ds Hds IHd Hi]; [constructor |].
  rewrite bind_cons. apply StronglySorted_app_2.
  - intros x1 x2 Hx1 Hx2.
    apply list_elem_of_fmap in Hx1 as (t1 & -> & _).
    apply list_elem_of_bind in Hx2 as (j & Hx2 & Hj).
    apply list_elem_of_fmap in Hx2 as (t2 & -> & _).
    rewrite Forall_forall in Hi. left. by apply Hi.
  - apply (StronglySorted_fmap _ lex_lt); [| done].
    intros x y Hxy. right. done.
  - apply IHd.
Qed.

Section Counts.
Context {R : Type} `{Ring R} `{SetListing}.

Lemma is_ordered_fully_sym (c : Components R) (t : list Z) :
  sym c = [seq 0 (nid c)] → antisym c = [] → length t = nid c →
  is_ordered c t = chain_ok false t.
Proof.
  intros Hs Ha Hl. unfold is_ordered. rewrite Hs, Ha. simpl.
  rewrite <- Hl, group_ordered_seq. by rewrite !andb_true_r.
Qed.

Lemma is_ordered_fully_antisym (c : Components R) (t : list Z) :
  sym c = [] → antisym c = [seq 0 (nid c)] → length t = nid c →
  is_ordered c t = chain_ok true t.
Proof.
  intros Hs Ha Hl. unfold is_ordered. rewrite Hs, Ha. simpl.
  rewrite <- Hl, group_ordered_seq. by rewrite !andb_true_r.
Qed.

(** With no index the list [ind_end] is empty and [ind_end[0] = imax+1]
    raises: neither generator yields a tuple. *)
Lemma generators_no_index (c : Components R) :
  nid c = 0%nat →
  index_generator c = Raise IndexError
  ∧ non_redundant_index_generator c = Raise IndexError.
Proof.
  intros Hn.
  unfold non_redundant_index_generator, CompWithSym_non_redundant_index_generator,
    index_generator, run_generator.
  rewrite Hn. by destruct (klass_of c).
Qed.

(** C9: in a well-formed store with one index at least, the full
    generator yields all the tuples over the index range in lexicographic
    order, [dim ^ nid] of them; the non-redundant generator of a fully
    symmetric store yields C(dim + nid - 1, nid) tuples, and that of a
    fully antisymmetric store C(dim, nid) tuples, none when [nid > dim].
    In a store with no index, where one tuple, the empty one, is expected,
    both generators raise [IndexError] before they yield. *)
Theorem index_generation_counts (c : Components R) :
  well_formed c →
  ((1 ≤ nid c)%nat →
     (index_generator c = Ok (all_indices (sindex c) (dim c) (nid c))
      ∧ StronglySorted lex_lt (all_indices (sindex c) (dim c) (nid c))
      ∧ length (all_indices (sindex c) (dim c) (nid c)) = (dim c ^ nid c)%nat)
     ∧ (klass_of c = cCompFullySym →
        ∃ l, non_redundant_index_generator c = Ok l
          ∧ length l = binom (dim c + nid c - 1) (nid c))
     ∧ (klass_of c = cCompFullyAntiSym →
        ∃ l, non_redundant_index_generator c = Ok l
          ∧ length l = binom (dim c) (nid c)
          ∧ ((dim c < nid c)%nat → l = [])))
  ∧ (nid c = 0%nat →
       (dim c ^ nid c)%nat = 1%nat
       ∧ index_generator c = Raise IndexError
       ∧ non_redundant_index_generator c = Raise IndexError).
Proof.
  intros Hwf. split; [| intros Hn0; split;
    [by rewrite Hn0 | by apply generators_no_index]].
  revert Hwf.
  intros (_ & Hcls & _) Hn. unfold class_spec in Hcls.
  split; [| split].
  - split; [by apply index_generator_spec |].
    split; [apply all_indices_sorted | apply all_indices_length].
  - intros Hk. rewrite Hk in Hcls. destruct Hcls as [Hs Ha].
    rewrite bool_decide_eq_false_2 in Hs by lia.
    unfold non_redundant_index_generator, CompWithSym_non_redundant_index_generator.
    rewrite Hk, run_generator_spec by done.
    eexists. split; [done |].
    rewrite (filter_ext_elem _ (chain_ok false)); [apply count_nondecreasing |].
    intros t Ht. apply all_indices_elem in Ht as [Hl _].
    by apply is_ordered_fully_sym.
  - intros Hk. rewrite Hk in Hcls. destruct Hcls as [Hs Ha].
    rewrite bool_decide_eq_false_2 in Ha by lia.
    unfold non_redundant_index_generator, CompWithSym_non_redundant_index_generator.
    rewrite Hk, run_generator_spec by done.
    assert (Hlen : length (List.filter (is_ordered c)
                     (all_indices (sindex c) (dim c) (nid c))) = binom (dim c) (nid c)).
    { rewrite (filter_ext_elem _ (chain_ok true)); [apply count_increasing |].
      intros t Ht. apply all_indices_elem in Ht as [Hl _].
      by apply is_ordered_fully_antisym. }
    eexists. split; [done |]. split; [done |].
    intros Hlt. rewrite binom_small in Hlen by done.
    by apply length_zero_iff_nil.
Qed.

End Counts.

Lemma index_generation_counts_witness :
  ((index_generator antisym_pair = Ok (all_indices 0 3 2)
    ∧ StronglySorted lex_lt (all_indices 0 3 2)
    ∧ length (all_indices 0 3 2) = (3 ^ 2)%nat)
   ∧ (∃ l, non_redundant_index_generator fully_sym_pair = Ok l
        ∧ length l = binom (3 + 2 - 1) 2)
   ∧ (∃ l, non_redundant_index_generator fully_antisym_pair = Ok l
        ∧ length l = binom 3 2
        ∧ ((3 < 2)%nat → l = [])))
  ∧ ((3 ^ 0)%nat = 1%nat
     ∧ index_generator (Components_init (R:=Z) frame3 0 0 None) = Raise IndexError
     ∧ non_redundant_index_generator (Components_init (R:=Z) frame3 0 0 None)
       = Raise IndexError).
Proof.
  split; [split; [| split] |].
  - refine (proj1 (proj1 (index_generation_counts (R:=Z) antisym_pair _) _)).
    + repeat split; reflexivity.
    + simpl. lia.
  - refine (proj1 (proj2 (proj1 (index_generation_counts (R:=Z) fully_sym_pair _) _)) _).
    + repeat split; reflexivity.
    + simpl. lia.
    + reflexivity.
  - refine (proj2 (proj2 (proj1 (index_generation_counts (R:=Z) fully_antisym_pair _) _))
              _).
    + repeat split; reflexivity.
    + simpl. lia.
    + reflexivity.
  - refine (proj2 (index_generation_counts (R:=Z) (Components_init frame3 0 0 None) _) _).
    + repeat split; reflexivity.
    + reflexivity.
Defined.

(** A store with no index has one component, under the empty tuple, and
    [dim ^ 0 = 1] tuple is expected: the generator raises [IndexError]
    and yields none. *)
Lemma index_generator_no_index :
  nid (Components_init (R:=Z) frame3 0 0 None) = 0%nat
  ∧ (∃ c, setitem (Components_init (R:=Z) frame3 0 0 None) [] (VInt 5) = Ok c
       ∧ getitem c [] = Ok 5)
  ∧ index_generator (Components_init (R:=Z) frame3 0 0 None) = Raise IndexError
  ∧ ¬ ∃ l, index_generator (Components_init (R:=Z) frame3 0 0 None) = Ok l
        ∧ length l = (3 ^ 0)%nat.
Proof.
  split; [reflexivity |].
  split; [eexists; split; vm_compute; reflexivity |].
  split; [reflexivity |].
  intros (l & Hl & _). discriminate Hl.
Qed.

(** ** Canonical tuples are their own canonical form *)

Lemma list_insert_total_id (l : list Z) (i : nat) : <[i := l !!! i]> l = l.
Proof.
  destruct (decide (i < length l)%nat) as [Hlt | Hge].
  - apply list_insert_id. by apply list_lookup_lookup_total_lt.
  - apply list_insert_ge. lia.
Qed.

Lemma scatter_gather (ind : list Z) (isym : list nat) :
  scatter ind isym (gather ind isym) = ind.
Proof.
  unfold gather. induction isym as [| pos isym IH]; [done |].
  rewrite fmap_cons. cbn [scatter]. by rewrite list_insert_total_id.
Qed.

Lemma group_ordered_chain_ok (strict : bool) (ind : list Z) (isym : list nat) :
  group_ordered strict ind isym = chain_ok strict (gather ind isym).
Proof.
  rewrite <- consecutive_chain_ok. unfold group_ordered, gather.
  rewrite length_fmap. apply forallb_ext_elem. intros k Hk.
  apply elem_of_seq in Hk.
  rewrite !(list_lookup_total_fmap (λ pos, ind !!! pos)) by lia. done.
Qed.

Lemma chain_ok_Sorted_le (strict : bool) (t : list Z) :
  chain_ok strict t = true → Sorted Z.le t.
Proof.
  induction t as [| a t IH]; [constructor |].
  destruct t as [| b t]; [repeat constructor |].
  rewrite chain_ok_cons2. intros [Hab Ht]%andb_true_iff.
  constructor; [by apply IH |]. constructor.
  destruct strict; apply negb_true_iff in Hab; lia.
Qed.

Lemma chain_ok_NoDup (t : list Z) : chain_ok true t = true → NoDup t.
Proof.
  intros Hc. assert (Hs : StronglySorted Z.lt t).
  { apply Sorted_StronglySorted; [apply _ |].
    induction t as [| a t IH]; [constructor |].
    destruct t as [| b t]; [repeat constructor |].
    rewrite chain_ok_cons2 in Hc. apply andb_true_iff in Hc as [Hab Ht].
    constructor; [by apply IH |]. constructor.
    apply negb_true_iff in Hab. lia. }
  clear Hc. induction Hs as [| a t Hs IH Ha]; [constructor |].
  constructor; [| done]. intros Hin.
  rewrite Forall_forall in Ha. specialize (Ha a Hin). lia.
Qed.

Lemma sorted_Sorted (t : list Z) : Sorted Z.le t → sorted t = t.
Proof.
  intros Hs. unfold sorted. apply (Sorted_unique Z.le); [| done |].
  - apply Sorted_merge_sort. apply _.
  - apply merge_sort_Permutation.
Qed.

Lemma sym_pass_ordered (ind : list Z) (groups : list (list nat)) :
  forallb (group_ordered false ind) groups = true → sym_pass ind groups = ind.
Proof.
  unfold sym_pass. induction groups as [| g groups IH]; [done |].
  simpl. intros [Hg Hgs]%andb_true_iff.
  rewrite group_ordered_chain_ok in Hg.
  rewrite (sorted_Sorted _ (chain_ok_Sorted_le _ _ Hg)), scatter_gather.
  by apply IH.
Qed.

Lemma antisym_pass_ordered (sign : Z) (ind : list Z) (groups : list (list nat)) :
  forallb (group_ordered true ind) groups = true →
  antisym_pass sign ind groups = (sign, Some ind).
Proof.
  induction groups as [| g groups IH]; [done |].
  simpl. intros [Hg Hgs]%andb_true_iff.
  rewrite group_ordered_chain_ok in Hg.
  replace (has_repeat (gather ind g)) with false
    by (symmetry; apply has_repeat_false; by apply chain_ok_NoDup).
  rewrite (sorted_Sorted _ (chain_ok_Sorted_le _ _ Hg)), scatter_gather.
  rewrite bool_decide_eq_false_2 by (intros Hf; by apply Hf).
  by apply IH.
Qed.

Section Canonical.
Context {R : Type} `{Ring R} `{SetListing}.

Lemma _ordered_indices_canonical (c : Components R) (ind : list Z) :
  _check_indices c ind = Ok ind → is_ordered c ind = true →
  _ordered_indices c ind = Ok (1, Some ind).
Proof.
  intros Hc [Hs Ha]%andb_true_iff. unfold _ordered_indices. rewrite Hc. simpl.
  rewrite sym_pass_ordered by done. by rewrite antisym_pass_ordered.
Qed.

End Canonical.

(** ** The groups common to two specifications *)

Section CommonGroups.
Context `{SetListing}.

Lemma elem_of_common (isym osym : list nat) (x : nat) :
  x ∈ common isym osym ↔ x ∈ isym ∧ x ∈ osym.
Proof.
  unfold common. rewrite elem_of_tuple_of_set, elem_of_intersection.
  by rewrite !elem_of_list_to_set.
Qed.

Lemma NoDup_common (isym osym : list nat) : NoDup (common isym osym).
Proof. apply tuple_of_set_NoDup. Qed.

(** The common groups are the intersections, of two positions at least, of
    a group of the first list with a group of the second. *)
Lemma elem_of_common_groups (ss os : list (list nat)) (g : list nat) :
  g ∈ common_groups ss os ↔
  ∃ isym osym, isym ∈ ss ∧ osym ∈ os ∧ g = common isym osym ∧ (2 ≤ length g)%nat.
Proof.
  unfold common_groups. rewrite list_elem_of_bind. split.
  - intros (isym & Hg & Hi). apply list_elem_of_bind in Hg as (osym & Hg & Ho).
    case_bool_decide as Hlen; [| by apply elem_of_nil in Hg].
    apply list_elem_of_singleton in Hg as ->.
    exists isym, osym. repeat split; try done; lia.
  - intros (isym & osym & Hi & Ho & -> & Hlen).
    exists isym. split; [| done]. apply list_elem_of_bind.
    exists osym. split; [| done].
    rewrite bool_decide_eq_true_2 by lia. by apply list_elem_of_singleton.
Qed.

Lemma elem_of_concat_common_groups (ss os : list (list nat)) (x : nat) :
  x ∈ concat (common_groups ss os) → x ∈ concat ss ∧ x ∈ concat os.
Proof.
  intros (g & Hx & Hg)%elem_of_concat.
  apply elem_of_common_groups in Hg as (isym & osym & Hi & Ho & -> & _).
  apply elem_of_common in Hx as [Hxi Hxo].
  split; apply elem_of_concat; eauto.
Qed.

Lemma NoDup_concat_common_groups (ss os : list (list nat)) :
  NoDup (concat ss) → NoDup (concat os) → NoDup (concat (common_groups ss os)).
Proof.
  intros Hss Hos. induction ss as [| isym ss IH]; [constructor |].
  simpl in Hss. apply NoDup_app in Hss as (_ & Hdisj & Hss).
  unfold common_groups. rewrite bind_cons, concat_app.
  apply NoDup_app. split; [| split].
  - clear IH Hdisj Hss. induction os as [| osym os IHo]; [constructor |].
    simpl in Hos. apply NoDup_app in Hos as (_ & Hdo & Hos).
    rewrite bind_cons, concat_app. apply NoDup_app. split; [| split].
    + case_bool_decide; simpl; [| constructor].
      rewrite app_nil_r. apply NoDup_common.
    + intros x Hx Hx'. case_bool_decide; simpl in Hx; [| by apply elem_of_nil in Hx].
      rewrite app_nil_r in Hx. apply elem_of_common in Hx as [_ Hxo].
      apply (Hdo x Hxo).
      apply elem_of_concat in Hx' as (g & Hxg & Hg).
      apply list_elem_of_bind in Hg as (osym' & Hg & Ho').
      case_bool_decide; [| by apply elem_of_nil in Hg].
      apply list_elem_of_singleton in Hg as ->.
      apply elem_of_common in Hxg as [_ Hxo'].
      apply elem_of_concat. eauto.
    + by apply IHo.
  - intros x Hx Hx'.
    apply elem_of_concat in Hx as (g & Hxg & Hg).
    apply list_elem_of_bind in Hg as (osym & Hg & Ho).
    case_bool_decide; [| by apply elem_of_nil in Hg].
    apply list_elem_of_singleton in Hg as ->.
    apply elem_of_common in Hxg as [Hxi _].
    apply (Hdisj x Hxi).
    by apply (elem_of_concat_common_groups ss os).
  - by apply IH.
Qed.

Lemma common_groups_valid (nb : nat) (s1 a1 s2 a2 : list (list nat)) :
  Forall (λ g, (2 ≤ length g)%nat ∧ Forall (λ p, (p < nb)%nat) g) s1 →
  Forall (λ g, (2 ≤ length g)%nat ∧ Forall (λ p, (p < nb)%nat) g) a1 →
  NoDup (concat s1 ++ concat a1) →
  NoDup (concat s2 ++ concat a2) →
  check_groups nb (common_groups s1 s2) = Ok (common_groups s1 s2)
  ∧ check_groups nb (common_groups a1 a2) = Ok (common_groups a1 a2)
  ∧ has_repeat (concat (common_groups s1 s2) ++ concat (common_groups a1 a2)) = false.
Proof.
  intros Hs1 Ha1 Hnd1 Hnd2.
  assert (Hin : ∀ ss os, Forall (λ g, (2 ≤ length g)%nat ∧ Forall (λ p, (p < nb)%nat) g) ss →
            check_groups nb (common_groups ss os) = Ok (common_groups ss os)).
  { intros ss os Hss. apply check_groups_intro. apply Forall_forall. intros g Hg.
    apply elem_of_common_groups in Hg as (isym & osym & Hi & Ho & -> & Hlen).
    split; [done |]. apply Forall_forall. intros p Hp.
    apply elem_of_common in Hp as [Hpi _].
    rewrite Forall_forall in Hss. destruct (Hss isym Hi) as [_ Hlt].
    rewrite Forall_forall in Hlt. by apply Hlt. }
  split; [by apply Hin |]. split; [by apply Hin |].
  apply has_repeat_false.
  apply NoDup_app in Hnd1 as (Hn1 & Hd1 & Hn1').
  apply NoDup_app in Hnd2 as (Hn2 & _ & Hn2').
  apply NoDup_app. split; [| split].
  - by apply NoDup_concat_common_groups.
  - intros x Hx Hx'. apply elem_of_concat_common_groups in Hx as [Hx _].
    apply elem_of_concat_common_groups in Hx' as [Hx' _]. by apply (Hd1 x).
  - by apply NoDup_concat_common_groups.
Qed.

End CommonGroups.

(** ** Writing and reading at canonical tuples *)

Section Fill.
Context {R : Type} `{Ring R} `{SetListing}.

Lemma set_comp_id (c : Components R) : set_comp c (_comp c) = c.
Proof. by destruct c. Qed.

Lemma upd_lookup_eq (m : gmap (list Z) R) k v :
  upd m k v !! k = if is0 v then None else Some v.
Proof.
  unfold upd. destruct (is0 v); [apply lookup_delete_eq | apply lookup_insert_eq].
Qed.

Lemma upd_lookup_ne (m : gmap (list Z) R) k k' v :
  k ≠ k' → upd m k v !! k' = m !! k'.
Proof.
  intros Hne. unfold upd.
  destruct (is0 v); [by apply lookup_delete_ne | by apply lookup_insert_ne].
Qed.

Lemma is_ordered_shape (c c' : Components R) ind :
  same_shape c c' → is_ordered c' ind = is_ordered c ind.
Proof.
  intros (_ & _ & _ & _ & _ & _ & Hs & Ha). unfold is_ordered. by rewrite Hs, Ha.
Qed.

Lemma setitem_canonical (r : Components R) (ind : list Z) (v : R) :
  _check_indices r ind = Ok ind → is_ordered r ind = true →
  ∃ r', setitem r ind (VRing v) = Ok r' ∧ same_shape r r'
    ∧ _comp r' = upd (_comp r) ind v.
Proof.
  intros Hc Ho. pose proof (_ordered_indices_canonical r ind Hc Ho) as Hoi.
  assert (Hgoal : ∀ x, x = (if is0 v then
                          match _comp r !! ind with
                          | Some _ => Ok (set_comp r (delete ind (_comp r)))
                          | None => Ok r
                          end
                        else Ok (set_comp r (<[ind := v]> (_comp r)))) →
            ∃ r', x = Ok r' ∧ same_shape r r' ∧ _comp r' = upd (_comp r) ind v).
  { intros x ->. unfold upd. destruct (is0 v).
    - destruct (_comp r !! ind) eqn:Hl; eexists; (split; [done |]).
      + split; [apply same_shape_set_comp | done].
      + split; [apply same_shape_refl |]. by rewrite delete_id.
    - eexists. split; [done |]. split; [apply same_shape_set_comp | done]. }
  apply Hgoal.
  unfold setitem, Components_setitem, CompWithSym_setitem, CompFullySym_setitem.
  cbn [value_is0 ring_of].
  destruct (klass_of r); rewrite ?Hc, ?Hoi; simpl;
    destruct (is0 v); try done;
    unfold key_in; destruct (_comp r !! ind); simpl; try done;
    by rewrite bool_decide_eq_false_2 by (by intros [? ?]).
Qed.

Lemma getitem_canonical (r : Components R) (ind : list Z) :
  _check_indices r ind = Ok ind → is_ordered r ind = true →
  getitem r ind = Ok (default zero_element (_comp r !! ind)).
Proof.
  intros Hc Ho. pose proof (_ordered_indices_canonical r ind Hc Ho) as Hoi.
  unfold getitem, Components_getitem, CompWithSym_getitem, CompFullySym_getitem.
  destruct (klass_of r); rewrite ?Hc, ?Hoi; simpl;
    destruct (_comp r !! ind) eqn:Hl; simpl; try done;
    by rewrite bool_decide_eq_false_2 by (by intros [? ?]).
Qed.

Lemma getitem_in_range (c : Components R) (ind : list Z) :
  _check_indices c ind = Ok ind → getitem c ind = Ok (getv c ind).
Proof.
  intros Hc. unfold getv.
  assert (Hex : ∃ v, getitem c ind = Ok v); [| by destruct Hex as [v ->]].
  unfold getitem, Components_getitem, CompWithSym_getitem, CompFullySym_getitem,
    _ordered_indices.
  destruct (klass_of c); rewrite Hc; simpl.
  - destruct (_comp c !! ind); eauto.
  - destruct (antisym_pass _ _ _) as [s k]. repeat case_match; eauto.
  - destruct (antisym_pass _ _ _) as [s k]. repeat case_match; eauto.
  - destruct (antisym_pass _ _ _) as [s k]. repeat case_match; eauto.
Qed.

(** The loop of [fill_sum] over a list of canonical tuples. *)
Lemma fill_fold (self other : Components R) (inds : list (list Z)) (r : Components R) :
  (∀ ind, ind ∈ inds →
     _check_indices r ind = Ok ind ∧ is_ordered r ind = true
     ∧ _check_indices self ind = Ok ind ∧ _check_indices other ind = Ok ind) →
  ∃ r', foldM (λ r ind,
            a ← getitem self ind;
            b ← getitem other ind;
            setitem r ind (VRing (radd a b))) inds r = Ok r'
    ∧ same_shape r r'
    ∧ _comp r' = foldl (λ m ind, upd m ind (radd (getv self ind) (getv other ind)))
                   (_comp r) inds.
Proof.
  revert r. induction inds as [| ind inds IH]; intros r Hall.
  - exists r. split; [done |]. split; [apply same_shape_refl | done].
  - destruct (Hall ind) as (Hc & Ho & Hcs & Hco); [by left |].
    cbn [foldM foldl].
    rewrite (getitem_in_range self ind Hcs), (getitem_in_range other ind Hco). simpl.
    destruct (setitem_canonical r ind (radd (getv self ind) (getv other ind)) Hc Ho)
      as (r1 & Hset & Hsh & Hcomp).
    rewrite Hset. simpl.
    destruct (IH r1) as (r' & Hf & Hsh' & Hcomp').
    { intros ind' Hin. destruct (Hall ind') as (Hc' & Ho' & Hrest); [by right |].
      rewrite (_check_indices_shape r r1), (is_ordered_shape r r1) by done. done. }
    exists r'. split; [done |]. split; [by eapply same_shape_trans |].
    by rewrite Hcomp', Hcomp.
Qed.

Lemma foldl_upd_notin (f : list Z → R) (inds : list (list Z)) (m : gmap (list Z) R) ind :
  ind ∉ inds → foldl (λ m ind, upd m ind (f ind)) m inds !! ind = m !! ind.
Proof.
  revert m. induction inds as [| k inds IH]; intros m Hnin; [done |].
  apply not_elem_of_cons in Hnin as [Hne Hnin].
  simpl. rewrite IH by done. by apply upd_lookup_ne.
Qed.

Lemma foldl_upd_in (f : list Z → R) (inds : list (list Z)) (m : gmap (list Z) R) ind :
  NoDup inds → ind ∈ inds →
  foldl (λ m ind, upd m ind (f ind)) m inds !! ind
  = if is0 (f ind) then None else Some (f ind).
Proof.
  revert m. induction inds as [| k inds IH]; intros m Hnd Hin.
  - by apply elem_of_nil in Hin.
  - apply NoDup_cons in Hnd as [Hk Hnd]. simpl.
    apply elem_of_cons in Hin as [-> | Hin].
    + rewrite foldl_upd_notin by done. apply upd_lookup_eq.
    + by apply IH.
Qed.

End Fill.

(** ** Addition of stores with different symmetries *)

Lemma same_groups_false (ss os : list (list nat)) :
  same_groups ss os = false → ∃ g, g ∈ ss ∨ g ∈ os.
Proof.
  unfold same_groups. intros Hf%bool_decide_eq_false.
  destruct ss as [| g ss]; [| exists g; left; by left].
  destruct os as [| g os]; [done | exists g; right; by left].
Qed.

Section Addition.
Context {R : Type} `{Ring R} `{SetListing}.

Lemma non_redundant_index_generator_spec (c : Components R) :
  class_spec c → (1 ≤ nid c)%nat →
  non_redundant_index_generator c
  = Ok (List.filter (is_ordered c) (all_indices (sindex c) (dim c) (nid c))).
Proof.
  intros Hcls Hn. unfold non_redundant_index_generator,
    CompWithSym_non_redundant_index_generator.
  unfold class_spec in Hcls.
  destruct (klass_of c); try by apply run_generator_spec.
  destruct Hcls as [Hs Ha]. rewrite index_generator_spec by done. f_equal.
  rewrite (filter_ext_elem _ (λ _, true)).
  - induction (all_indices _ _ _) as [| x l IH]; [done |]. simpl. by f_equal.
  - intros t _. unfold is_ordered. by rewrite Hs, Ha.
Qed.

Lemma CompWithSym_init_intro (fr : Frame) (nb : nat) (si : Z) (fmt : option nat)
    (s a : list (list nat)) :
  check_groups nb s = Ok s → check_groups nb a = Ok a →
  has_repeat (concat s ++ concat a) = false →
  CompWithSym_init (R:=R) fr nb si fmt (SymList s) (SymList a)
  = Ok (mkComponents cCompWithSym fr nb (frame_len fr) si fmt ∅ s a).
Proof.
  intros Hs Ha Hr. unfold CompWithSym_init, CompWithSym_init_as.
  cbn [groups_of_arg]. rewrite Hs, Ha. simpl. by rewrite Hr.
Qed.

(** The sum, once the result store [r0] is created: every canonical tuple
    of [r0] holds the sum of the two values. *)
Lemma fill_sum_spec (self other r0 : Components R) :
  class_spec r0 → (1 ≤ nid r0)%nat → _comp r0 = ∅ →
  nid self = nid r0 → dim self = dim r0 → sindex self = sindex r0 →
  nid other = nid r0 → dim other = dim r0 → sindex other = sindex r0 →
  ∃ r, fill_sum self other r0 = Ok r
    ∧ same_shape r0 r
    ∧ ∀ ind, _check_indices r ind = Ok ind → is_ordered r ind = true →
        getitem self ind = Ok (getv self ind)
        ∧ getitem other ind = Ok (getv other ind)
        ∧ getitem r ind = Ok (radd (getv self ind) (getv other ind)).
Proof.
  intros Hcls Hn He Hns Hds Hss Hno Hdo Hso.
  unfold fill_sum. rewrite non_redundant_index_generator_spec by done. simpl.
  set (inds := List.filter (is_ordered r0) (all_indices (sindex r0) (dim r0) (nid r0))).
  assert (Hinds : ∀ ind, ind ∈ inds ↔
            _check_indices r0 ind = Ok ind ∧ is_ordered r0 ind = true).
  { intros ind. unfold inds. rewrite list_elem_of_In, List.filter_In, <- list_elem_of_In.
    rewrite all_indices_elem. split.
    - intros [[Hl Hr] Ho]. split; [| done]. by apply _check_indices_intro.
    - intros [Hc Ho]. split; [| done].
      apply _check_indices_Ok in Hc as (_ & Hl & Hr). done. }
  assert (Hcheck : ∀ c : Components R,
            nid c = nid r0 → dim c = dim r0 → sindex c = sindex r0 →
            ∀ ind, _check_indices r0 ind = Ok ind → _check_indices c ind = Ok ind).
  { intros c Hn' Hd' Hs' ind Hc. unfold _check_indices in *.
    by rewrite Hn', Hd', Hs'. }
  destruct (fill_fold self other inds r0) as (r & Hf & Hsh & Hcomp).
  { intros ind Hin. apply Hinds in Hin as [Hc Ho].
    repeat split; try done; by apply Hcheck. }
  exists r. split; [done |]. split; [done |].
  intros ind Hc Ho.
  rewrite (_check_indices_shape r0 r) in Hc by done.
  rewrite (is_ordered_shape r0 r) in Ho by done.
  split; [apply getitem_in_range; by apply Hcheck |].
  split; [apply getitem_in_range; by apply Hcheck |].
  rewrite getitem_canonical;
    [| by rewrite (_check_indices_shape r0 r) | by rewrite (is_ordered_shape r0 r)].
  rewrite Hcomp, He. f_equal.
  rewrite (foldl_upd_in (λ ind, radd (getv self ind) (getv other ind)));
    [| unfold inds; apply NoDup_ListNoDup, List.NoDup_filter, NoDup_ListNoDup,
         all_indices_NoDup
     | apply Hinds; done].
  unfold is0. case_bool_decide as Hz; simpl; [by rewrite Hz | done].
Qed.

End Addition.

Section AdditionTheorem.
Context {R : Type} `{Ring R} `{SetListing}.

(** The sum of two stores whose symmetry specifications differ, when
    [other] is not zero: the groups of the sum are those that the two
    loops of [__add__] collect, and every canonical tuple of the sum
    holds the sum of the two values. *)
Lemma add_common_groups (self other : Components R) :
  well_formed self → well_formed other →
  isinstance_CompWithSym (klass_of self) = true →
  isinstance_CompWithSym (klass_of other) = true →
  frame other = frame self → nid other = nid self → sindex other = sindex self →
  same_groups (sym self) (sym other) && same_groups (antisym self) (antisym other) = false →
  is_zero other = false →
  ∃ r, add self (OComp other) = Ok r
    ∧ sym r = common_groups (sym self) (sym other)
    ∧ antisym r = common_groups (antisym self) (antisym other)
    ∧ klass_of r = (if bool_decide (sym r ≠ []) || bool_decide (antisym r ≠ [])
                    then cCompWithSym else cComponents)
    ∧ frame r = frame self ∧ nid r = nid self ∧ sindex r = sindex self
    ∧ ∀ ind, _check_indices r ind = Ok ind → is_ordered r ind = true →
        ∃ a b, getitem self ind = Ok a ∧ getitem other ind = Ok b
          ∧ getitem r ind = Ok (radd a b).
Proof.
  intros (Hvs & Hcs & Hds) (Hvo & Hco & Hdo) Hks Hko Hfr Hnid Hsi Hdiff Hnz.
  destruct (valid_spec_groups self Hvs) as (Hss & Has & Hnds).
  destruct (valid_spec_groups other Hvo) as (Hso & Hao & Hndo).
  (* a group exists, so there is an index *)
  assert (Hn : (1 ≤ nid self)%nat).
  { assert (Hg : ∃ g : list nat, (2 ≤ length g)%nat ∧ Forall (λ p, (p < nid self)%nat) g).
    { rewrite <- Hnid in *. rewrite Hnid in Hss, Has.
      rewrite Forall_forall in Hss, Has, Hso, Hao.
      apply andb_false_iff in Hdiff as [Hd | Hd];
        apply same_groups_false in Hd as [g [Hg | Hg]]; exists g; rewrite ?Hnid; auto.
      - rewrite <- Hnid. auto.
      - rewrite <- Hnid. auto. }
    destruct Hg as (g & Hlen & Hlt). destruct g as [| p g]; [simpl in Hlen; lia |].
    inversion Hlt; subst. lia. }
  (* the addition is the general one *)
  assert (Hadd : add self (OComp other) = CompWithSym_add self (OComp other)).
  { unfold add, sym_add, CompFully_add.
    destruct (klass_of self) eqn:Hk; try done; cbn [eq_zero]; rewrite Hnz;
      (destruct (decide (klass_of other = klass_of self)) as [Hk' | Hk'];
       rewrite Hk in Hk'; [| by rewrite bool_decide_eq_false_2]);
      exfalso; unfold class_spec in Hcs, Hco; rewrite Hk in Hcs; rewrite Hk' in Hco;
      destruct Hcs as [Hs1 Ha1], Hco as [Hs2 Ha2];
      rewrite Hs1, Hs2, Ha1, Ha2, ?Hnid in Hdiff;
      unfold same_groups in Hdiff; by rewrite !bool_decide_eq_true_2 in Hdiff. }
  rewrite Hadd. unfold CompWithSym_add. cbn [eq_zero]. rewrite Hnz.
  unfold check_same_shape.
  rewrite (bool_decide_eq_false_2 (frame other ≠ frame self)) by (intros Hf; by apply Hf).
  rewrite (bool_decide_eq_false_2 (nid other ≠ nid self)) by (intros Hf; by apply Hf).
  rewrite (bool_decide_eq_false_2 (sindex other ≠ sindex self)) by (intros Hf; by apply Hf).
  cbn [mbind result_bind].
  rewrite Hko, Hdiff.
  destruct (common_groups_valid (nid self) (sym self) (antisym self)
              (sym other) (antisym other) Hss Has Hnds Hndo) as (Hc1 & Hc2 & Hc3).
  set (cs := common_groups (sym self) (sym other)) in *.
  set (ca := common_groups (antisym self) (antisym other)) in *.
  destruct (bool_decide (cs ≠ []) || bool_decide (ca ≠ [])) eqn:Hne.
  - rewrite CompWithSym_init_intro by done. simpl.
    destruct (fill_sum_spec self other
                (mkComponents cCompWithSym (frame self) (nid self)
                   (frame_len (frame self)) (sindex self) (output_formatter self) ∅ cs ca))
      as (r & Hr & Hsh & Hval); try done.
    { simpl. by rewrite Hdo, Hfr. }
    destruct Hsh as (Hk & Hf & Hn' & _ & Hs' & _ & Hsym & Hanti). simpl in *.
    exists r. split; [done |]. rewrite <- Hsym, <- Hanti, <- Hk, <- Hf, <- Hn', <- Hs'.
    rewrite Hne. repeat split; try done.
    intros ind Hc Ho. destruct (Hval ind Hc Ho) as (Ha & Hb & Hg). eauto.
  - apply orb_false_iff in Hne as [Hcs0 Hca0].
    apply bool_decide_eq_false in Hcs0, Hca0.
    assert (Hcs' : cs = []) by (destruct (decide (cs = [])); [done | by destruct Hcs0]).
    assert (Hca' : ca = []) by (destruct (decide (ca = [])); [done | by destruct Hca0]).
    destruct (fill_sum_spec self other
                (Components_init (frame self) (nid self) (sindex self)
                   (output_formatter self)))
      as (r & Hr & Hsh & Hval); try done.
    { simpl. by rewrite Hdo, Hfr. }
    destruct Hsh as (Hk & Hf & Hn' & _ & Hs' & _ & Hsym & Hanti). simpl in *.
    exists r. split; [done |]. rewrite <- Hsym, <- Hanti, <- Hk, <- Hf, <- Hn', <- Hs'.
    rewrite Hcs', Hca'. repeat split; try done.
    intros ind Hc Ho. destruct (Hval ind Hc Ho) as (Ha & Hb & Hg). eauto.
Qed.

End AdditionTheorem.

(** ** Operations that keep zeros out of the dictionary *)

Section NoZero.
Context {R : Type} `{Ring R} `{!CommRing R} `{SetListing}.

Lemma rneg_zero : rneg (zero_element : R) = zero_element.
Proof.
  pose proof ring_laws as Rth.
  rewrite <- (Radd_0_l Rth (rneg zero_element)). apply (Ropp_def Rth).
Qed.

Lemma rneg_nonzero (x : R) : x ≠ zero_element → rneg x ≠ zero_element.
Proof.
  intros Hx Hn. apply Hx. rewrite <- (rneg_involutive x), Hn. apply rneg_zero.
Qed.

Lemma no_zero_insert (c : Components R) k v :
  no_zero_entry c → v ≠ zero_element →
  no_zero_entry (set_comp c (<[k := v]> (_comp c))).
Proof.
  intros Hc Hv ind x. cbn [_comp set_comp].
  destruct (decide (k = ind)) as [-> | Hne].
  - rewrite lookup_insert_eq. by intros [= <-].
  - rewrite lookup_insert_ne by done. apply Hc.
Qed.

Lemma no_zero_delete (c : Components R) k :
  no_zero_entry c → no_zero_entry (set_comp c (delete k (_comp c))).
Proof.
  intros Hc ind x. cbn [_comp set_comp].
  destruct (decide (k = ind)) as [-> | Hne].
  - by rewrite lookup_delete_eq.
  - rewrite lookup_delete_ne by done. apply Hc.
Qed.

(** Assignment keeps the invariant, for a value whose conversion into the
    ring is nonzero when the value itself is. *)
Lemma setitem_no_zero (c c' : Components R) ind (v : value) :
  no_zero_entry c →
  (value_is0 v = false → ring_of v ≠ zero_element) →
  setitem c ind v = Ok c' → no_zero_entry c'.
Proof.
  intros Hc Hv.
  unfold setitem, Components_setitem, CompWithSym_setitem, CompFullySym_setitem.
  destruct (klass_of c);
    [ destruct (_check_indices c ind) as [k | |]; simpl; try discriminate
    | destruct (_ordered_indices c ind) as [[s [k |]] | |]; simpl; try discriminate ..];
    destruct (value_is0 v); simpl;
    repeat (case_match; try discriminate);
    intros [= <-]; auto using no_zero_insert, no_zero_delete, rneg_nonzero.
Qed.

Lemma setitem_ring_no_zero (c c' : Components R) ind (x : R) :
  no_zero_entry c → setitem c ind (VRing x) = Ok c' → no_zero_entry c'.
Proof.
  intros Hc. apply setitem_no_zero; [done |].
  simpl. unfold is0. by intros Hx%bool_decide_eq_false.
Qed.

Lemma Components_init_no_zero fr nb si fmt :
  no_zero_entry (Components_init (R:=R) fr nb si fmt).
Proof. intros ind x. simpl. by rewrite lookup_empty. Qed.

Lemma empty_no_zero (c : Components R) : _comp c = ∅ → no_zero_entry c.
Proof. intros He ind x. by rewrite He, lookup_empty. Qed.

(** Any sequence of assignments of ring values, from an empty store on,
    leaves no zero in the dictionary. *)
Lemma setitem_sequence_no_zero (l : list (list Z * R)) (c c' : Components R) :
  no_zero_entry c →
  foldM (λ c iv, setitem c iv.1 (VRing iv.2)) l c = Ok c' → no_zero_entry c'.
Proof.
  revert c. induction l as [| iv l IH]; intros c Hc; simpl.
  - by intros [= <-].
  - destruct (setitem c iv.1 (VRing iv.2)) as [c1 | |] eqn:Hs; simpl; try discriminate.
    apply IH. by eapply setitem_ring_no_zero.
Qed.

Lemma store_all_no_zero (f : R → R) src (r : Components R) :
  no_zero_entry r → Forall (λ iv, f iv.2 ≠ zero_element) src →
  no_zero_entry (store_all f src r).
Proof.
  unfold store_all. intros Hr Hsrc. revert r Hr.
  induction Hsrc as [| iv src Hiv _ IH]; intros r Hr; [done |].
  simpl. apply IH. by apply no_zero_insert.
Qed.

Lemma items_no_zero (c : Components R) :
  no_zero_entry c → Forall (λ iv, iv.2 ≠ zero_element) (items c).
Proof.
  intros Hc. apply Forall_forall. intros [ind v] Hin.
  apply elem_of_map_to_list in Hin. simpl. by eapply Hc.
Qed.

Lemma _new_instance_empty (c r : Components R) :
  _new_instance c = Ok r → _comp r = ∅.
Proof.
  unfold _new_instance, CompWithSym_init, CompFullySym_init, CompFullyAntiSym_init.
  destruct (klass_of c); try (by intros [= <-]);
    intros Hr; by apply CompWithSym_init_valid in Hr as (_ & _ & _ & _ & _ & _ & _ & He & _).
Qed.

Lemma copy_no_zero (c r : Components R) :
  no_zero_entry c → copy c = Ok r → no_zero_entry r.
Proof.
  intros Hc. unfold copy.
  destruct (_new_instance c) as [r0 | |] eqn:Hr0; simpl; try discriminate.
  intros [= <-]. apply store_all_no_zero.
  - apply empty_no_zero. by eapply _new_instance_empty.
  - by apply items_no_zero.
Qed.

(** The unary minus keeps the invariant. *)
Lemma neg_no_zero (c r : Components R) :
  no_zero_entry c → Components_neg c = Ok r → no_zero_entry r.
Proof.
  intros Hc. unfold Components_neg.
  destruct (_new_instance c) as [r0 | |] eqn:Hr0; simpl; try discriminate.
  intros [= <-]. apply store_all_no_zero.
  - apply empty_no_zero. by eapply _new_instance_empty.
  - eapply Forall_impl; [by apply items_no_zero |]. intros iv. apply rneg_nonzero.
Qed.

Lemma add_at_no_zero (r r' : Components R) (iv : list Z * R) :
  no_zero_entry r → add_at r iv = Ok r' → no_zero_entry r'.
Proof.
  intros Hr. unfold add_at.
  destruct (getitem r iv.1) as [v | |]; simpl; try discriminate.
  by apply setitem_ring_no_zero.
Qed.

Lemma add_at_loop_no_zero (src : list (list Z * R)) (r r' : Components R) :
  no_zero_entry r → foldM add_at src r = Ok r' → no_zero_entry r'.
Proof.
  revert r. induction src as [| iv src IH]; intros r Hr; cbn [foldM].
  - by intros [= <-].
  - destruct (add_at r iv) as [r1 | |] eqn:Ha; simpl; try discriminate.
    apply IH. by eapply add_at_no_zero.
Qed.

Lemma fill_sum_no_zero (self other r0 r : Components R) :
  no_zero_entry r0 → fill_sum self other r0 = Ok r → no_zero_entry r.
Proof.
  unfold fill_sum. intros Hr0.
  destruct (non_redundant_index_generator r0) as [inds | |]; simpl; try discriminate.
  revert r0 Hr0. induction inds as [| ind inds IH]; intros r0 Hr0; simpl.
  - by intros [= <-].
  - destruct (getitem self ind) as [a | |]; simpl; try discriminate.
    destruct (getitem other ind) as [b | |]; simpl; try discriminate.
    destruct (setitem r0 ind (VRing (radd a b))) as [r1 | |] eqn:Hs; simpl;
      try discriminate.
    apply IH. by eapply setitem_ring_no_zero.
Qed.

Lemma CompWithSym_add_no_zero (self r : Components R) (other : operand) :
  no_zero_entry self → CompWithSym_add self other = Ok r → no_zero_entry r.
Proof.
  intros Hs. unfold CompWithSym_add, Components_pos.
  destruct (eq_zero other); [by apply copy_no_zero |].
  destruct other as [n | x | o]; try discriminate.
  destruct (check_same_shape self o) as [[] | |]; simpl; try discriminate.
  destruct (isinstance_CompWithSym (klass_of o)).
  - destruct (_ && _).
    + destruct (copy self) as [r0 | |] eqn:Hc; simpl; try discriminate.
      apply add_at_loop_no_zero. by eapply copy_no_zero.
    + destruct (_ || _).
      * destruct (CompWithSym_init _ _ _ _ _ _) as [r0 | |] eqn:Hi; simpl;
          try discriminate.
        apply fill_sum_no_zero. apply empty_no_zero.
        by apply CompWithSym_init_valid in Hi as (_ & _ & _ & _ & _ & _ & _ & He & _).
      * simpl. apply fill_sum_no_zero, Components_init_no_zero.
  - apply fill_sum_no_zero, Components_init_no_zero.
Qed.

Lemma sym_add_no_zero (self r : Components R) (other : operand) :
  no_zero_entry self → sym_add self other = Ok r → no_zero_entry r.
Proof.
  intros Hs. unfold sym_add, CompFully_add, Components_pos.
  destruct (klass_of self); try by apply CompWithSym_add_no_zero.
  - destruct (eq_zero other); [by apply copy_no_zero |].
    destruct other as [n | x | o]; try discriminate.
    case_bool_decide; [| by apply CompWithSym_add_no_zero].
    destruct (check_same_shape self o) as [[] | |]; simpl; try discriminate.
    destruct (copy self) as [r0 | |] eqn:Hc; simpl; try discriminate.
    apply add_at_loop_no_zero. by eapply copy_no_zero.
  - destruct (eq_zero other); [by apply copy_no_zero |].
    destruct other as [n | x | o]; try discriminate.
    case_bool_decide; [| by apply CompWithSym_add_no_zero].
    destruct (check_same_shape self o) as [[] | |]; simpl; try discriminate.
    destruct (copy self) as [r0 | |] eqn:Hc; simpl; try discriminate.
    apply add_at_loop_no_zero. by eapply copy_no_zero.
Qed.

(** Addition keeps the invariant. *)
Lemma add_no_zero (self other r : Components R) :
  no_zero_entry self → no_zero_entry other →
  add self (OComp other) = Ok r → no_zero_entry r.
Proof.
  intros Hs Ho. unfold add, Components_add, Components_pos.
  destruct (klass_of self); try by apply sym_add_no_zero.
  destruct (eq_zero (OComp other)); [by apply copy_no_zero |].
  destruct (isinstance_CompWithSym (klass_of other)); [by apply sym_add_no_zero |].
  destruct (check_same_shape self other) as [[] | |]; simpl; try discriminate.
  destruct (copy self) as [r0 | |] eqn:Hc; simpl; try discriminate.
  apply add_at_loop_no_zero. exact (copy_no_zero _ _ Hs Hc).
Qed.

(** Subtraction keeps the invariant. *)
Lemma sub_no_zero (self other r : Components R) :
  no_zero_entry self → no_zero_entry other →
  sub self (OComp other) = Ok r → no_zero_entry r.
Proof.
  intros Hs Ho. unfold sub, Components_pos.
  destruct (eq_zero (OComp other)); [by apply copy_no_zero |].
  cbn [neg_operand].
  destruct (Components_neg other) as [o | |] eqn:Hn; simpl; try discriminate.
  apply add_no_zero; [done |]. by eapply neg_no_zero.
Qed.

(** Products keep the invariant when the ring has no zero divisor. *)
Hypothesis no_zero_divisor :
  ∀ x y : R, rmul x y = zero_element → x = zero_element ∨ y = zero_element.

Lemma store_products_no_zero (a b r : Components R) :
  no_zero_entry a → no_zero_entry b → no_zero_entry r →
  no_zero_entry (store_products a b r).
Proof.
  intros Ha Hb. unfold store_products.
  pose proof (items_no_zero a Ha) as Hia. pose proof (items_no_zero b Hb) as Hib.
  revert r. induction Hia as [| ivs la Hivs _ IH]; intros r Hr; [done |].
  simpl. apply IH. clear IH.
  revert r Hr. induction Hib as [| ivo lb Hivo _ IHb]; intros r Hr; [done |].
  simpl. apply IHb. apply no_zero_insert; [done |].
  intros Hz. by destruct (no_zero_divisor _ _ Hz).
Qed.

Lemma mul_no_zero (b : bool) (self other r : Components R) :
  no_zero_entry self → no_zero_entry other →
  mul b self (OComp other) = Ok r → no_zero_entry r.
Proof.
  intros Hs Ho. unfold mul, Components_mul, CompWithSym_mul.
  assert (Hinit : ∀ k fr nb si fmt s a (r0 : Components R),
            CompWithSym_init_as k fr nb si fmt s a = Ok r0 → no_zero_entry r0).
  { intros k fr nb si fmt s a r0 Hi. apply empty_no_zero.
    by apply CompWithSym_init_valid in Hi as (_ & _ & _ & _ & _ & _ & _ & He & _). }
  destruct (klass_of self); repeat case_bool_decide; try discriminate;
    repeat (case_match; try discriminate); simpl;
    repeat match goal with
           | |- context [CompWithSym_init ?fr ?nb ?si ?fmt ?s ?a] =>
               destruct (CompWithSym_init fr nb si fmt s a) as [r0 | |] eqn:Hi;
               simpl; try discriminate; apply Hinit in Hi
           | |- context [CompFullySym_init ?fr ?nb ?si ?fmt] =>
               destruct (CompFullySym_init (R:=R) fr nb si fmt) as [r0 | |] eqn:Hi;
               simpl; try discriminate; apply Hinit in Hi
           end;
    intros [= <-]; apply store_products_no_zero; auto using Components_init_no_zero.
Qed.

Lemma rmul_no_zero (self r : Components R) (x : R) :
  no_zero_entry self → Components_rmul self (OScalar x) = Ok r → no_zero_entry r.
Proof.
  intros Hs. unfold Components_rmul.
  destruct (_new_instance self) as [r0 | |] eqn:Hr0; simpl; try discriminate.
  pose proof (empty_no_zero r0 (_new_instance_empty _ _ Hr0)) as He.
  unfold is0. case_bool_decide as Hx; intros [= <-]; [done |].
  apply store_all_no_zero; [done |].
  eapply Forall_impl; [by apply items_no_zero |].
  intros iv Hiv Hz. simpl in Hz. by destruct (no_zero_divisor _ _ Hz).
Qed.

End NoZero.

Section AllPositions.
Context {R : Type} `{Ring R} `{SetListing}.

(** Without argument, the positions are all the positions. *)
Lemma positions_arg_all (c : Components R) :
  (2 ≤ nid c)%nat → positions_arg c None = positions_arg c (Some (seq 0 (nid c))).
Proof.
  intros Hn. unfold positions_arg. rewrite length_seq.
  by rewrite !bool_decide_eq_false_2 by lia.
Qed.

Lemma symmetrize_all (c : Components R) :
  (2 ≤ nid c)%nat → symmetrize c None = symmetrize c (Some (seq 0 (nid c))).
Proof.
  intros Hn. unfold symmetrize, Components_symmetrize, CompWithSym_symmetrize.
  by rewrite positions_arg_all.
Qed.

Lemma antisymmetrize_all (c : Components R) :
  (2 ≤ nid c)%nat → antisymmetrize c None = antisymmetrize c (Some (seq 0 (nid c))).
Proof.
  intros Hn. unfold antisymmetrize, Components_antisymmetrize, CompWithSym_antisymmetrize.
  by rewrite positions_arg_all.
Qed.

End AllPositions.

Section Outcome.
Context {R : Type} `{Ring R} `{SetListing}.

Lemma check_range_true (si imax : Z) (ind : list Z) :
  check_range si imax ind = true ↔ Forall (λ i, si ≤ i ≤ imax) ind.
Proof.
  induction ind as [| i l IH]; simpl; [by split; [constructor |] |].
  destruct ((i <? si) || (i >? imax)) eqn:Hb.
  - apply orb_true_iff in Hb. split; [discriminate |].
    intros Hf. apply Forall_cons in Hf as [Hi _]. lia.
  - apply orb_false_iff in Hb. rewrite IH, Forall_cons. split; [| tauto].
    intros Hl. split; [lia | done].
Qed.

Lemma _check_indices_outcome (c : Components R) (ind : list Z) :
  (length ind ≠ nid c ∧ _check_indices c ind = Raise TypeError)
  ∨ (length ind = nid c ∧ ¬ in_range c ind ∧ _check_indices c ind = Raise IndexError)
  ∨ (length ind = nid c ∧ in_range c ind ∧ _check_indices c ind = Ok ind).
Proof.
  unfold _check_indices, in_range.
  destruct (decide (length ind = nid c)) as [Hl | Hl].
  - right. rewrite bool_decide_eq_false_2 by (intros Hf; by apply Hf).
    destruct (check_range _ _ ind) eqn:Hr.
    + right. by apply check_range_true in Hr.
    + left. repeat split; [done |]. intros Hf. apply check_range_true in Hf. congruence.
  - left. by rewrite bool_decide_eq_true_2.
Qed.

Lemma getitem_checked (c : Components R) (ind : list Z) :
  _check_indices c ind = Ok ind → ∃ v, getitem c ind = Ok v.
Proof. intros Hc. rewrite getitem_in_range by done. eauto. Qed.

Lemma getitem_unchecked (c : Components R) (ind : list Z) (e : exn) :
  _check_indices c ind = Raise e → getitem c ind = Raise e.
Proof.
  intros Hc.
  unfold getitem, Components_getitem, CompWithSym_getitem, CompFullySym_getitem,
    _ordered_indices.
  by destruct (klass_of c); rewrite Hc.
Qed.

(** X1. The raw access [c[[ind]]] with a tuple [ind] of integers, in
    every class: the access returns a value exactly when the number of
    indices is [nid] and every index lies in the range of the frame; it
    raises [TypeError] exactly when the number of indices is wrong
    (whatever their values), and [IndexError] exactly when the number is
    right and an index is out of range. *)
Theorem getitem_outcome (c : Components R) (ind : list Z) :
  ((∃ v, getitem c ind = Ok v) ↔ length ind = nid c ∧ in_range c ind)
  ∧ (getitem c ind = Raise TypeError ↔ length ind ≠ nid c)
  ∧ (getitem c ind = Raise IndexError ↔ length ind = nid c ∧ ¬ in_range c ind).
Proof.
  destruct (_check_indices_outcome c ind)
    as [(Hl & Hc) | [(Hl & Hr & Hc) | (Hl & Hr & Hc)]].
  - rewrite (getitem_unchecked _ _ _ Hc). firstorder congruence.
  - rewrite (getitem_unchecked _ _ _ Hc). firstorder congruence.
  - destruct (getitem_checked _ _ Hc) as [v ->]. firstorder (eauto; congruence).
Qed.

End Outcome.

(** ** The constructors *)

Lemma check_groups_outcome (nb : nat) (gs : list (list nat)) :
  (groups_ok nb gs ∧ check_groups nb gs = Ok gs)
  ∨ (¬ groups_ok nb gs ∧ check_groups nb gs = Raise IndexError).
Proof.
  unfold groups_ok. induction gs as [| g gs IH]; [left; by split; [constructor |] |].
  simpl. case_bool_decide as Hlen.
  { right. split; [| done]. intros Hf. apply Forall_cons in Hf as [[? _] _]. lia. }
  destruct (existsb _ g) eqn:Hex.
  { right. split; [| done]. intros Hf. apply Forall_cons in Hf as [[_ Hg] _].
    apply existsb_exists in Hex as (p & Hp & Hb). apply bool_decide_eq_true in Hb.
    rewrite Forall_forall in Hg. apply list_elem_of_In in Hp. specialize (Hg p Hp). lia. }
  destruct IH as [[Hok ->] | [Hbad ->]]; simpl.
  - left. split; [| done]. constructor; [| done]. split; [lia |].
    apply Forall_forall. intros p Hp.
    destruct (decide (p < nb)%nat) as [| Hge]; [done |]. exfalso.
    assert (existsb (λ i, bool_decide (nb ≤ i)%nat) g = true); [| congruence].
    apply existsb_exists. exists p. split; [by apply list_elem_of_In |].
    apply bool_decide_eq_true. lia.
  - right. split; [| done]. intros Hf. apply Forall_cons in Hf as [_ ?]. done.
Qed.

Section Constructors.
Context {R : Type} `{Ring R} `{SetListing}.

(** X2. The constructor of a store with symmetries, called with a list
    of symmetric groups and a list of antisymmetric groups: it returns the
    empty store that holds these groups when every group has two
    positions at least, all of them below the number of indices, and no
    position occurs twice in the groups taken together; in every other
    case it raises [IndexError]. *)
Theorem CompWithSym_init_outcome (fr : Frame) (nb : nat) (si : Z) (fmt : option nat)
    (s a : list (list nat)) :
  (groups_ok nb s ∧ groups_ok nb a ∧ NoDup (concat s ++ concat a)
   ∧ CompWithSym_init (R:=R) fr nb si fmt (SymList s) (SymList a)
     = Ok (mkComponents cCompWithSym fr nb (frame_len fr) si fmt ∅ s a))
  ∨ (¬ (groups_ok nb s ∧ groups_ok nb a ∧ NoDup (concat s ++ concat a))
     ∧ CompWithSym_init (R:=R) fr nb si fmt (SymList s) (SymList a) = Raise IndexError).
Proof.
  unfold CompWithSym_init, CompWithSym_init_as. cbn [groups_of_arg].
  destruct (check_groups_outcome nb s) as [[Hs ->] | [Hs ->]]; simpl.
  2: { right. split; [| done]. by intros [? _]. }
  destruct (check_groups_outcome nb a) as [[Ha ->] | [Ha ->]]; simpl.
  2: { right. split; [| done]. by intros (_ & ? & _). }
  destruct (has_repeat (concat s ++ concat a)) eqn:Hr.
  - right. split; [| done]. intros (_ & _ & Hn). apply has_repeat_true in Hr. done.
  - left. apply has_repeat_false in Hr. done.
Qed.

(** X3. A fully symmetric or fully antisymmetric store cannot have
    exactly one index: both constructors raise [IndexError] for one index
    (the single group would have one position), return a store without
    any group for no index, and a store with the one group of all
    positions otherwise. *)
Theorem CompFully_init_outcome (fr : Frame) (nb : nat) (si : Z) (fmt : option nat) :
  CompFullySym_init (R:=R) fr nb si fmt
  = (if bool_decide (nb = 1%nat) then Raise IndexError
     else Ok (mkComponents cCompFullySym fr nb (frame_len fr) si fmt ∅
                (if bool_decide (nb = 0%nat) then [] else [seq 0 nb]) []))
  ∧ CompFullyAntiSym_init (R:=R) fr nb si fmt
  = (if bool_decide (nb = 1%nat) then Raise IndexError
     else Ok (mkComponents cCompFullyAntiSym fr nb (frame_len fr) si fmt ∅
                [] (if bool_decide (nb = 0%nat) then [] else [seq 0 nb]))).
Proof.
  destruct nb as [| [| n]]; [done | done |].
  rewrite CompFullySym_init_Ok, CompFullyAntiSym_init_Ok by lia. done.
Qed.

End Constructors.

(** ** Contractions *)

Section NoContraction.
Context {R : Type} `{Ring R} `{SetListing}.

Lemma groups_of_arg_outcome (nb : nat) (a : sym_arg) :
  (∃ gs, groups_of_arg nb a = Ok gs) ∨ groups_of_arg nb a = Raise IndexError.
Proof.
  destruct a as [| [| p g] | gs]; cbn [groups_of_arg]; eauto.
  - destruct (check_groups_outcome nb [p :: g]) as [[_ ->] | [_ ->]]; eauto.
  - destruct (check_groups_outcome nb gs) as [[_ ->] | [_ ->]]; eauto.
Qed.

Lemma CompWithSym_init_as_outcome k fr nb si fmt s a :
  (∃ c : Components R, CompWithSym_init_as k fr nb si fmt s a = Ok c)
  ∨ CompWithSym_init_as (R:=R) k fr nb si fmt s a = Raise IndexError.
Proof.
  unfold CompWithSym_init_as.
  destruct (groups_of_arg_outcome nb s) as [[s' ->] | ->]; simpl; [| by right].
  destruct (groups_of_arg_outcome nb a) as [[a' ->] | ->]; simpl; [| by right].
  destruct (has_repeat _); eauto.
Qed.

Lemma mul_outcome (b : bool) (self o : Components R) :
  (∃ r, mul b self (OComp o) = Ok r ∧ nid r = (nid self + nid o)%nat
        ∧ frame o = frame self ∧ sindex o = sindex self)
  ∨ (mul b self (OComp o) = Raise TypeError
     ∧ (frame o ≠ frame self ∨ sindex o ≠ sindex self))
  ∨ (mul b self (OComp o) = Raise IndexError
     ∧ frame o = frame self ∧ sindex o = sindex self).
Proof.
  assert (Hinit : ∀ k fr nb si fmt s a,
    (∃ c : Components R, CompWithSym_init_as k fr nb si fmt s a = Ok c ∧ nid c = nb)
    ∨ CompWithSym_init_as (R:=R) k fr nb si fmt s a = Raise IndexError).
  { intros k fr nb si fmt s a.
    destruct (CompWithSym_init_as_outcome k fr nb si fmt s a) as [[c Hc] | Hc]; [| by right].
    left. exists c. split; [done |]. by apply CompWithSym_init_valid in Hc as (_ & _ & _ & ? & _). }
  unfold mul, Components_mul, CompWithSym_mul.
  destruct (decide (frame o = frame self)) as [Hf | Hf].
  2: { right. left. rewrite !bool_decide_eq_true_2 by done. split; [| by left].
       by destruct (klass_of self). }
  rewrite (bool_decide_eq_false_2 (frame o ≠ frame self)) by (intros Hx; by apply Hx).
  destruct (decide (sindex o = sindex self)) as [Hs | Hs].
  2: { right. left. rewrite !bool_decide_eq_true_2 by done. split; [| by right].
       by destruct (klass_of self). }
  rewrite (bool_decide_eq_false_2 (sindex o ≠ sindex self)) by (intros Hx; by apply Hx).
  assert (Hfin : ∀ m : result (Components R),
    ((∃ c, m = Ok c ∧ nid c = (nid self + nid o)%nat) ∨ m = Raise IndexError) →
    (∃ r, (result_ ← m; Ok (store_products self o result_)) = Ok r
          ∧ nid r = (nid self + nid o)%nat ∧ frame o = frame self ∧ sindex o = sindex self)
    ∨ ((result_ ← m; Ok (store_products self o result_)) = Raise TypeError
       ∧ (frame o ≠ frame self ∨ sindex o ≠ sindex self))
    ∨ ((result_ ← m; Ok (store_products self o result_)) = Raise IndexError
       ∧ frame o = frame self ∧ sindex o = sindex self)).
  { intros m [(c & -> & Hn) | ->]; simpl; [left | by right; right].
    eexists. split; [done |]. split; [| done].
    destruct (store_products_shape self o c) as (_ & _ & <- & _). done. }
  destruct (klass_of self); apply Hfin; try apply Hinit.
  destruct (isinstance_CompWithSym (klass_of o)); [apply Hinit |].
  destruct (bool_decide (nid self = 1%nat)) eqn:H1;
    destruct (bool_decide (nid o = 1%nat)) eqn:H2; simpl; try (left; eauto; fail).
  apply bool_decide_eq_true in H1, H2. rewrite H1, H2.
  destruct b; [| left; eauto]. apply Hinit.
Qed.

Lemma self_contract_raises (c : Components R) (pos1 pos2 : nat) :
  ∃ e, self_contract c pos1 pos2 = Raise e
    ∧ (e = TypeError ∨ e = IndexError ∨ e = AttributeError).
Proof.
  unfold self_contract, Components_self_contract, CompWithSym_self_contract,
    contract_checks.
  destruct (klass_of c); repeat case_bool_decide; simpl; eauto.
Qed.

(** X4. No contraction ever returns a result. [self_contract] and
    [contract] raise on every store and for all positions: [TypeError] or
    [IndexError] when an argument is refused, and [AttributeError] in
    every other case, because both [self_contract] methods read the
    attribute [manifold], which no class of the module binds. *)
Theorem contraction_never_returns (c : Components R) (b : bool) (other : operand)
    (pos1 pos2 : nat) :
  (∃ e, self_contract c pos1 pos2 = Raise e
     ∧ (e = TypeError ∨ e = IndexError ∨ e = AttributeError))
  ∧ (∃ e, contract b c pos1 other pos2 = Raise e
     ∧ (e = TypeError ∨ e = IndexError ∨ e = AttributeError))
  ∧ ((2 ≤ nid c)%nat ∧ (pos1 < nid c)%nat ∧ (pos2 < nid c)%nat ∧ pos1 ≠ pos2 ↔
     self_contract c pos1 pos2 = Raise AttributeError).
Proof.
  split; [apply self_contract_raises |]. split.
  - unfold contract. destruct other as [n | x | o]; eauto.
    repeat case_bool_decide; eauto.
    destruct (mul_outcome b c o) as [(r & -> & _) | [[-> _] | [-> _]]]; simpl; eauto.
    apply self_contract_raises.
  - split.
    + intros (? & ? & ? & ?). by apply self_contract_attribute_error.
    + unfold self_contract, Components_self_contract, CompWithSym_self_contract,
        contract_checks.
      destruct (klass_of c); repeat case_bool_decide; simpl; try discriminate;
        intros _; lia.
Qed.

End NoContraction.

(** ** Operands of different shapes *)

Section Mismatch.
Context {R : Type} `{Ring R} `{SetListing}.

(** X5. The sum of two stores that are not zero and differ in their
    frame, their number of indices or their start index raises
    [TypeError], whatever the classes of the two stores. *)
Theorem add_shape_mismatch (a b : Components R) :
  is_zero a = false → is_zero b = false →
  frame b ≠ frame a ∨ nid b ≠ nid a ∨ sindex b ≠ sindex a →
  add a (OComp b) = Raise TypeError.
Proof.
  intros Ha Hb Hne.
  assert (Hab : check_same_shape a b = Raise TypeError).
  { unfold check_same_shape. repeat case_bool_decide; try done. exfalso.
    destruct Hne as [Hx | [Hx | Hx]];
      match goal with Hn : ¬ _ |- _ => by (apply Hn; congruence) end. }
  assert (Hba : check_same_shape b a = Raise TypeError).
  { unfold check_same_shape. repeat case_bool_decide; try done. exfalso.
    destruct Hne as [Hx | [Hx | Hx]];
      match goal with Hn : ¬ _ |- _ => by (apply Hn; congruence) end. }
  assert (Hws : ∀ x y : Components R, is_zero y = false →
            check_same_shape x y = Raise TypeError →
            CompWithSym_add x (OComp y) = Raise TypeError).
  { intros x y Hy Hxy. unfold CompWithSym_add. simpl. by rewrite Hy, Hxy. }
  assert (Hfs : ∀ k (x y : Components R), is_zero y = false →
            check_same_shape x y = Raise TypeError →
            CompFully_add k x (OComp y) = Raise TypeError).
  { intros k x y Hy Hxy. unfold CompFully_add. simpl. rewrite Hy.
    case_bool_decide; [by rewrite Hxy | by apply Hws]. }
  assert (Hsa : ∀ x y : Components R, is_zero y = false →
            check_same_shape x y = Raise TypeError →
            sym_add x (OComp y) = Raise TypeError).
  { intros x y Hy Hxy. unfold sym_add. destruct (klass_of x); auto. }
  unfold add, Components_add. destruct (klass_of a); auto.
  simpl. rewrite Hb. destruct (isinstance_CompWithSym (klass_of b)); auto.
  by rewrite Hab.
Qed.

End Mismatch.

Lemma add_shape_mismatch_witness :
  add sym_pair_1 (OComp sym_triple) = Raise TypeError.
Proof.
  refine (add_shape_mismatch (R:=Z) sym_pair_1 sym_triple _ _ _).
  - vm_compute; reflexivity.
  - vm_compute; reflexivity.
  - right. left. simpl. lia.
Defined.

(** ** The indices of a store *)

Section Indices.
Context {R : Type} `{Ring R} `{SetListing}.

(** X6. The generator of all the indices yields exactly the tuples that
    are valid indices of the store, each of them once. *)
Theorem index_generator_exact (c : Components R) :
  (1 ≤ nid c)%nat →
  ∃ l, index_generator c = Ok l ∧ NoDup l
    ∧ ∀ t, t ∈ l ↔ _check_indices c t = Ok t.
Proof.
  intros Hn. exists (all_indices (sindex c) (dim c) (nid c)).
  split; [by apply index_generator_spec |]. split; [apply all_indices_NoDup |].
  intros t. rewrite all_indices_elem. split.
  - intros [Hl Hr]. by apply _check_indices_intro.
  - intros Hc. by apply _check_indices_Ok in Hc as (_ & ? & ?).
Qed.

End Indices.

Lemma index_generator_exact_witness :
  ∃ l, index_generator antisym_pair = Ok l ∧ NoDup l
    ∧ ∀ t, t ∈ l ↔ _check_indices antisym_pair t = Ok t.
Proof. refine (index_generator_exact (R:=Z) antisym_pair _). simpl. lia. Defined.

(** ** The canonical form of an index tuple *)

Lemma Sorted_chain_ok (strict : bool) (t : list Z) :
  Sorted Z.le t → (strict = true → NoDup t) → chain_ok strict t = true.
Proof.
  induction t as [| a t IH]; [done |].
  destruct t as [| b t]; [done |].
  intros Hs Hn. rewrite chain_ok_cons2.
  apply Sorted_inv in Hs as [Hs Hhd]. apply HdRel_inv in Hhd.
  apply andb_true_iff. split.
  - apply negb_true_iff. destruct strict; [| lia].
    specialize (Hn eq_refl). apply NoDup_cons in Hn as [Hab _].
    rewrite not_elem_of_cons in Hab. lia.
  - apply IH; [done |]. intros Hst. specialize (Hn Hst). by apply NoDup_cons in Hn as [_ ?].
Qed.

Lemma sorted_chain_ok (strict : bool) (t : list Z) :
  (strict = true → NoDup t) → chain_ok strict (sorted t) = true.
Proof.
  intros Hn. apply Sorted_chain_ok.
  - apply Sorted_merge_sort. apply _.
  - intros Hs. unfold sorted. rewrite merge_sort_Permutation. auto.
Qed.

Lemma sorted_length (t : list Z) : length (sorted t) = length t.
Proof. unfold sorted. by rewrite merge_sort_Permutation. Qed.

Lemma sorted_Forall (P : Z → Prop) (t : list Z) : Forall P t → Forall P (sorted t).
Proof. unfold sorted. by rewrite merge_sort_Permutation. Qed.

Lemma sorted_Permutation (s t : list Z) : s ≡ₚ t → sorted s = sorted t.
Proof.
  intros Hp. unfold sorted. apply (Sorted_unique Z.le).
  - apply Sorted_merge_sort. apply _.
  - apply Sorted_merge_sort. apply _.
  - by rewrite !merge_sort_Permutation.
Qed.

Lemma gather_length (ind : list Z) (g : list nat) : length (gather ind g) = length g.
Proof. unfold gather. by rewrite length_fmap. Qed.

Lemma gather_Forall (P : Z → Prop) (ind : list Z) (g : list nat) :
  Forall P ind → Forall (λ p, (p < length ind)%nat) g → Forall P (gather ind g).
Proof.
  intros Hi Hg. unfold gather. apply Forall_fmap.
  eapply Forall_impl; [exact Hg |]. intros p Hp. simpl.
  rewrite Forall_forall in Hi. apply Hi.
  apply list_elem_of_lookup_total_2. done.
Qed.

Lemma scatter_Forall (P : Z → Prop) (ind : list Z) (isym : list nat) (vals : list Z) :
  Forall P ind → Forall P vals → Forall P (scatter ind isym vals).
Proof.
  revert ind vals. induction isym as [| q isym IH]; intros ind vals Hi Hv; [done |].
  destruct vals as [| v vals]; [done |]. simpl.
  apply Forall_cons in Hv as [Hv Hvs].
  apply IH; [| done]. by apply Forall_insert.
Qed.

Lemma gather_scatter (ind : list Z) (isym : list nat) (vals : list Z) :
  NoDup isym → Forall (λ p, (p < length ind)%nat) isym → length vals = length isym →
  gather (scatter ind isym vals) isym = vals.
Proof.
  revert ind vals. induction isym as [| q isym IH]; intros ind vals Hn Hr Hl.
  { by destruct vals. }
  destruct vals as [| v vals]; [done |].
  apply NoDup_cons in Hn as [Hq Hn]. apply Forall_cons in Hr as [Hqr Hr].
  unfold gather. rewrite fmap_cons. cbn [scatter]. f_equal.
  - rewrite scatter_other by done. by apply list_lookup_total_insert_eq.
  - apply IH; [done | | simpl in Hl; lia].
    eapply Forall_impl; [exact Hr |]. intros p Hp. simpl. by rewrite length_insert.
Qed.

(** One step of both passes: the values of a group are put in order. *)
Lemma group_ordered_step (strict : bool) (ind : list Z) (isym : list nat) :
  NoDup isym → Forall (λ p, (p < length ind)%nat) isym →
  (strict = true → NoDup (gather ind isym)) →
  group_ordered strict (scatter ind isym (sorted (gather ind isym))) isym = true.
Proof.
  intros Hn Hr Hs. rewrite group_ordered_chain_ok, gather_scatter; try done.
  - by apply sorted_chain_ok.
  - by rewrite sorted_length, gather_length.
Qed.

Lemma group_ordered_ext (strict : bool) (ind1 ind2 : list Z) (g : list nat) :
  (∀ p, p ∈ g → ind1 !!! p = ind2 !!! p) →
  group_ordered strict ind1 g = group_ordered strict ind2 g.
Proof. intros He. rewrite !group_ordered_chain_ok. by rewrite (gather_ext ind1 ind2). Qed.

Lemma sym_pass_cons (ind : list Z) (g : list nat) (gs : list (list nat)) :
  sym_pass ind (g :: gs) = sym_pass (scatter ind g (sorted (gather ind g))) gs.
Proof. done. Qed.

Lemma sym_pass_length (ind : list Z) (groups : list (list nat)) :
  length (sym_pass ind groups) = length ind.
Proof.
  revert ind. induction groups as [| g gs IH]; intros ind; [done |].
  by rewrite sym_pass_cons, IH, scatter_length.
Qed.

Lemma sym_pass_Forall (P : Z → Prop) (ind : list Z) (groups : list (list nat)) :
  Forall (Forall (λ p, (p < length ind)%nat)) groups →
  Forall P ind → Forall P (sym_pass ind groups).
Proof.
  revert ind. induction groups as [| g gs IH]; intros ind Hr Hi; [done |].
  apply Forall_cons in Hr as [Hg Hgs]. rewrite sym_pass_cons. apply IH.
  - eapply Forall_impl; [exact Hgs |]. intros g' Hg'. simpl.
    eapply Forall_impl; [exact Hg' |]. intros p Hp. simpl. by rewrite scatter_length.
  - apply scatter_Forall; [done |]. apply sorted_Forall. by apply gather_Forall.
Qed.

Lemma sym_pass_all_ordered (ind : list Z) (groups : list (list nat)) :
  NoDup (concat groups) → Forall (Forall (λ p, (p < length ind)%nat)) groups →
  forallb (group_ordered false (sym_pass ind groups)) groups = true.
Proof.
  revert ind. induction groups as [| g gs IH]; intros ind Hn Hr; [done |].
  simpl in Hn. apply NoDup_app in Hn as (Hg & Hdis & Hgs).
  apply Forall_cons in Hr as [Hgr Hgsr].
  rewrite sym_pass_cons. cbn [forallb]. apply andb_true_iff. split.
  - rewrite (group_ordered_ext _ _ (scatter ind g (sorted (gather ind g)))).
    + by apply group_ordered_step.
    + intros p Hp. apply sym_pass_other. by apply Hdis.
  - apply IH; [done |].
    eapply Forall_impl; [exact Hgsr |]. intros g' Hg'. simpl.
    eapply Forall_impl; [exact Hg' |]. intros p Hp. simpl. by rewrite scatter_length.
Qed.

Lemma antisym_pass_Some (sign : Z) (ind : list Z) (groups : list (list nat))
    (s : Z) (k : list Z) :
  NoDup (concat groups) → Forall (Forall (λ p, (p < length ind)%nat)) groups →
  antisym_pass sign ind groups = (s, Some k) →
  length k = length ind
  ∧ forallb (group_ordered true k) groups = true
  ∧ (∀ p, p ∉ concat groups → k !!! p = ind !!! p)
  ∧ (∀ P : Z → Prop, Forall P ind → Forall P k).
Proof.
  revert sign ind. induction groups as [| g gs IH]; intros sign ind Hn Hr.
  { simpl. intros [= <- <-]. done. }
  simpl in Hn. apply NoDup_app in Hn as (Hg & Hdis & Hgs).
  apply Forall_cons in Hr as [Hgr Hgsr].
  cbn [antisym_pass]. destruct (has_repeat (gather ind g)) eqn:Hrep; [discriminate |].
  apply has_repeat_false in Hrep. intros Hp.
  apply IH in Hp as (Hlen & Hord & Hoth & HP); [| done |].
  2: { eapply Forall_impl; [exact Hgsr |]. intros g' Hg'. simpl.
       eapply Forall_impl; [exact Hg' |]. intros p Hp'. simpl. by rewrite scatter_length. }
  rewrite scatter_length in Hlen. split; [done |]. split; [| split].
  - cbn [forallb]. apply andb_true_iff. split; [| done].
    rewrite (group_ordered_ext _ _ (scatter ind g (sorted (gather ind g)))).
    + by apply group_ordered_step.
    + intros p Hp. apply Hoth. by apply Hdis.
  - intros p Hp. simpl in Hp. apply not_elem_of_app in Hp as [Hpg Hpgs].
    rewrite Hoth by done. by apply scatter_other.
  - intros P HPi. apply HP. apply scatter_Forall; [done |].
    apply sorted_Forall. by apply gather_Forall.
Qed.

Lemma antisym_pass_None (sign : Z) (ind : list Z) (groups : list (list nat)) (s : Z) :
  NoDup (concat groups) → antisym_pass sign ind groups = (s, None) →
  ∃ g, g ∈ groups ∧ has_repeat (gather ind g) = true.
Proof.
  revert sign ind. induction groups as [| g gs IH]; intros sign ind Hn; [done |].
  simpl in Hn. apply NoDup_app in Hn as (Hg & Hdis & Hgs).
  cbn [antisym_pass]. destruct (has_repeat (gather ind g)) eqn:Hrep.
  { intros _. exists g. split; [apply elem_of_cons; by left | done]. }
  intros Hp. apply IH in Hp as (g' & Hg' & Hrep'); [| done].
  exists g'. split; [apply elem_of_cons; by right |].
  rewrite <- Hrep'. f_equal. apply gather_ext. intros p Hp. symmetry.
  apply scatter_other. intros Hpg. apply (Hdis p Hpg).
  apply elem_of_concat. eauto.
Qed.

Section CanonicalForm.
Context {R : Type} `{Ring R} `{SetListing}.

Lemma valid_spec_positions (c : Components R) (ind : list Z) :
  valid_spec c → length ind = nid c →
  Forall (Forall (λ p, (p < length ind)%nat)) (sym c)
  ∧ Forall (Forall (λ p, (p < length ind)%nat)) (antisym c)
  ∧ NoDup (concat (sym c)) ∧ NoDup (concat (antisym c))
  ∧ (∀ p, p ∈ concat (sym c) → p ∉ concat (antisym c)).
Proof.
  intros Hv Hl. apply valid_spec_groups in Hv as (Hs & Ha & Hn).
  apply NoDup_app in Hn as (Hns & Hdis & Hna). rewrite Hl.
  repeat split; try done.
  - eapply Forall_impl; [exact Hs |]. by intros g [_ ?].
  - eapply Forall_impl; [exact Ha |]. by intros g [_ ?].
Qed.

Lemma _ordered_indices_key (c : Components R) (ind : list Z) (sign : Z) (key : list Z) :
  valid_spec c → _ordered_indices c ind = Ok (sign, Some key) →
  _check_indices c key = Ok key ∧ is_ordered c key = true.
Proof.
  intros Hv. unfold _ordered_indices.
  destruct (_check_indices c ind) as [i | |] eqn:Hc; simpl; try discriminate.
  apply _check_indices_Ok in Hc as (-> & Hlen & Hrange).
  destruct (valid_spec_positions c ind Hv Hlen) as (Hs & Ha & Hns & Hna & Hdis).
  intros [= Hp]. apply antisym_pass_Some in Hp as (Hl & Hord & Hoth & HP); [| done |].
  2: { by rewrite sym_pass_length. }
  rewrite sym_pass_length in Hl. split.
  - apply _check_indices_intro; [congruence |].
    apply HP. by apply sym_pass_Forall.
  - unfold is_ordered. rewrite Hord, andb_true_r.
    rewrite <- (sym_pass_all_ordered ind (sym c)) by done.
    apply forallb_ext_elem. intros g Hg. apply group_ordered_ext.
    intros p Hp. apply Hoth, Hdis. apply elem_of_concat. eauto.
Qed.

End CanonicalForm.

Ltac outcome_cases :=
  repeat match goal with
    | |- _ ∧ _ => split
    | |- _ ↔ _ => split
    end;
  intros;
  repeat match goal with
    | H : _ ∧ _ |- _ => destruct H
    | H : ∃ _, _ |- _ => destruct H
    | H : _ ∨ _ |- _ => destruct H
    end;
  try done; try congruence; eauto.

Section CanonicalTheorems.
Context {R : Type} `{Ring R} `{SetListing}.

(** X7. The canonical form computed by [_ordered_indices] is a valid
    index tuple of the store, it is ordered with respect to every symmetric
    and antisymmetric group, and it is its own canonical form, with the
    sign 1: the canonical form is a fixed point. *)
Theorem canonical_form_fixed (c : Components R) (ind : list Z) (sign : Z) (key : list Z) :
  well_formed c → _ordered_indices c ind = Ok (sign, Some key) →
  _check_indices c key = Ok key ∧ is_ordered c key = true
  ∧ _ordered_indices c key = Ok (1, Some key).
Proof.
  intros (Hv & _) Ho. destruct (_ordered_indices_key c ind sign key Hv Ho) as [Hc Hord].
  split; [done |]. split; [done |]. by apply _ordered_indices_canonical.
Qed.

Lemma _ordered_indices_outcome (c : Components R) (ind : list Z) :
  valid_spec c → _check_indices c ind = Ok ind →
  (antisym_conflict c ind ∧ _ordered_indices c ind = Ok (0, None))
  ∨ (¬ antisym_conflict c ind
     ∧ ∃ s key, _ordered_indices c ind = Ok (s, Some key) ∧ (s = 1 ∨ s = -1)).
Proof.
  intros Hv Hc. pose proof Hc as Hc'.
  apply _check_indices_Ok in Hc' as (_ & Hlen & _).
  destruct (valid_spec_positions c ind Hv Hlen) as (Hs & Ha & Hns & Hna & Hdis).
  assert (Hg : ∀ g, g ∈ antisym c →
            gather (sym_pass ind (sym c)) g = gather ind g).
  { intros g Hg. apply gather_ext. intros p Hp. apply sym_pass_other.
    intros Hps. apply (Hdis p Hps). apply elem_of_concat. eauto. }
  unfold _ordered_indices. rewrite Hc. simpl.
  destruct (antisym_pass 1 (sym_pass ind (sym c)) (antisym c)) as [s [k |]] eqn:Hp.
  - right. split.
    + intros (g & Hgin & Hrep). apply has_repeat_true in Hrep.
      rewrite <- (Hg g Hgin) in Hrep.
      rewrite (antisym_pass_zero 1 _ _ g Hgin Hna Hrep) in Hp. discriminate.
    + exists s, k. split; [done |].
      destruct (antisym_pass_cases 1 (sym_pass ind (sym c)) (antisym c))
        as [Hz | (s' & k' & Hs' & Hc')]; [by left | congruence | congruence].
  - left. split.
    + apply antisym_pass_None in Hp as (g & Hgin & Hrep); [| done].
      exists g. split; [done |]. apply has_repeat_true. by rewrite <- (Hg g Hgin).
    + destruct (antisym_pass_cases 1 (sym_pass ind (sym c)) (antisym c))
        as [Hz | (s' & k' & Hs' & Hc')]; [by left | congruence | congruence].
Qed.

Lemma setitem_unchecked (c : Components R) (ind : list Z) (v : value) (e : exn) :
  _check_indices c ind = Raise e → setitem c ind v = Raise e.
Proof.
  intros Hc.
  unfold setitem, Components_setitem, CompWithSym_setitem, CompFullySym_setitem,
    _ordered_indices.
  by destruct (klass_of c); rewrite Hc.
Qed.

Lemma no_conflict_without_antisym (c : Components R) (ind : list Z) :
  antisym c = [] → ¬ antisym_conflict c ind.
Proof. intros Ha (g & Hg & _). rewrite Ha in Hg. by apply elem_of_nil in Hg. Qed.

Lemma setitem_checked (c : Components R) (ind : list Z) (v : value) :
  well_formed c → _check_indices c ind = Ok ind →
  (value_is0 v = false ∧ antisym_conflict c ind ∧ setitem c ind v = Raise ValueError)
  ∨ ((value_is0 v = true ∨ ¬ antisym_conflict c ind) ∧ ∃ c', setitem c ind v = Ok c').
Proof.
  intros (Hv & Hcls & _) Hc.
  unfold setitem, Components_setitem, CompWithSym_setitem, CompFullySym_setitem.
  unfold class_spec in Hcls.
  destruct (klass_of c) eqn:Hk.
  - destruct Hcls as [_ Ha]. right. split; [right; by apply no_conflict_without_antisym |].
    rewrite Hc. simpl. repeat case_match; eauto.
  - destruct (_ordered_indices_outcome c ind Hv Hc)
      as [(Hcf & ->) | (Hcf & s & key & -> & Hs)]; simpl.
    + destruct (value_is0 v); simpl; [right; eauto | left; eauto].
    + right. split; [by right |].
      rewrite (bool_decide_eq_false_2 (s = 0)) by lia. repeat case_match; eauto.
  - destruct Hcls as [_ Ha]. right. split; [right; by apply no_conflict_without_antisym |].
    destruct (_ordered_indices_outcome c ind Hv Hc)
      as [(Hcf & ->) | (Hcf & s & key & -> & Hs)]; simpl; repeat case_match; eauto.
  - destruct (_ordered_indices_outcome c ind Hv Hc)
      as [(Hcf & ->) | (Hcf & s & key & -> & Hs)]; simpl.
    + destruct (value_is0 v); simpl; [right; eauto | left; eauto].
    + right. split; [by right |].
      rewrite (bool_decide_eq_false_2 (s = 0)) by lia. repeat case_match; eauto.
Qed.

(** X8. Assigning a value to a component of a well-formed store, in
    every class: the assignment raises [TypeError] exactly when the number
    of indices is wrong, [IndexError] exactly when the number is right and
    an index is out of range, [ValueError] exactly when the indices are
    valid, the value is not zero and two positions of one antisymmetric
    group carry the same index value; in every other case it succeeds. *)
Theorem setitem_outcome (c : Components R) (ind : list Z) (v : value) :
  well_formed c →
  (setitem c ind v = Raise TypeError ↔ length ind ≠ nid c)
  ∧ (setitem c ind v = Raise IndexError ↔ length ind = nid c ∧ ¬ in_range c ind)
  ∧ (setitem c ind v = Raise ValueError ↔
       length ind = nid c ∧ in_range c ind
       ∧ value_is0 v = false ∧ antisym_conflict c ind)
  ∧ ((∃ c', setitem c ind v = Ok c') ↔
       length ind = nid c ∧ in_range c ind
       ∧ (value_is0 v = true ∨ ¬ antisym_conflict c ind)).
Proof.
  intros Hwf.
  destruct (_check_indices_outcome c ind)
    as [(Hl & Hc) | [(Hl & Hr & Hc) | (Hl & Hr & Hc)]].
  - rewrite (setitem_unchecked _ _ _ _ Hc). clear Hwf. outcome_cases.
  - rewrite (setitem_unchecked _ _ _ _ Hc). clear Hwf. outcome_cases.
  - destruct (setitem_checked c ind v Hwf Hc)
      as [(Hv & Hcf & ->) | (Hcase & c' & ->)]; clear Hwf; outcome_cases.
Qed.

End CanonicalTheorems.

Lemma canonical_form_fixed_witness :
  _check_indices antisym_pair [0; 1] = Ok [0; 1] ∧ is_ordered antisym_pair [0; 1] = true
  ∧ _ordered_indices antisym_pair [0; 1] = Ok (1, Some [0; 1]).
Proof.
  refine (canonical_form_fixed (R:=Z) antisym_pair [1; 0] (-1) [0; 1] _ _).
  - repeat split; reflexivity.
  - reflexivity.
Defined.

Lemma setitem_outcome_witness :
  setitem antisym_pair [1; 1] (VInt 5) = Raise ValueError ↔
    length [1; 1] = nid antisym_pair ∧ in_range antisym_pair [1; 1]
    ∧ value_is0 (R:=Z) (VInt 5) = false ∧ antisym_conflict antisym_pair [1; 1].
Proof.
  refine (proj1 (proj2 (proj2 (setitem_outcome (R:=Z) antisym_pair [1; 1] (VInt 5) _)))).
  repeat split; reflexivity.
Defined.

(** ** Laws of the coefficient ring *)

Section RingLaws.
Context {R : Type} `{Ring R} `{!CommRing R} `{SetListing}.

Lemma ring_almost :
  almost_ring_theory (zero_element : R) one_element radd rmul rsub rneg eq.
Proof. apply (Rth_ARth (Eqsth R) (Eq_ext _ _ _) ring_laws). Qed.

Lemma radd_0_r (x : R) : radd x zero_element = x.
Proof.
  pose proof ring_laws as Rth. rewrite (Radd_comm Rth). apply (Radd_0_l Rth).
Qed.

Lemma rmul_0_l (x : R) : rmul zero_element x = zero_element.
Proof. apply (ARmul_0_l ring_almost). Qed.

Lemma rmul_0_r (x : R) : rmul x zero_element = zero_element.
Proof. rewrite (ARmul_comm ring_almost). apply rmul_0_l. Qed.

Lemma rmul_rneg_r (x y : R) : rmul x (rneg y) = rneg (rmul x y).
Proof.
  rewrite (ARmul_comm ring_almost x (rneg y)), (ARmul_comm ring_almost x y).
  symmetry. apply (ARopp_mul_l ring_almost).
Qed.

Lemma rneg_radd (x y : R) : rneg (radd x y) = radd (rneg x) (rneg y).
Proof. apply (ARopp_add ring_almost). Qed.

Lemma radd_rneg_r (x : R) : radd x (rneg x) = zero_element.
Proof. apply (Ropp_def ring_laws). Qed.

End RingLaws.

(** ** Copies *)

Section StoreAll.
Context {R : Type} `{Ring R} `{SetListing}.

Lemma foldl_insert_notin (f : R → R) (src : list (list Z * R)) (m : gmap (list Z) R) k :
  k ∉ src.*1 →
  foldl (λ m (iv : list Z * R), <[iv.1 := f iv.2]> m) m src !! k = m !! k.
Proof.
  revert m. induction src as [| [k0 v0] src IH]; intros m Hk; [done |].
  rewrite fmap_cons in Hk. apply not_elem_of_cons in Hk as [Hne Hk].
  simpl. rewrite IH by done. simpl in Hne. by rewrite lookup_insert_ne.
Qed.

Lemma foldl_insert_in (f : R → R) (src : list (list Z * R)) (m : gmap (list Z) R) k v :
  NoDup src.*1 → (k, v) ∈ src →
  foldl (λ m (iv : list Z * R), <[iv.1 := f iv.2]> m) m src !! k = Some (f v).
Proof.
  revert m. induction src as [| [k0 v0] src IH]; intros m Hn Hin.
  { by apply elem_of_nil in Hin. }
  rewrite fmap_cons in Hn. apply NoDup_cons in Hn as [Hk0 Hn].
  apply elem_of_cons in Hin as [[= -> ->] | Hin]; simpl.
  - rewrite foldl_insert_notin by done. by rewrite lookup_insert_eq.
  - by apply IH.
Qed.

Lemma store_all_set_comp (f : R → R) src (r : Components R) :
  store_all f src r
  = set_comp r (foldl (λ m (iv : list Z * R), <[iv.1 := f iv.2]> m) (_comp r) src).
Proof.
  unfold store_all. revert r. induction src as [| iv src IH]; intros r.
  - simpl. by destruct r.
  - simpl. rewrite IH. by destruct r.
Qed.

Lemma store_all_items (f : R → R) (c r : Components R) :
  _comp r = ∅ → store_all f (items c) r = set_comp r (f <$> _comp c).
Proof.
  intros He. rewrite store_all_set_comp. f_equal. apply map_eq. intros k.
  rewrite lookup_fmap. unfold items.
  destruct (_comp c !! k) as [v |] eqn:Hk; simpl.
  - apply foldl_insert_in; [apply NoDup_fst_map_to_list |].
    by apply elem_of_map_to_list.
  - rewrite foldl_insert_notin; [by rewrite He, lookup_empty |].
    intros Hin. apply list_elem_of_fmap in Hin as ([k' v'] & -> & Hin).
    apply elem_of_map_to_list in Hin. simpl in Hk. congruence.
Qed.

Lemma _new_instance_well_formed (c : Components R) :
  well_formed c → _new_instance c = Ok (set_comp c ∅).
Proof.
  intros (Hv & Hcls & Hdim). unfold _new_instance, class_spec in *.
  destruct c as [k fr n d si fmt m s a]. simpl in *. subst d.
  destruct Hv as (Hs & Ha & Hr). simpl in *.
  destruct k.
  - destruct Hcls as [-> ->]. done.
  - by apply CompWithSym_init_intro.
  - destruct Hcls as [-> ->]. destruct n as [| [| n]]; [done | |].
    + simpl in Hs. discriminate.
    + rewrite CompFullySym_init_Ok by lia. done.
  - destruct Hcls as [-> ->]. destruct n as [| [| n]]; [done | |].
    + simpl in Ha. discriminate.
    + rewrite CompFullyAntiSym_init_Ok by lia. done.
Qed.

Lemma copy_well_formed (c : Components R) : well_formed c → copy c = Ok c.
Proof.
  intros Hwf. unfold copy. rewrite _new_instance_well_formed by done. simpl.
  rewrite store_all_items by done. f_equal.
  rewrite map_fmap_id. by destruct c.
Qed.

(** X9. [copy] and the unary plus return an exact copy of a well-formed
    store, and zero is neutral on the right: adding or subtracting an
    operand that compares equal to zero (the integer 0, the zero of the
    ring or a store whose components are all zero) returns the same exact
    copy, and the shape of a zero store is not even looked at. *)
Theorem copy_exact (c : Components R) (other : operand) :
  well_formed c →
  copy c = Ok c ∧ Components_pos c = Ok c
  ∧ (eq_zero other = true →
     add c other = Ok c ∧ sub c other = Ok c ∧ Components_radd c other = Ok c).
Proof.
  intros Hwf. pose proof (copy_well_formed c Hwf) as Hc.
  split; [done |]. split; [done |]. intros Hz.
  assert (Ha : add c other = Ok c).
  { unfold add, Components_add, sym_add, CompFully_add, CompWithSym_add.
    destruct (klass_of c); rewrite Hz; done. }
  split; [done |]. split; [| done].
  unfold sub. by rewrite Hz.
Qed.

End StoreAll.

Lemma copy_exact_witness :
  copy sym_pair_1 = Ok sym_pair_1 ∧ Components_pos sym_pair_1 = Ok sym_pair_1
  ∧ (eq_zero (OComp antisym_pair) = true →
     add sym_pair_1 (OComp antisym_pair) = Ok sym_pair_1
     ∧ sub sym_pair_1 (OComp antisym_pair) = Ok sym_pair_1
     ∧ Components_radd sym_pair_1 (OComp antisym_pair) = Ok sym_pair_1).
Proof.
  refine (copy_exact (R:=Z) sym_pair_1 (OComp antisym_pair) _).
  repeat split; reflexivity.
Defined.

(** ** Maps over the stored values *)

Section Mapped.
Context {R : Type} `{Ring R} `{SetListing}.

Lemma getitem_fmap (f : R → R) (c : Components R) (ind : list Z) :
  f zero_element = zero_element → (∀ v, f (rneg v) = rneg (f v)) →
  getitem (set_comp c (f <$> _comp c)) ind = f <$> getitem c ind.
Proof.
  intros Hf0 Hfn.
  pose proof (same_shape_set_comp c (f <$> _comp c)) as Hsh.
  unfold getitem, Components_getitem, CompWithSym_getitem, CompFullySym_getitem.
  rewrite (_check_indices_shape c _ ind Hsh), (_ordered_indices_shape c _ ind Hsh).
  cbn [klass_of set_comp _comp].
  destruct (klass_of c).
  - destruct (_check_indices c ind) as [k | |]; simpl; try done.
    rewrite lookup_fmap. destruct (_comp c !! k); simpl; by rewrite ?Hf0.
  - destruct (_ordered_indices c ind) as [[s [k |]] | |]; simpl; try done;
      rewrite ?lookup_fmap; [destruct (_comp c !! k); simpl |];
      repeat case_bool_decide; simpl; by rewrite ?Hf0, ?Hfn.
  - destruct (_ordered_indices c ind) as [[s [k |]] | |]; simpl; try done;
      rewrite ?lookup_fmap; [destruct (_comp c !! k); simpl |];
      repeat case_bool_decide; simpl; by rewrite ?Hf0, ?Hfn.
  - destruct (_ordered_indices c ind) as [[s [k |]] | |]; simpl; try done;
      rewrite ?lookup_fmap; [destruct (_comp c !! k); simpl |];
      repeat case_bool_decide; simpl; by rewrite ?Hf0, ?Hfn.
Qed.

End Mapped.

Section Scaling.
Context {R : Type} `{Ring R} `{!CommRing R} `{SetListing}.

Lemma getitem_Ok_checked (c : Components R) (ind : list Z) (v : R) :
  getitem c ind = Ok v → _check_indices c ind = Ok ind.
Proof.
  intros Hv.
  destruct (_check_indices_outcome c ind)
    as [(_ & Hc) | [(_ & _ & Hc) | (_ & _ & Hc)]]; [| | done];
    rewrite (getitem_unchecked _ _ _ Hc) in Hv; discriminate.
Qed.

Lemma well_formed_set_comp (c : Components R) m :
  well_formed c → well_formed (set_comp c m).
Proof. apply well_formed_same_shape, same_shape_set_comp. Qed.

Lemma Components_neg_well_formed (c : Components R) :
  well_formed c → Components_neg c = Ok (set_comp c (rneg <$> _comp c)).
Proof.
  intros Hwf. unfold Components_neg.
  rewrite _new_instance_well_formed by done. simpl.
  rewrite store_all_items by done. by destruct c.
Qed.

(** X10. The unary minus of a well-formed store succeeds, keeps the shape
    of the store, negates every component (in canonical position or not),
    and is an involution: the opposite of the opposite is the store
    itself. *)
Theorem neg_componentwise (c : Components R) :
  well_formed c →
  ∃ r, Components_neg c = Ok r ∧ same_shape c r
    ∧ (∀ ind v, getitem c ind = Ok v → getitem r ind = Ok (rneg v))
    ∧ Components_neg r = Ok c.
Proof.
  intros Hwf. exists (set_comp c (rneg <$> _comp c)).
  split; [by apply Components_neg_well_formed |].
  split; [apply same_shape_set_comp |]. split.
  - intros ind v Hv. rewrite getitem_fmap, Hv; [done | apply rneg_zero |].
    intros x. done.
  - rewrite Components_neg_well_formed by by apply well_formed_set_comp.
    f_equal. destruct c as [k fr n d si fmt m s a]. unfold set_comp. simpl. f_equal.
    rewrite <- map_fmap_compose. rewrite <- (map_fmap_id m) at 2.
    apply map_fmap_ext. intros i x _. simpl. apply rneg_involutive.
Qed.

(** X11. The product [x * c] of a well-formed store by an element [x] of
    the ring succeeds, keeps the shape of the store and multiplies every
    component by [x]; a product by a store is not implemented. *)
Theorem rmul_componentwise (c : Components R) (x : R) (o : Components R) :
  well_formed c →
  (∃ r, Components_rmul c (OScalar x) = Ok r ∧ same_shape c r
     ∧ ∀ ind v, getitem c ind = Ok v → getitem r ind = Ok (rmul x v))
  ∧ Components_rmul c (OComp o) = Raise NotImplementedError.
Proof.
  intros Hwf. split; [| done]. unfold Components_rmul.
  rewrite _new_instance_well_formed by done. simpl.
  destruct (is0 x) eqn:Hx.
  - exists (set_comp c ∅). split; [done |]. split; [apply same_shape_set_comp |].
    intros ind v Hv. apply bool_decide_eq_true in Hx. subst x. rewrite rmul_0_l.
    assert (Hex : ∃ w, getitem (set_comp c ∅) ind = Ok w).
    { apply getitem_checked.
      rewrite (_check_indices_shape c) by apply same_shape_set_comp.
      by eapply getitem_Ok_checked. }
    destruct Hex as [w Hw]. rewrite Hw. f_equal.
    by apply (getitem_empty (set_comp c ∅) ind).
  - exists (set_comp c (rmul x <$> _comp c)).
    rewrite store_all_items by done.
    split; [by destruct c |]. split; [apply same_shape_set_comp |].
    intros ind v Hv. rewrite getitem_fmap, Hv; [done | apply rmul_0_r |].
    apply rmul_rneg_r.
Qed.

End Scaling.

Lemma neg_componentwise_witness :
  ∃ r, Components_neg sym_pair_1 = Ok r ∧ same_shape sym_pair_1 r
    ∧ (∀ ind v, getitem sym_pair_1 ind = Ok v → getitem r ind = Ok (rneg v))
    ∧ Components_neg r = Ok sym_pair_1.
Proof.
  refine (neg_componentwise (R:=Z) sym_pair_1 _). repeat split; reflexivity.
Defined.

Lemma rmul_componentwise_witness :
  (∃ r, Components_rmul sym_pair_1 (OScalar 5) = Ok r ∧ same_shape sym_pair_1 r
     ∧ ∀ ind v, getitem sym_pair_1 ind = Ok v → getitem r ind = Ok (rmul 5 v))
  ∧ Components_rmul sym_pair_1 (OComp antisym_pair) = Raise NotImplementedError.
Proof.
  refine (rmul_componentwise (R:=Z) sym_pair_1 5 antisym_pair _).
  repeat split; reflexivity.
Defined.

(** ** Zeros in the dictionary *)

Section DelZeros.
Context {R : Type} `{Ring R} `{SetListing}.

Lemma foldl_delete_set_comp (keys : list (list Z)) (r : Components R) :
  foldl (λ r ind, set_comp r (delete ind (_comp r))) r keys
  = set_comp r (foldl (λ m ind, delete ind m) (_comp r) keys).
Proof.
  revert r. induction keys as [| k keys IH]; intros r; simpl.
  - by destruct r.
  - rewrite IH. by destruct r.
Qed.

Lemma foldl_delete_lookup (keys : list (list Z)) (m : gmap (list Z) R) k :
  foldl (λ m ind, delete ind m) m keys !! k
  = if bool_decide (k ∈ keys) then None else m !! k.
Proof.
  revert m. induction keys as [| k0 keys IH]; intros m; cbn [foldl].
  - rewrite bool_decide_eq_false_2; [done | apply not_elem_of_nil].
  - rewrite IH. destruct (decide (k ∈ keys)) as [Hin | Hin].
    + rewrite !bool_decide_eq_true_2; [done | | done]. apply elem_of_cons; by right.
    + rewrite (bool_decide_eq_false_2 (k ∈ keys)) by done.
      destruct (decide (k = k0)) as [-> | Hne].
      * rewrite bool_decide_eq_true_2 by (apply elem_of_cons; by left).
        apply lookup_delete_eq.
      * rewrite bool_decide_eq_false_2.
        -- by rewrite lookup_delete_ne.
        -- intros [? | ?]%elem_of_cons; done.
Qed.

Lemma _del_zeros_lookup (c : Components R) k :
  _comp (_del_zeros c) !! k
  = match _comp c !! k with
    | Some v => if is0 v then None else Some v
    | None => None
    end.
Proof.
  unfold _del_zeros. rewrite foldl_delete_set_comp. cbn [_comp set_comp].
  rewrite foldl_delete_lookup.
  set (zs := (λ iv : list Z * R, iv.1) <$> List.filter (λ iv, is0 iv.2) (items c)).
  assert (Hin : k ∈ zs ↔ ∃ v, _comp c !! k = Some v ∧ is0 v = true).
  { unfold zs. rewrite list_elem_of_fmap. split.
    - intros ([k' v] & -> & Hf). apply list_elem_of_In, filter_In in Hf as [Hi Hz].
      apply list_elem_of_In, elem_of_map_to_list in Hi. eauto.
    - intros (v & Hk & Hz). exists (k, v). split; [done |].
      apply list_elem_of_In, filter_In. split; [| done].
      by apply list_elem_of_In, elem_of_map_to_list. }
  destruct (_comp c !! k) as [v |] eqn:Hk.
  - destruct (is0 v) eqn:Hz.
    + rewrite bool_decide_eq_true_2; [done |]. apply Hin. eauto.
    + rewrite bool_decide_eq_false_2; [done |].
      intros (v' & [= <-] & Hz')%Hin. congruence.
  - rewrite bool_decide_eq_false_2; [done |]. by intros (v' & ? & _)%Hin.
Qed.

Lemma _del_zeros_shape (c : Components R) : same_shape c (_del_zeros c).
Proof. unfold _del_zeros. rewrite foldl_delete_set_comp. apply same_shape_set_comp. Qed.

End DelZeros.

Section DelZerosTheorem.
Context {R : Type} `{Ring R} `{!CommRing R} `{SetListing}.

(** X12. [_del_zeros] restores the invariant of the dictionary without
    changing the store as it is read: afterwards no stored value is zero,
    the shape is the same and every component reads as before; a store
    that holds no zero is left as it is. *)
Theorem _del_zeros_spec (c : Components R) :
  no_zero_entry (_del_zeros c)
  ∧ same_shape c (_del_zeros c)
  ∧ (∀ ind, getitem (_del_zeros c) ind = getitem c ind)
  ∧ (no_zero_entry c → _del_zeros c = c).
Proof.
  split; [| split; [apply _del_zeros_shape | split]].
  - intros k v. rewrite _del_zeros_lookup.
    destruct (_comp c !! k) as [w |]; [| done].
    destruct (is0 w) eqn:Hz; [done |]. intros [= <-] ->.
    unfold is0 in Hz. by rewrite bool_decide_eq_true_2 in Hz.
  - intros ind. pose proof (_del_zeros_shape c) as Hsh.
    pose proof (_del_zeros_lookup c) as Hl.
    unfold getitem, Components_getitem, CompWithSym_getitem, CompFullySym_getitem.
    rewrite (_check_indices_shape c _ ind Hsh), (_ordered_indices_shape c _ ind Hsh).
    destruct Hsh as (<- & _).
    assert (Hz : ∀ w : R, is0 w = true → w = zero_element).
    { intros w Hw. by apply bool_decide_eq_true in Hw. }
    destruct (klass_of c).
    + destruct (_check_indices c ind) as [k | |]; simpl; try done.
      rewrite Hl. destruct (_comp c !! k) as [w |]; [| done].
      destruct (is0 w) eqn:Hw; [| done]. by rewrite (Hz w Hw).
    + destruct (_ordered_indices c ind) as [[s [k |]] | |]; simpl; try done.
      rewrite Hl. destruct (_comp c !! k) as [w |]; simpl; [| done].
      destruct (is0 w) eqn:Hw; simpl; [| done].
      rewrite (Hz w Hw). repeat case_bool_decide; simpl; by rewrite ?rneg_zero.
    + destruct (_ordered_indices c ind) as [[s [k |]] | |]; simpl; try done.
      rewrite Hl. destruct (_comp c !! k) as [w |]; simpl; [| done].
      destruct (is0 w) eqn:Hw; simpl; [| done]. by rewrite (Hz w Hw).
    + destruct (_ordered_indices c ind) as [[s [k |]] | |]; simpl; try done.
      rewrite Hl. destruct (_comp c !! k) as [w |]; simpl; [| done].
      destruct (is0 w) eqn:Hw; simpl; [| done].
      rewrite (Hz w Hw). repeat case_bool_decide; simpl; by rewrite ?rneg_zero.
  - intros Hnz. pose proof (_del_zeros_shape c) as Hsh.
    assert (Hm : _comp (_del_zeros c) = _comp c).
    { apply map_eq. intros k. rewrite _del_zeros_lookup.
      destruct (_comp c !! k) as [w |] eqn:Hk; [| done].
      destruct (is0 w) eqn:Hw; [| done].
      apply bool_decide_eq_true in Hw. by destruct (Hnz k w Hk). }
    destruct Hsh as (? & ? & ? & ? & ? & ? & ? & ?).
    destruct c, (_del_zeros _); simpl in *; congruence.
Qed.

End DelZerosTheorem.

Lemma _del_zeros_spec_witness :
  no_zero_entry (_del_zeros sym_pair_1)
  ∧ same_shape sym_pair_1 (_del_zeros sym_pair_1)
  ∧ (∀ ind, getitem (_del_zeros sym_pair_1) ind = getitem sym_pair_1 ind)
  ∧ (no_zero_entry sym_pair_1 → _del_zeros sym_pair_1 = sym_pair_1).
Proof. exact (_del_zeros_spec (R:=Z) sym_pair_1). Defined.

(** ** Access through the canonical key *)

Section Keyed.
Context {R : Type} `{Ring R} `{!CommRing R} `{SetListing}.

Lemma signed_zero (s : Z) : signed s (zero_element : R) = zero_element.
Proof. unfold signed. case_bool_decide; [done | apply rneg_zero]. Qed.

Lemma is0_signed (s : Z) (v : R) : is0 (signed s v) = is0 v.
Proof.
  unfold signed. case_bool_decide; [done |]. unfold is0.
  destruct (decide (v = zero_element)) as [-> | Hv].
  - by rewrite rneg_zero.
  - rewrite !bool_decide_eq_false_2; [done | done |]. by apply rneg_nonzero.
Qed.

Lemma signed_signed (s : Z) (v : R) : signed s (signed s v) = v.
Proof. unfold signed. case_bool_decide; [done | apply rneg_involutive]. Qed.

Lemma signed_radd (s : Z) (x y : R) : signed s (radd x y) = radd (signed s x) (signed s y).
Proof. unfold signed. case_bool_decide; [done | apply rneg_radd]. Qed.

Lemma _ordered_indices_plain (c : Components R) (ind : list Z) :
  sym c = [] → antisym c = [] →
  _ordered_indices c ind = (λ k, (1, Some k)) <$> _check_indices c ind.
Proof.
  intros Hs Ha. unfold _ordered_indices. rewrite Hs, Ha.
  by destruct (_check_indices c ind).
Qed.

(** What [self[[ind]]] returns, from the sign and the canonical key. *)
Lemma getitem_key (c : Components R) (ind : list Z) (s : Z) (key : list Z) :
  well_formed c → _ordered_indices c ind = Ok (s, Some key) →
  getitem c ind = Ok (signed s (default zero_element (_comp c !! key))).
Proof.
  intros (_ & Hcls & _) Hi.
  destruct (_ordered_indices_cases _ _ _ _ Hi) as [[_ ?] | [Hs _]]; [done |].
  unfold getitem, Components_getitem, CompWithSym_getitem, CompFullySym_getitem.
  unfold class_spec in Hcls. destruct (klass_of c) eqn:Hk.
  - destruct Hcls as [Hsy Ha]. rewrite _ordered_indices_plain in Hi by done.
    destruct (_check_indices c ind) as [k | |]; simpl in *; try discriminate.
    injection Hi as <- <-. by destruct (_comp c !! k).
  - rewrite Hi. simpl. rewrite (bool_decide_eq_false_2 (s = 0)) by lia.
    destruct (_comp c !! key) as [w |] eqn:Hl; simpl;
      rewrite ?signed_zero; unfold signed; by repeat case_bool_decide.
  - destruct Hcls as [_ Ha].
    destruct (_ordered_indices_no_antisym _ _ _ _ Ha Hi) as [-> _].
    rewrite Hi. simpl. by destruct (_comp c !! key) as [w |] eqn:Hl.
  - rewrite Hi. simpl. rewrite (bool_decide_eq_false_2 (s = 0)) by lia.
    destruct (_comp c !! key) as [w |] eqn:Hl; simpl;
      rewrite ?signed_zero; unfold signed; by repeat case_bool_decide.
Qed.

(** When an antisymmetry forces the component to zero. *)
Lemma getitem_conflict (c : Components R) (ind : list Z) (s : Z) :
  well_formed c → _ordered_indices c ind = Ok (s, None) →
  getitem c ind = Ok zero_element.
Proof.
  intros (_ & Hcls & _) Hi.
  destruct (_ordered_indices_cases _ _ _ _ Hi) as [[-> _] | [_ [? ?]]]; [| done].
  unfold getitem, Components_getitem, CompWithSym_getitem, CompFullySym_getitem.
  unfold class_spec in Hcls. destruct (klass_of c) eqn:Hk.
  - destruct Hcls as [Hsy Ha]. rewrite _ordered_indices_plain in Hi by done.
    destruct (_check_indices c ind) as [k | |]; simpl in *; discriminate.
  - by rewrite Hi.
  - by rewrite Hi.
  - by rewrite Hi.
Qed.

(** What [self[[ind]] = v] does to the dictionary, from the sign and the
    canonical key. *)
Lemma setitem_key (c : Components R) (ind : list Z) (s : Z) (key : list Z) (v : R) :
  well_formed c → _ordered_indices c ind = Ok (s, Some key) →
  setitem c ind (VRing v) = Ok (set_comp c (upd (_comp c) key (signed s v))).
Proof.
  intros (_ & Hcls & _) Hi.
  destruct (_ordered_indices_cases _ _ _ _ Hi) as [[_ ?] | [Hs _]]; [done |].
  assert (Hgoal : ∀ x, x = (if is0 v then
                          match _comp c !! key with
                          | Some _ => Ok (set_comp c (delete key (_comp c)))
                          | None => Ok c
                          end
                        else Ok (set_comp c (<[key := signed s v]> (_comp c)))) →
            x = Ok (set_comp c (upd (_comp c) key (signed s v)))).
  { intros x ->. unfold upd. rewrite is0_signed. destruct (is0 v); [| done].
    destruct (_comp c !! key) eqn:Hl; [done |].
    by rewrite delete_id, set_comp_id. }
  apply Hgoal.
  unfold setitem, Components_setitem, CompWithSym_setitem, CompFullySym_setitem.
  cbn [value_is0 ring_of].
  unfold class_spec in Hcls. destruct (klass_of c) eqn:Hk.
  - destruct Hcls as [Hsy Ha]. rewrite _ordered_indices_plain in Hi by done.
    destruct (_check_indices c ind) as [k | |]; simpl in *; try discriminate.
    injection Hi as <- <-. done.
  - rewrite Hi. simpl. rewrite (bool_decide_eq_false_2 (s = 0)) by lia.
    destruct (is0 v).
    + by destruct (_comp c !! key) eqn:Hl.
    + unfold signed. by destruct (bool_decide (s = 1)).
  - destruct Hcls as [_ Ha].
    destruct (_ordered_indices_no_antisym _ _ _ _ Ha Hi) as [-> _].
    rewrite Hi. simpl. destruct (is0 v); [| done].
    by destruct (_comp c !! key) eqn:Hl.
  - rewrite Hi. simpl. rewrite (bool_decide_eq_false_2 (s = 0)) by lia.
    destruct (is0 v).
    + by destruct (_comp c !! key) eqn:Hl.
    + unfold signed. by destruct (bool_decide (s = 1)).
Qed.

End Keyed.

(** ** The keys of the dictionary *)

Section Canonical.
Context {R : Type} `{Ring R} `{SetListing}.

Lemma canonical_keys_empty (c : Components R) : _comp c = ∅ → canonical_keys c.
Proof. intros He k v. by rewrite He, lookup_empty. Qed.

Lemma canonical_keys_delete (c : Components R) (key : list Z) :
  canonical_keys c → canonical_keys (set_comp c (delete key (_comp c))).
Proof.
  intros Hc k v. cbn [_comp set_comp]. intros Hl.
  apply lookup_delete_Some in Hl as [_ Hl]. exact (Hc k v Hl).
Qed.

Lemma canonical_keys_insert (c : Components R) (key : list Z) (x : R) :
  _check_indices c key = Ok key → is_ordered c key = true →
  canonical_keys c → canonical_keys (set_comp c (<[key := x]> (_comp c))).
Proof.
  intros Hk Ho Hc k v. cbn [_comp set_comp]. intros Hl.
  apply lookup_insert_Some in Hl as [[<- _] | [_ Hl]]; [done |]. exact (Hc k v Hl).
Qed.

Lemma canonical_keys_upd (c : Components R) (key : list Z) (x : R) :
  _check_indices c key = Ok key → is_ordered c key = true →
  canonical_keys c → canonical_keys (set_comp c (upd (_comp c) key x)).
Proof.
  intros Hk Ho Hc. unfold upd. destruct (is0 x).
  - by apply canonical_keys_delete.
  - by apply canonical_keys_insert.
Qed.

(** An assignment leaves the store as it is, deletes the canonical key of
    its index, or binds it. *)
Lemma setitem_comp_cases (c c' : Components R) (ind : list Z) (v : value) :
  well_formed c → setitem c ind v = Ok c' →
  c' = c
  ∨ ∃ s key, _ordered_indices c ind = Ok (s, Some key)
      ∧ (c' = set_comp c (delete key (_comp c))
         ∨ ∃ x, c' = set_comp c (<[key := x]> (_comp c))).
Proof.
  intros (_ & Hcls & _).
  unfold setitem, Components_setitem, CompWithSym_setitem, CompFullySym_setitem.
  unfold class_spec in Hcls. destruct (klass_of c) eqn:Hk.
  - destruct Hcls as [Hsy Ha]. rewrite _ordered_indices_plain by done.
    destruct (_check_indices c ind) as [k | |]; simpl; try discriminate.
    destruct (value_is0 v); [destruct (_comp c !! k) |]; intros [= <-]; eauto 8.
  - destruct (_ordered_indices c ind) as [[s [k |]] | |]; simpl; try discriminate;
      repeat (case_match; try discriminate); intros [= <-]; eauto 8 using set_comp_id.
  - destruct (_ordered_indices c ind) as [[s [k |]] | |]; simpl; try discriminate;
      repeat (case_match; try discriminate); intros [= <-]; eauto 8 using set_comp_id.
  - destruct (_ordered_indices c ind) as [[s [k |]] | |]; simpl; try discriminate;
      repeat (case_match; try discriminate); intros [= <-]; eauto 8 using set_comp_id.
Qed.

Lemma canonical_keys_setitem (c c' : Components R) (ind : list Z) (v : value) :
  well_formed c → canonical_keys c → setitem c ind v = Ok c' → canonical_keys c'.
Proof.
  intros Hwf Hc Hs.
  destruct (setitem_comp_cases _ _ _ _ Hwf Hs) as [-> | (s & key & Hi & [-> | [x ->]])];
    [done | by apply canonical_keys_delete |].
  destruct Hwf as (Hv & _).
  destruct (_ordered_indices_key _ _ _ _ Hv Hi) as [Hk Ho].
  by apply canonical_keys_insert.
Qed.

Lemma assignments_invariant (l : list (list Z * value)) (c c' : Components R) :
  well_formed c → canonical_keys c →
  foldM (λ c iv, setitem c iv.1 iv.2) l c = Ok c' →
  well_formed c' ∧ same_shape c c' ∧ canonical_keys c'.
Proof.
  revert c. induction l as [| iv l IH]; intros c Hwf Hc; simpl.
  - intros [= <-]. split; [done |]. split; [apply same_shape_refl | done].
  - destruct (setitem c iv.1 iv.2) as [c1 | |] eqn:Hs; simpl; try discriminate.
    intros Hl. apply IH in Hl as (Hwf' & Hsh & Hc').
    + split; [done |]. split; [| done].
      eapply same_shape_trans; [| exact Hsh]. by eapply setitem_shape.
    + by eapply setitem_well_formed.
    + by eapply canonical_keys_setitem.
Qed.

End Canonical.

Section CanonicalTheorem.
Context {R : Type} `{Ring R} `{SetListing}.

(** X13. The storage stays non-redundant under assignments: starting
    from a well-formed store whose keys are valid index tuples in
    canonical form (an empty store is one), any sequence of assignments
    that runs to its end gives a store of the same shape whose keys are
    again valid tuples in canonical form, and every key of the result was
    a key at the start or is the canonical form of an assigned index. *)
Theorem assignments_keep_canonical_keys (l : list (list Z * value))
    (c c' : Components R) :
  well_formed c → canonical_keys c →
  foldM (λ c iv, setitem c iv.1 iv.2) l c = Ok c' →
  well_formed c' ∧ same_shape c c' ∧ canonical_keys c'
  ∧ ∀ k, is_Some (_comp c' !! k) →
      is_Some (_comp c !! k)
      ∨ ∃ iv s, iv ∈ l ∧ _ordered_indices c iv.1 = Ok (s, Some k).
Proof.
  revert c. induction l as [| iv l IH]; intros c Hwf Hc; simpl.
  - intros [= <-]. split; [done |]. split; [apply same_shape_refl |]. split; [done |]. auto.
  - destruct (setitem c iv.1 iv.2) as [c1 | |] eqn:Hs; simpl; try discriminate.
    intros Hl. pose proof (setitem_shape _ _ _ _ Hs) as Hsh1.
    apply IH in Hl as (Hwf' & Hsh & Hc' & Hkeys).
    2: by eapply setitem_well_formed.
    2: by eapply canonical_keys_setitem.
    split; [done |]. split; [by eapply same_shape_trans |]. split; [done |].
    intros k Hk. destruct (Hkeys k Hk) as [Hk1 | (iv' & s & Hin & Hoi)].
    + destruct (setitem_comp_cases _ _ _ _ Hwf Hs)
        as [-> | (s & key & Hi & [-> | [x ->]])]; [by left | |].
      * left. cbn [_comp set_comp] in Hk1. destruct Hk1 as [w Hw].
        apply lookup_delete_Some in Hw as [_ Hw]. eauto.
      * cbn [_comp set_comp] in Hk1. destruct Hk1 as [w Hw].
        apply lookup_insert_Some in Hw as [[<- _] | [_ Hw]]; [| eauto].
        right. exists iv, s. split; [by left | done].
    + right. exists iv', s. split; [by right |].
      by rewrite <- (_ordered_indices_shape c c1).
Qed.

End CanonicalTheorem.

Lemma assignments_keep_canonical_keys_witness :
  let c' := mkComponents cCompWithSym frame3 2 3 0 None {[ [0; 1] := -3 ]} [] [[0; 1]%nat] in
  well_formed c' ∧ same_shape antisym_pair c' ∧ canonical_keys c'
  ∧ ∀ k, is_Some (_comp c' !! k) →
      is_Some (_comp antisym_pair !! k)
      ∨ ∃ iv s, iv ∈ [([1; 0], @VInt Z 3)]
          ∧ _ordered_indices antisym_pair iv.1 = Ok (s, Some k).
Proof.
  refine (assignments_keep_canonical_keys (R:=Z) [([1; 0], VInt 3)] antisym_pair _ _ _ _).
  - repeat split; reflexivity.
  - by apply canonical_keys_empty.
  - reflexivity.
Defined.

(** ** Zero stores *)

Section Zero.
Context {R : Type} `{Ring R} `{!CommRing R} `{SetListing}.

(** [is_zero] looks at the stored values only. *)
Lemma is_zero_values (c : Components R) :
  is_zero c = true ↔ ∀ k, default zero_element (_comp c !! k) = zero_element.
Proof.
  unfold is_zero. case_bool_decide as He.
  { split; [| done]. intros _ k. by rewrite He, lookup_empty. }
  rewrite forallb_forall. split.
  - intros Hall k. destruct (_comp c !! k) as [w |] eqn:Hl; [| done]. simpl.
    apply elem_of_map_to_list in Hl. apply list_elem_of_In in Hl.
    specialize (Hall _ Hl). by apply bool_decide_eq_true in Hall.
  - intros Hall [k w] Hin. apply list_elem_of_In, elem_of_map_to_list in Hin.
    specialize (Hall k). rewrite Hin in Hall. simpl in *.
    by apply bool_decide_eq_true.
Qed.

(** Every in-range index has a sign and a key, or is forced to zero. *)
Lemma getitem_read (c : Components R) (ind : list Z) (v : R) :
  well_formed c → getitem c ind = Ok v →
  (∃ s, _ordered_indices c ind = Ok (s, None) ∧ v = zero_element)
  ∨ (∃ s key, _ordered_indices c ind = Ok (s, Some key)
       ∧ v = signed s (default zero_element (_comp c !! key))).
Proof.
  intros Hwf Hg. pose proof (getitem_Ok_checked _ _ _ Hg) as Hc.
  destruct (_ordered_indices_outcome c ind (proj1 Hwf) Hc)
    as [[_ Hi] | [_ (s & key & Hi & _)]].
  - left. exists 0. split; [done |].
    rewrite (getitem_conflict _ _ _ Hwf Hi) in Hg. congruence.
  - right. exists s, key. split; [done |].
    rewrite (getitem_key _ _ _ _ Hwf Hi) in Hg. congruence.
Qed.

Lemma is_zero_reads (c : Components R) :
  well_formed c → canonical_keys c →
  (is_zero c = true ↔ ∀ ind v, getitem c ind = Ok v → v = zero_element).
Proof.
  intros Hwf Hc. rewrite is_zero_values. split.
  - intros Hall ind v Hg.
    destruct (getitem_read _ _ _ Hwf Hg) as [(s & _ & ->) | (s & key & _ & ->)]; [done |].
    by rewrite Hall, signed_zero.
  - intros Hall k. destruct (_comp c !! k) as [w |] eqn:Hl; [| done]. simpl.
    destruct (Hc k w Hl) as [Hk Ho]. apply (Hall k).
    by rewrite (getitem_canonical _ _ Hk Ho), Hl.
Qed.

(** X14. Over a commutative ring, for a well-formed store whose keys
    are valid tuples in canonical form: [is_zero] answers True exactly
    when every component reads as zero, and the comparisons [c == 0] and
    [c != 0] return this answer and its negation. *)
Theorem is_zero_all_components (c : Components R) :
  well_formed c → canonical_keys c →
  (is_zero c = true ↔ ∀ ind v, getitem c ind = Ok v → v = zero_element)
  ∧ Components_eq c (OInt 0) = Ok (is_zero c)
  ∧ Components_ne c (OInt 0) = Ok (negb (is_zero c)).
Proof.
  intros Hwf Hc. split; [by apply is_zero_reads |]. done.
Qed.

End Zero.

Lemma is_zero_all_components_witness :
  (is_zero sym_pair_1 = true ↔ ∀ ind v, getitem sym_pair_1 ind = Ok v → v = zero_element)
  ∧ Components_eq sym_pair_1 (OInt 0) = Ok (is_zero sym_pair_1)
  ∧ Components_ne sym_pair_1 (OInt 0) = Ok (negb (is_zero sym_pair_1)).
Proof.
  refine (is_zero_all_components (R:=Z) sym_pair_1 _ _).
  - repeat split; reflexivity.
  - intros k v Hl. cbn [_comp sym_pair_1] in Hl.
    apply lookup_singleton_Some in Hl as [<- _]. split; reflexivity.
Defined.

(** ** Sums and differences of stores with the same symmetries *)

Section Sums.
Context {R : Type} `{Ring R} `{!CommRing R} `{SetListing}.

Lemma rsub_zero_iff (x y : R) : radd x (rneg y) = zero_element ↔ x = y.
Proof.
  pose proof ring_laws as Rth. split.
  - intros Hxy.
    rewrite <- (Radd_0_l Rth y), <- Hxy, <- (Radd_assoc Rth).
    rewrite (Radd_comm Rth (rneg y) y), (Ropp_def Rth y).
    by rewrite radd_0_r.
  - intros ->. apply radd_rneg_r.
Qed.

Lemma same_symmetries_dim (a b : Components R) :
  well_formed a → well_formed b → same_symmetries a b → dim a = dim b.
Proof. intros (_ & _ & Ha) (_ & _ & Hb) (_ & Hf & _). by rewrite Ha, Hb, Hf. Qed.

Lemma _check_indices_symmetries (a b : Components R) (ind : list Z) :
  well_formed a → well_formed b → same_symmetries a b →
  _check_indices b ind = _check_indices a ind.
Proof.
  intros Ha Hb Hs. pose proof (same_symmetries_dim a b Ha Hb Hs) as Hd.
  destruct Hs as (_ & _ & Hn & Hsi & _). unfold _check_indices.
  by rewrite Hn, Hd, Hsi.
Qed.

Lemma _ordered_indices_symmetries (a b : Components R) (ind : list Z) :
  well_formed a → well_formed b → same_symmetries a b →
  _ordered_indices b ind = _ordered_indices a ind.
Proof.
  intros Ha Hb Hs. unfold _ordered_indices.
  rewrite (_check_indices_symmetries a b) by done.
  destruct Hs as (_ & _ & _ & _ & Hsy & Hasy). by rewrite Hsy, Hasy.
Qed.

Lemma is_ordered_symmetries (a b : Components R) (ind : list Z) :
  same_symmetries a b → is_ordered b ind = is_ordered a ind.
Proof. intros (_ & _ & _ & _ & Hsy & Hasy). unfold is_ordered. by rewrite Hsy, Hasy. Qed.

Lemma canonical_keys_symmetries (a b : Components R) :
  well_formed a → well_formed b → same_symmetries a b →
  canonical_keys b → ∀ k v, _comp b !! k = Some v →
    _check_indices a k = Ok k ∧ is_ordered a k = true.
Proof.
  intros Ha Hb Hs Hc k v Hl. destruct (Hc k v Hl) as [Hk Ho].
  by rewrite <- (_check_indices_symmetries a b), <- (is_ordered_symmetries a b).
Qed.

Lemma canonical_keys_fmap (f : R → R) (c : Components R) :
  canonical_keys c → canonical_keys (set_comp c (f <$> _comp c)).
Proof.
  intros Hc k v. cbn [_comp set_comp]. rewrite lookup_fmap.
  destruct (_comp c !! k) as [w |] eqn:Hl; [| done]. intros _. exact (Hc k w Hl).
Qed.

(** [result[[ind]] += val] at a canonical key *)
Lemma add_at_key (r : Components R) (k : list Z) (v : R) :
  well_formed r → _check_indices r k = Ok k → is_ordered r k = true →
  add_at r (k, v) = Ok (set_comp r (sum_step (_comp r) (k, v))).
Proof.
  intros Hwf Hk Ho. unfold add_at, sum_step. cbn [fst snd].
  rewrite (getitem_canonical _ _ Hk Ho). simpl.
  by rewrite (setitem_key r k 1 k) by (done || by apply _ordered_indices_canonical).
Qed.

Lemma add_at_loop (l : list (list Z * R)) (r : Components R) :
  well_formed r →
  (∀ iv, iv ∈ l → _check_indices r iv.1 = Ok iv.1 ∧ is_ordered r iv.1 = true) →
  foldM add_at l r = Ok (set_comp r (foldl sum_step (_comp r) l)).
Proof.
  revert r. induction l as [| [k v] l IH]; intros r Hwf Hl; simpl.
  - by rewrite set_comp_id.
  - destruct (Hl (k, v)) as [Hk Ho]; [by left |].
    rewrite (add_at_key _ _ _ Hwf Hk Ho). simpl.
    rewrite IH; [done | by apply well_formed_set_comp |].
    intros iv Hiv. apply (Hl iv). by right.
Qed.

Lemma foldl_sum_step_notin (l : list (list Z * R)) (m : gmap (list Z) R) k :
  k ∉ l.*1 → foldl sum_step m l !! k = m !! k.
Proof.
  revert m. induction l as [| [k' v] l IH]; intros m Hk; [done |].
  rewrite fmap_cons, not_elem_of_cons in Hk. destruct Hk as [Hne Hk].
  simpl. rewrite IH by done. unfold sum_step. simpl. by apply upd_lookup_ne.
Qed.

Lemma foldl_sum_step_in (l : list (list Z * R)) (m : gmap (list Z) R) k v :
  NoDup l.*1 → (k, v) ∈ l →
  foldl sum_step m l !! k
  = (if is0 (radd (default zero_element (m !! k)) v) then None
     else Some (radd (default zero_element (m !! k)) v)).
Proof.
  revert m. induction l as [| [k' v'] l IH]; intros m Hn Hin; [by apply elem_of_nil in Hin |].
  rewrite fmap_cons in Hn. apply NoDup_cons in Hn as [Hk' Hn]. simpl in Hk'.
  apply elem_of_cons in Hin as [[= <- <-] | Hin]; simpl.
  - rewrite foldl_sum_step_notin by done. unfold sum_step. simpl. apply upd_lookup_eq.
  - assert (Hne : k' ≠ k).
    { intros ->. apply Hk'. apply list_elem_of_fmap. by exists (k, v). }
    rewrite IH by done. unfold sum_step at 1 2. simpl.
    by rewrite upd_lookup_ne by done.
Qed.

Lemma sum_store_default (a b : gmap (list Z) R) k :
  default zero_element (foldl sum_step a (map_to_list b) !! k)
  = radd (default zero_element (a !! k)) (default zero_element (b !! k)).
Proof.
  destruct (b !! k) as [v |] eqn:Hb; simpl.
  - rewrite (foldl_sum_step_in _ _ k v).
    + destruct (is0 _) eqn:Hz; [| done]. simpl. by apply bool_decide_eq_true in Hz.
    + apply NoDup_fst_map_to_list.
    + by apply elem_of_map_to_list.
  - rewrite foldl_sum_step_notin, radd_0_r; [done |].
    intros Hin. apply list_elem_of_fmap in Hin as ([k' v] & -> & Hin).
    apply elem_of_map_to_list in Hin. simpl in Hb. congruence.
Qed.

Lemma sum_store_keys (a b : gmap (list Z) R) k :
  is_Some (foldl sum_step a (map_to_list b) !! k) → is_Some (a !! k) ∨ is_Some (b !! k).
Proof.
  destruct (b !! k) as [v |] eqn:Hb; [eauto |].
  rewrite foldl_sum_step_notin; [by left |].
  intros Hin. apply list_elem_of_fmap in Hin as ([k' v] & -> & Hin).
  apply elem_of_map_to_list in Hin. simpl in Hb. congruence.
Qed.

Lemma sum_store_no_zero (a b : gmap (list Z) R) k v :
  (∀ k v, a !! k = Some v → v ≠ zero_element) →
  foldl sum_step a (map_to_list b) !! k = Some v → v ≠ zero_element.
Proof.
  intros Ha. destruct (b !! k) as [w |] eqn:Hb.
  - rewrite (foldl_sum_step_in _ _ k w);
      [| apply NoDup_fst_map_to_list | by apply elem_of_map_to_list].
    destruct (is0 _) eqn:Hz; [done |]. intros [= <-]. by apply bool_decide_eq_false in Hz.
  - rewrite foldl_sum_step_notin; [apply Ha |].
    intros Hin. apply list_elem_of_fmap in Hin as ([k' v'] & -> & Hin).
    apply elem_of_map_to_list in Hin. simpl in Hb. congruence.
Qed.

(** The sum with a zero operand. *)
Lemma add_zero_operand (self : Components R) (other : operand) :
  well_formed self → eq_zero other = true → add self other = Ok self.
Proof.
  intros Hwf Hz.
  unfold add, Components_add, sym_add, CompFully_add, CompWithSym_add, Components_pos.
  rewrite Hz. rewrite (copy_well_formed _ Hwf). by destruct (klass_of self).
Qed.

(** The sum of two stores with the same symmetries works on the
    dictionary of the left operand. *)
Lemma add_unfold (self other : Components R) :
  well_formed self → same_symmetries self other → is_zero other = false →
  add self (OComp other) = foldM add_at (items other) self.
Proof.
  intros Hwf (Hk & Hf & Hn & Hsi & Hsy & Hasy) Hz.
  assert (Hchk : check_same_shape self other = Ok ()).
  { unfold check_same_shape.
    by rewrite !bool_decide_eq_false_2 by (intros Hne; by apply Hne). }
  unfold add, Components_add, sym_add, CompFully_add, CompWithSym_add.
  cbn [eq_zero]. rewrite Hz, Hchk, <- Hk, <- Hsy, <- Hasy.
  unfold same_groups. rewrite !bool_decide_eq_true_2 by done.
  rewrite (copy_well_formed _ Hwf).
  by destruct (klass_of self).
Qed.

Lemma add_same_symmetries (self other : Components R) :
  well_formed self → well_formed other → same_symmetries self other →
  canonical_keys other →
  ∃ m, add self (OComp other) = Ok (set_comp self m)
    ∧ (∀ k, default zero_element (m !! k)
            = radd (default zero_element (_comp self !! k))
                (default zero_element (_comp other !! k)))
    ∧ (∀ k, is_Some (m !! k) → is_Some (_comp self !! k) ∨ is_Some (_comp other !! k))
    ∧ (no_zero_entry self → ∀ k v, m !! k = Some v → v ≠ zero_element).
Proof.
  intros Hwf Hwo Hs Hc. destruct (is_zero other) eqn:Hz.
  - exists (_comp self). rewrite set_comp_id. split; [by apply add_zero_operand |].
    split; [| split; [by left | done]].
    intros k. apply is_zero_values with (k := k) in Hz. by rewrite Hz, radd_0_r.
  - exists (foldl sum_step (_comp self) (map_to_list (_comp other))).
    rewrite add_unfold by done. split; [| split; [| split]].
    + apply add_at_loop; [done |]. intros [k v] Hin.
      apply elem_of_map_to_list in Hin. by apply (canonical_keys_symmetries self other) with v.
    + apply sum_store_default.
    + apply sum_store_keys.
    + intros Hnz k v. by apply sum_store_no_zero.
Qed.

(** Reading a store whose dictionary combines, key by key, those of two
    stores with the same symmetries. *)
Lemma read_combined (f : R → R → R) (self other : Components R) m :
  well_formed self → well_formed other → same_symmetries self other →
  f zero_element zero_element = zero_element →
  (∀ x y, f (rneg x) (rneg y) = rneg (f x y)) →
  (∀ k, default zero_element (m !! k)
        = f (default zero_element (_comp self !! k))
            (default zero_element (_comp other !! k))) →
  ∀ ind a b, getitem self ind = Ok a → getitem other ind = Ok b →
    getitem (set_comp self m) ind = Ok (f a b).
Proof.
  intros Hwf Hwo Hs Hf0 Hfn Hm ind a b Ha Hb.
  pose proof (_ordered_indices_symmetries self other ind Hwf Hwo Hs) as Ho.
  pose proof (_ordered_indices_shape self (set_comp self m) ind
                (same_shape_set_comp _ _)) as Hr.
  pose proof (well_formed_set_comp self m Hwf) as Hwr.
  destruct (getitem_read _ _ _ Hwf Ha) as [(s & Hi & ->) | (s & key & Hi & ->)].
  - rewrite Hi in Ho, Hr.
    rewrite (getitem_conflict _ _ _ Hwo Ho) in Hb. injection Hb as <-.
    by rewrite (getitem_conflict _ _ _ Hwr Hr), Hf0.
  - rewrite Hi in Ho, Hr.
    rewrite (getitem_key _ _ _ _ Hwo Ho) in Hb. injection Hb as <-.
    rewrite (getitem_key _ _ _ _ Hwr Hr). cbn [_comp set_comp]. rewrite Hm.
    unfold signed. destruct (bool_decide (s = 1)); [done | by rewrite Hfn].
Qed.

(** The difference, on the dictionary. *)
Lemma sub_same_symmetries (self other : Components R) :
  well_formed self → well_formed other → same_symmetries self other →
  canonical_keys other →
  ∃ m, sub self (OComp other) = Ok (set_comp self m)
    ∧ (∀ k, default zero_element (m !! k)
            = radd (default zero_element (_comp self !! k))
                (rneg (default zero_element (_comp other !! k))))
    ∧ (∀ k, is_Some (m !! k) → is_Some (_comp self !! k) ∨ is_Some (_comp other !! k)).
Proof.
  intros Hwf Hwo Hs Hc. unfold sub. cbn [eq_zero]. destruct (is_zero other) eqn:Hz.
  - exists (_comp self). rewrite set_comp_id. split; [by apply copy_well_formed |].
    split; [| by left].
    intros k. apply is_zero_values with (k := k) in Hz. by rewrite Hz, rneg_zero, radd_0_r.
  - cbn [neg_operand]. rewrite (Components_neg_well_formed _ Hwo). simpl.
    destruct (add_same_symmetries self (set_comp other (rneg <$> _comp other)))
      as (m & Hadd & Hm & Hkeys & _);
      [done | by apply well_formed_set_comp | done | by apply canonical_keys_fmap |].
    exists m. split; [done |]. cbn [_comp set_comp] in Hm, Hkeys. split.
    + intros k. rewrite Hm, lookup_fmap.
      destruct (_comp other !! k); simpl; by rewrite ?rneg_zero.
    + intros k Hk. destruct (Hkeys k Hk) as [? | Ho]; [by left |].
      right. by rewrite lookup_fmap, fmap_is_Some in Ho.
Qed.

End Sums.

Section SumTheorems.
Context {R : Type} `{Ring R} `{!CommRing R} `{SetListing}.

Lemma canonical_keys_combined (self other : Components R) m :
  well_formed self → well_formed other → same_symmetries self other →
  canonical_keys self → canonical_keys other →
  (∀ k, is_Some (m !! k) → is_Some (_comp self !! k) ∨ is_Some (_comp other !! k)) →
  canonical_keys (set_comp self m).
Proof.
  intros Hwf Hwo Hs Hcs Hco Hkeys k v Hl. cbn [_comp set_comp] in Hl.
  destruct (Hkeys k) as [[w Hw] | [w Hw]]; [by eexists | |].
  - exact (Hcs k w Hw).
  - exact (canonical_keys_symmetries self other Hwf Hwo Hs Hco k w Hw).
Qed.

(** Two stores with the same symmetries read the same everywhere exactly
    when their dictionaries hold the same values. *)
Lemma same_reads_iff (a b : Components R) :
  well_formed a → well_formed b → same_symmetries a b →
  canonical_keys a → canonical_keys b →
  (∀ k, default zero_element (_comp a !! k) = default zero_element (_comp b !! k))
  ↔ ∀ ind, getitem a ind = getitem b ind.
Proof.
  intros Hwa Hwb Hs Hca Hcb.
  pose proof (_check_indices_symmetries a b) as Hchk.
  pose proof (_ordered_indices_symmetries a b) as Hord.
  split.
  - intros Hd ind.
    destruct (_check_indices_outcome a ind)
      as [(Hl & Hc) | [(Hl & Hr & Hc) | (Hl & Hr & Hc)]].
    + rewrite (getitem_unchecked _ _ _ Hc). symmetry. apply getitem_unchecked.
      by rewrite Hchk.
    + rewrite (getitem_unchecked _ _ _ Hc). symmetry. apply getitem_unchecked.
      by rewrite Hchk.
    + destruct (_ordered_indices_outcome a ind (proj1 Hwa) Hc)
        as [[_ Hi] | [_ (s & key & Hi & _)]].
      * rewrite (getitem_conflict _ _ _ Hwa Hi). symmetry.
        apply (getitem_conflict b ind 0); [done |]. by rewrite Hord.
      * rewrite (getitem_key _ _ _ _ Hwa Hi), Hd. symmetry.
        apply getitem_key; [done |]. by rewrite Hord.
  - intros Hg k.
    assert (Hcan : _check_indices a k = Ok k ∧ is_ordered a k = true →
              default zero_element (_comp a !! k) = default zero_element (_comp b !! k)).
    { intros [Hk Ho]. specialize (Hg k).
      rewrite (getitem_canonical a k Hk Ho) in Hg.
      rewrite (getitem_canonical b k) in Hg; [congruence | |].
      - by rewrite Hchk.
      - by rewrite (is_ordered_symmetries a b). }
    destruct (_comp a !! k) as [w |] eqn:Ha.
    { rewrite <- Ha. rewrite <- Ha in Hcan. apply Hcan. exact (Hca k w Ha). }
    destruct (_comp b !! k) as [w |] eqn:Hb; [| done].
    rewrite <- Hb. rewrite <- Ha, <- Hb in Hcan. rewrite <- Ha. apply Hcan.
    exact (canonical_keys_symmetries a b Hwa Hwb Hs Hcb k w Hb).
Qed.

(** X15. Over a commutative ring, the sum of two well-formed stores of
    one class with the same frame, number of indices, start index and
    groups, the right one with valid canonical keys, succeeds, has the
    shape of the left operand and is the sum component by component, at
    every index, canonical or not; [__radd__] returns the same. The sum
    stores no zero when the left operand stores none, and has valid
    canonical keys when the left operand has. *)
Theorem add_componentwise (self other : Components R) :
  well_formed self → well_formed other → same_symmetries self other →
  canonical_keys other →
  ∃ r, add self (OComp other) = Ok r
    ∧ Components_radd self (OComp other) = Ok r
    ∧ same_shape self r
    ∧ (canonical_keys self → canonical_keys r)
    ∧ (no_zero_entry self → no_zero_entry r)
    ∧ ∀ ind a b, getitem self ind = Ok a → getitem other ind = Ok b →
        getitem r ind = Ok (radd a b).
Proof.
  intros Hwf Hwo Hs Hc.
  destruct (add_same_symmetries self other Hwf Hwo Hs Hc) as (m & Hadd & Hm & Hkeys & Hnz).
  exists (set_comp self m). split; [done |]. split; [done |].
  split; [apply same_shape_set_comp |]. split; [| split].
  - intros Hcs. by apply (canonical_keys_combined self other).
  - intros Hn k v. by apply Hnz.
  - apply (read_combined radd self other); try done.
    + apply radd_0_r.
    + intros x y. by rewrite rneg_radd.
Qed.

(** X16. Over a commutative ring, the difference of two well-formed
    stores of one class with the same frame, number of indices, start
    index and groups, the right one with valid canonical keys, succeeds,
    has the shape of the left operand and is the difference component by
    component; [0 - c], which Python sends to [__rsub__], is [-c]. *)
Theorem sub_componentwise (self other : Components R) :
  well_formed self → well_formed other → same_symmetries self other →
  canonical_keys other →
  (∃ r, sub self (OComp other) = Ok r
     ∧ same_shape self r
     ∧ (canonical_keys self → canonical_keys r)
     ∧ ∀ ind a b, getitem self ind = Ok a → getitem other ind = Ok b →
         getitem r ind = Ok (rsub a b))
  ∧ ∃ n, Components_neg self = Ok n ∧ Components_rsub self (OInt 0) = Ok n.
Proof.
  intros Hwf Hwo Hs Hc. split.
  - destruct (sub_same_symmetries self other Hwf Hwo Hs Hc) as (m & Hsub & Hm & Hkeys).
    exists (set_comp self m). split; [done |].
    split; [apply same_shape_set_comp |]. split.
    + intros Hcs. by apply (canonical_keys_combined self other).
    + apply (read_combined rsub self other); try done.
      * unfold rsub. by rewrite rneg_zero, radd_0_r.
      * intros x y. unfold rsub. by rewrite rneg_radd.
  - exists (set_comp self (rneg <$> _comp self)).
    split; [by apply Components_neg_well_formed |].
    unfold Components_rsub. rewrite (Components_neg_well_formed _ Hwf). simpl.
    apply add_zero_operand; [by apply well_formed_set_comp | done].
Qed.

(** X17. Over a commutative ring, the comparison [a == b] of two
    well-formed stores of one class with the same frame, number of
    indices, start index and groups, both with valid canonical keys,
    returns a truth value, [a != b] its negation, and the value is True
    exactly when the two output formatters are equal and every index
    reads the same in [a] and in [b]. *)
Theorem eq_extensional (a b : Components R) :
  well_formed a → well_formed b → same_symmetries a b →
  canonical_keys a → canonical_keys b →
  ∃ t, Components_eq a (OComp b) = Ok t
    ∧ Components_ne a (OComp b) = Ok (negb t)
    ∧ (t = true ↔ output_formatter b = output_formatter a
                  ∧ ∀ ind, getitem a ind = getitem b ind).
Proof.
  intros Hwa Hwb Hs Hca Hcb.
  destruct (sub_same_symmetries a b Hwa Hwb Hs Hcb) as (m & Hsub & Hm & _).
  pose proof Hs as (_ & Hf & Hn & Hsi & _).
  unfold Components_ne, Components_eq.
  rewrite !bool_decide_eq_false_2 by (intros Hne; by apply Hne).
  case_bool_decide as Hfmt.
  { exists false. split; [done |]. split; [done |]. split; [done |]. by intros [? _]. }
  rewrite Hsub. simpl. exists (is_zero (set_comp a m)).
  split; [done |]. split; [done |].
  rewrite is_zero_values. cbn [_comp set_comp].
  rewrite <- (same_reads_iff a b) by done. split.
  - intros Hz. split; [by destruct (decide (output_formatter b = output_formatter a)) |].
    intros k. apply rsub_zero_iff. by rewrite <- Hm.
  - intros [_ Hd] k. rewrite Hm. by apply rsub_zero_iff.
Qed.

End SumTheorems.

Lemma sym_pair_1_well_formed : well_formed sym_pair_1.
Proof. repeat split; reflexivity. Qed.

Lemma sym_pair_1_canonical : canonical_keys sym_pair_1.
Proof.
  intros k v Hl. cbn [_comp sym_pair_1] in Hl.
  apply lookup_singleton_Some in Hl as [<- _]. split; reflexivity.
Qed.

Lemma add_componentwise_witness :
  ∃ r, add sym_pair_1 (OComp sym_pair_1) = Ok r
    ∧ Components_radd sym_pair_1 (OComp sym_pair_1) = Ok r
    ∧ same_shape sym_pair_1 r
    ∧ (canonical_keys sym_pair_1 → canonical_keys r)
    ∧ (no_zero_entry sym_pair_1 → no_zero_entry r)
    ∧ ∀ ind a b, getitem sym_pair_1 ind = Ok a → getitem sym_pair_1 ind = Ok b →
        getitem r ind = Ok (radd a b).
Proof.
  refine (add_componentwise (R:=Z) sym_pair_1 sym_pair_1 _ _ _ _).
  - apply sym_pair_1_well_formed.
  - apply sym_pair_1_well_formed.
  - repeat split; reflexivity.
  - apply sym_pair_1_canonical.
Defined.

Lemma sub_componentwise_witness :
  (∃ r, sub sym_pair_1 (OComp sym_pair_1) = Ok r
     ∧ same_shape sym_pair_1 r
     ∧ (canonical_keys sym_pair_1 → canonical_keys r)
     ∧ ∀ ind a b, getitem sym_pair_1 ind = Ok a → getitem sym_pair_1 ind = Ok b →
         getitem r ind = Ok (rsub a b))
  ∧ ∃ n, Components_neg sym_pair_1 = Ok n ∧ Components_rsub sym_pair_1 (OInt 0) = Ok n.
Proof.
  refine (sub_componentwise (R:=Z) sym_pair_1 sym_pair_1 _ _ _ _).
  - apply sym_pair_1_well_formed.
  - apply sym_pair_1_well_formed.
  - repeat split; reflexivity.
  - apply sym_pair_1_canonical.
Defined.

Lemma eq_extensional_witness :
  ∃ t, Components_eq sym_pair_1 (OComp sym_pair_1) = Ok t
    ∧ Components_ne sym_pair_1 (OComp sym_pair_1) = Ok (negb t)
    ∧ (t = true ↔ output_formatter sym_pair_1 = output_formatter sym_pair_1
                  ∧ ∀ ind, getitem sym_pair_1 ind = getitem sym_pair_1 ind).
Proof.
  refine (eq_extensional (R:=Z) sym_pair_1 sym_pair_1 _ _ _ _ _).
  - apply sym_pair_1_well_formed.
  - apply sym_pair_1_well_formed.
  - repeat split; reflexivity.
  - apply sym_pair_1_canonical.
  - apply sym_pair_1_canonical.
Defined.

(** ** What the symmetrizations return *)

Section Symmetrization.
Context {R : Type} `{Ring R} `{SetListing}.

Lemma SymmetricGroup_list_nonempty (n : nat) : SymmetricGroup_list n ≠ [].
Proof.
  unfold SymmetricGroup_list. intros He.
  pose proof (permutations_refl (seq 0 n)) as Hin. rewrite He in Hin.
  by apply elem_of_nil in Hin.
Qed.

Lemma getitem_list_raises (self : Components R) (ind : list Z) :
  ∃ e, getitem_list self ind = Raise e ∧ (e = TypeError ∨ e = IndexError).
Proof. unfold getitem_list. case_bool_decide; eauto. Qed.

(** The sum over the permutations raises at its first term. *)
Lemma symmetrized_sum_raises (sg : bool) (self : Components R) (pos : list nat)
    (ind : list Z) :
  ∃ e, foldM (λ sum perm_action,
           v ← getitem_list self (permuted_index ind pos perm_action);
           if sg && negb (bool_decide (perm_sign perm_action = 1))
           then Ok (rsub sum v) else Ok (radd sum v))
         (SymmetricGroup_list (length pos)) (rofZ 0) = Raise e
    ∧ e = (if bool_decide (nid self ≠ 1%nat) then TypeError else IndexError).
Proof.
  destruct (SymmetricGroup_list (length pos)) as [| p ps] eqn:Hl.
  { by apply SymmetricGroup_list_nonempty in Hl. }
  simpl. unfold getitem_list. case_bool_decide; simpl; eauto.
Qed.

(** The filling loop returns the store it was given, when there is no
    index to fill, and raises otherwise. *)
Lemma fill_symmetrized_outcome (sg : bool) (self : Components R) (pos : list nat)
    (r0 : Components R) :
  match non_redundant_index_generator r0 with
  | Ok [] => fill_symmetrized sg self pos r0 = Ok r0
  | Ok (_ :: _) =>
      fill_symmetrized sg self pos r0
      = Raise (if bool_decide (nid self ≠ 1%nat) then TypeError else IndexError)
  | Raise e => fill_symmetrized sg self pos r0 = Raise e
  | OutOfFuel => fill_symmetrized sg self pos r0 = OutOfFuel
  end.
Proof.
  unfold fill_symmetrized.
  destruct (non_redundant_index_generator r0) as [[| ind inds] | |]; simpl; try done.
  destruct (symmetrized_sum_raises sg self pos ind) as (e & -> & ->). done.
Qed.

Lemma fill_symmetrized_Ok (sg : bool) (self : Components R) (pos : list nat)
    (r0 r : Components R) :
  fill_symmetrized sg self pos r0 = Ok r → r = r0.
Proof.
  pose proof (fill_symmetrized_outcome sg self pos r0) as Ho.
  destruct (non_redundant_index_generator r0) as [[| ind inds] | |];
    rewrite Ho; congruence.
Qed.

Lemma init_as_empty k fr nb si fmt s a (r : Components R) :
  CompWithSym_init_as k fr nb si fmt s a = Ok r → _comp r = ∅.
Proof. intros Hc. by apply CompWithSym_init_valid in Hc as (_ & _ & _ & _ & _ & _ & _ & ? & _). Qed.

Lemma fresh_fill_empty (sg : bool) (self : Components R) (pos : list nat)
    (mk : result (Components R)) (r : Components R) :
  (∀ r0, mk = Ok r0 → _comp r0 = ∅) →
  (r0 ← mk; fill_symmetrized sg self pos r0) = Ok r → _comp r = ∅.
Proof.
  intros Hmk. destruct mk as [r0 | |]; simpl; try discriminate.
  intros Hf. apply fill_symmetrized_Ok in Hf as ->. by apply Hmk.
Qed.

Lemma symmetrize_Ok (c : Components R) (pos : option (list nat)) (r : Components R) :
  symmetrize c pos = Ok r → copy c = Ok r ∨ _comp r = ∅.
Proof.
  unfold symmetrize, Components_symmetrize, CompWithSym_symmetrize.
  assert (Hw : (p ← positions_arg c pos;
                let pos_set : gset nat := list_to_set p in
                if already_present pos_set (sym c) then copy c
                else
                  match interference pos_set (antisym c) [] with
                  | None =>
                      CompFullySym_init (frame c) (nid c) (sindex c) (output_formatter c)
                  | Some antisym_res =>
                      let sym_res := merged_groups pos_set (sym c) in
                      result_ ←
                        (if bool_decide (max_len sym_res = nid c) then
                           CompFullySym_init (frame c) (nid c) (sindex c)
                             (output_formatter c)
                         else
                           CompWithSym_init (frame c) (nid c) (sindex c)
                             (output_formatter c) (SymList sym_res) (SymList antisym_res));
                      fill_symmetrized false c p result_
                  end) = Ok r → copy c = Ok r ∨ _comp r = ∅).
  { destruct (positions_arg c pos) as [p | |]; simpl; try discriminate.
    destruct (already_present _ _); [by left |].
    destruct (interference _ _ _) as [antisym_res |].
    - intros Hf. right. revert Hf. apply fresh_fill_empty.
      intros r0. case_bool_decide; apply init_as_empty.
    - intros Hf. right. by apply init_as_empty in Hf. }
  destruct (klass_of c); try exact Hw.
  destruct (positions_arg c pos) as [p | |]; simpl; try discriminate.
  intros Hf. right. revert Hf. apply fresh_fill_empty.
  intros r0. case_bool_decide; apply init_as_empty.
Qed.

Lemma antisymmetrize_Ok (c : Components R) (pos : option (list nat)) (r : Components R) :
  antisymmetrize c pos = Ok r → copy c = Ok r ∨ _comp r = ∅.
Proof.
  unfold antisymmetrize, Components_antisymmetrize, CompWithSym_antisymmetrize.
  assert (Hw : (p ← positions_arg c pos;
                let pos_set : gset nat := list_to_set p in
                if already_present pos_set (antisym c) then copy c
                else
                  match interference pos_set (sym c) [] with
                  | None =>
                      CompFullyAntiSym_init (frame c) (nid c) (sindex c)
                        (output_formatter c)
                  | Some sym_res =>
                      let antisym_res := merged_groups pos_set (antisym c) in
                      result_ ←
                        (if bool_decide (max_len antisym_res = nid c) then
                           CompFullyAntiSym_init (frame c) (nid c) (sindex c)
                             (output_formatter c)
                         else
                           CompWithSym_init (frame c) (nid c) (sindex c)
                             (output_formatter c) (SymList sym_res) (SymList antisym_res));
                      fill_symmetrized true c p result_
                  end) = Ok r → copy c = Ok r ∨ _comp r = ∅).
  { destruct (positions_arg c pos) as [p | |]; simpl; try discriminate.
    destruct (already_present _ _); [by left |].
    destruct (interference _ _ _) as [sym_res |].
    - intros Hf. right. revert Hf. apply fresh_fill_empty.
      intros r0. case_bool_decide; apply init_as_empty.
    - intros Hf. right. by apply init_as_empty in Hf. }
  destruct (klass_of c); try exact Hw.
  destruct (positions_arg c pos) as [p | |]; simpl; try discriminate.
  intros Hf. right. revert Hf. apply fresh_fill_empty.
  intros r0. case_bool_decide; apply init_as_empty.
Qed.

End Symmetrization.

Section SymmetrizationTheorem.
Context {R : Type} `{Ring R} `{SetListing}.

Lemma chain_ok_replicate (n : nat) (x : Z) : chain_ok false (replicate n x) = true.
Proof.
  induction n as [| n IH]; [done |].
  destruct n as [| n]; [done |]. cbn [replicate] in *.
  rewrite chain_ok_cons2, Z.ltb_irrefl. exact IH.
Qed.

Lemma gather_replicate (n : nat) (x : Z) (g : list nat) :
  Forall (λ p, (p < n)%nat) g → gather (replicate n x) g = replicate (length g) x.
Proof.
  intros Hg. unfold gather. induction Hg as [| p g Hp _ IH]; [done |].
  rewrite fmap_cons, IH. simpl. f_equal.
  by rewrite list_lookup_total_alt, lookup_replicate_2.
Qed.

(** A fresh store without antisymmetry, with one index at least over a
    frame that is not empty, has an index to fill. *)
Lemma sym_generator_nonempty (r0 : Components R) :
  valid_spec r0 → class_spec r0 → antisym r0 = [] →
  (1 ≤ nid r0)%nat → (1 ≤ dim r0)%nat →
  ∃ ind inds, non_redundant_index_generator r0 = Ok (ind :: inds).
Proof.
  intros Hv Hcls Ha Hn Hd. rewrite non_redundant_index_generator_spec by done.
  assert (Hin : In (replicate (nid r0) (sindex r0))
            (List.filter (is_ordered r0) (all_indices (sindex r0) (dim r0) (nid r0)))).
  { apply filter_In. split.
    - apply list_elem_of_In, all_indices_elem. split; [apply length_replicate |].
      apply Forall_replicate. lia.
    - unfold is_ordered. rewrite Ha. simpl. rewrite andb_true_r.
      apply forallb_forall. intros g Hg. rewrite group_ordered_chain_ok.
      destruct (valid_spec_groups _ Hv) as (Hs & _).
      rewrite Forall_forall in Hs. apply list_elem_of_In in Hg.
      destruct (Hs g Hg) as [_ Hp].
      rewrite gather_replicate by done. apply chain_ok_replicate. }
  destruct (List.filter _ _) as [| ind inds]; [done | eauto].
Qed.

Lemma positions_arg_outcome (c : Components R) (pos : option (list nat)) :
  (∃ p, positions_arg c pos = Ok p) ∨ positions_arg c pos = Raise TypeError.
Proof. unfold positions_arg. destruct pos; repeat case_bool_decide; eauto. Qed.

(** X18. The symmetrizations never compute a component: whenever
    [symmetrize] or [antisymmetrize] returns, in any class, the result is
    a copy of the store or an empty store, because the filling loop
    reads [self[[ind_perm]]] with a list inside the brackets and this
    access raises. On a plain store with two indices at least, over a
    frame that is not empty, [symmetrize] raises [TypeError] or
    [IndexError] for every choice of positions. *)
Theorem symmetrization_never_computes (c : Components R) (pos : option (list nat)) :
  (∀ r, symmetrize c pos = Ok r ∨ antisymmetrize c pos = Ok r →
        copy c = Ok r ∨ _comp r = ∅)
  ∧ (klass_of c = cComponents → (2 ≤ nid c)%nat → (1 ≤ frame_len (frame c))%nat →
     ∃ e, symmetrize c pos = Raise e ∧ (e = TypeError ∨ e = IndexError)).
Proof.
  split.
  { intros r [Hs | Ha]; [by eapply symmetrize_Ok | by eapply antisymmetrize_Ok]. }
  intros Hk Hn Hd. unfold symmetrize, Components_symmetrize. rewrite Hk.
  destruct (positions_arg_outcome c pos) as [[p ->] | ->]; [| eauto]. simpl.
  assert (Hfill : ∀ r0 : Components R,
            well_formed r0 → antisym r0 = [] → nid r0 = nid c →
            dim r0 = frame_len (frame c) →
            ∃ e, fill_symmetrized false c p r0 = Raise e ∧ (e = TypeError ∨ e = IndexError)).
  { intros r0 (Hv & Hcls & _) Ha Hnid Hdim.
    pose proof (fill_symmetrized_outcome false c p r0) as Ho.
    destruct (sym_generator_nonempty r0 Hv Hcls Ha) as (ind & inds & Hg); [lia | lia |].
    rewrite Hg in Ho. rewrite Ho. case_bool_decide; eauto. }
  case_bool_decide as Hlen.
  - rewrite CompFullySym_init_Ok by done. simpl. apply Hfill; [| done | done | done].
    repeat split; try done.
    + apply check_groups_intro. constructor; [| done].
      split; [rewrite length_seq; lia |].
      apply Forall_forall. intros q Hq. apply elem_of_seq in Hq. simpl. lia.
    + simpl. rewrite app_nil_r, app_nil_r. apply has_repeat_false, NoDup_seq.
    + unfold class_spec. simpl. by rewrite bool_decide_eq_false_2 by lia.
  - destruct (CompWithSym_init_as_outcome (R:=R) cCompWithSym (frame c) (nid c) (sindex c)
                (output_formatter c) (SymOne p) SymNone) as [[r0 Hr0] | Hr0];
      unfold CompWithSym_init; rewrite Hr0; simpl; [| eauto].
    pose proof (CompWithSym_init_well_formed _ _ _ _ _ _ _ Hr0) as Hwf.
    apply CompWithSym_init_valid in Hr0
      as (_ & _ & _ & Hnid & Hdim & _ & _ & _ & _ & Hant).
    apply Hfill; [done | | done | done]. simpl in Hant. congruence.
Qed.

End SymmetrizationTheorem.

Lemma symmetrization_never_computes_witness :
  copy sym_pair_1 = Ok sym_pair_1 ∨ _comp sym_pair_1 = ∅.
Proof.
  refine (proj1 (symmetrization_never_computes (R:=Z) sym_pair_1 None) sym_pair_1 _).
  left. reflexivity.
Defined.

(** ** Exchanging two indices *)

Lemma list_total_ext (l1 l2 : list Z) :
  length l1 = length l2 → (∀ i, l1 !!! i = l2 !!! i) → l1 = l2.
Proof.
  intros Hlen Hl. apply (list_eq_same_length _ _ (length l2)); [done | done |].
  intros i x y _ Hx Hy.
  apply list_lookup_total_correct in Hx, Hy. specialize (Hl i). congruence.
Qed.

Lemma insert_ext_at (ind' ind : list Z) (p i : nat) (v : Z) :
  length ind' = length ind → ind' !!! i = ind !!! i →
  <[p := v]> ind' !!! i = <[p := v]> ind !!! i.
Proof.
  intros Hlen Hi. destruct (decide (p = i)) as [-> | Hne].
  - destruct (decide (i < length ind)%nat).
    + by rewrite !list_lookup_total_insert_eq by lia.
    + by rewrite !list_insert_ge by lia.
  - by rewrite !list_lookup_total_insert_ne by done.
Qed.

Lemma scatter_ext_at (ind' ind : list Z) (g : list nat) (vals : list Z) (i : nat) :
  length ind' = length ind → ind' !!! i = ind !!! i →
  scatter ind' g vals !!! i = scatter ind g vals !!! i.
Proof.
  revert ind' ind vals. induction g as [| p g IH]; intros ind' ind vals Hlen Hi; [done |].
  destruct vals as [| v vals]; [done |]. simpl. apply IH.
  - by rewrite !length_insert.
  - by apply insert_ext_at.
Qed.

Lemma gather_eq_inv (l1 l2 : list Z) (g : list nat) :
  gather l1 g = gather l2 g → ∀ p, p ∈ g → l1 !!! p = l2 !!! p.
Proof.
  unfold gather. induction g as [| a g IH]; intros Heq p Hp; [by apply elem_of_nil in Hp |].
  rewrite !fmap_cons in Heq. injection Heq as Ha Hg.
  apply elem_of_cons in Hp as [-> | Hp]; [done | by apply IH].
Qed.

(** Writing a whole group erases what the positions of the group held. *)
Lemma scatter_agree (ind' ind : list Z) (g : list nat) (vals : list Z) :
  NoDup g → Forall (λ p, (p < length ind)%nat) g →
  length ind' = length ind → (∀ i, i ∉ g → ind' !!! i = ind !!! i) →
  length vals = length g →
  scatter ind' g vals = scatter ind g vals.
Proof.
  intros Hn Hr Hlen Hout Hv. apply list_total_ext.
  { by rewrite !scatter_length. }
  intros i. destruct (decide (i ∈ g)) as [Hi | Hi].
  - apply (gather_eq_inv _ _ g); [| done].
    rewrite !gather_scatter; try done. by rewrite Hlen.
  - rewrite !scatter_other by done. by apply Hout.
Qed.

Lemma swapped_sym (p q : nat) (ind' ind : list Z) :
  swapped p q ind' ind → swapped p q ind ind'.
Proof.
  intros (Hlen & Hp & Hq & Ho). split; [done |].
  destruct (decide (p = q)) as [-> | Hne].
  - repeat split; try done. intros i H1 H2. symmetry. by apply Ho.
  - repeat split; try done. intros i H1 H2. symmetry. by apply Ho.
Qed.

Lemma swap_positions_swapped (ind : list Z) (p q : nat) :
  (p < length ind)%nat → (q < length ind)%nat →
  swapped p q (swap_positions ind p q) ind.
Proof.
  intros Hp Hq. unfold swap_positions. split; [by rewrite !length_insert |].
  split; [by rewrite list_lookup_total_insert_eq by (rewrite length_insert; lia) |].
  split.
  - destruct (decide (p = q)) as [-> | Hne].
    + by rewrite list_lookup_total_insert_eq by (rewrite length_insert; lia).
    + rewrite list_lookup_total_insert_ne by done.
      by rewrite list_lookup_total_insert_eq by lia.
  - intros i H1 H2. by rewrite !list_lookup_total_insert_ne by done.
Qed.

Lemma swapped_transpose (p q : nat) (ind' ind : list Z) (i : nat) :
  swapped p q ind' ind → ind' !!! i = ind !!! transpose p q i.
Proof.
  intros (_ & Hp & Hq & Ho). unfold transpose.
  repeat case_bool_decide; subst; auto.
Qed.

#[local] Instance transpose_inj (p q : nat) : Inj (=) (=) (transpose p q).
Proof. intros x y. unfold transpose. repeat case_bool_decide; congruence. Qed.

Lemma transpose_involutive (p q i : nat) : transpose p q (transpose p q i) = i.
Proof. unfold transpose. repeat case_bool_decide; congruence. Qed.

Lemma transpose_in (p q : nat) (g : list nat) (i : nat) :
  p ∈ g → q ∈ g → i ∈ g → transpose p q i ∈ g.
Proof. intros Hp Hq Hi. unfold transpose. by repeat case_bool_decide. Qed.

Lemma transpose_Permutation (p q : nat) (g : list nat) :
  NoDup g → p ∈ g → q ∈ g → transpose p q <$> g ≡ₚ g.
Proof.
  intros Hn Hp Hq. apply NoDup_Permutation; [by apply (NoDup_fmap_2 _) | done |].
  intros x. rewrite list_elem_of_fmap. split.
  - intros (y & -> & Hy). by apply transpose_in.
  - intros Hx. exists (transpose p q x). split; [by rewrite transpose_involutive |].
    by apply transpose_in.
Qed.

Lemma swapped_gather_perm (p q : nat) (ind' ind : list Z) (g : list nat) :
  swapped p q ind' ind → NoDup g → p ∈ g → q ∈ g →
  gather ind' g ≡ₚ gather ind g.
Proof.
  intros Hs Hn Hp Hq. unfold gather.
  rewrite (list_fmap_ext _ ((λ i, ind !!! i) ∘ transpose p q) g).
  2: { intros i x _. simpl. by apply swapped_transpose. }
  rewrite list_fmap_compose. by rewrite transpose_Permutation.
Qed.

Lemma swapped_gather_other (p q : nat) (ind' ind : list Z) (g : list nat) :
  swapped p q ind' ind → p ∉ g → q ∉ g → gather ind' g = gather ind g.
Proof.
  intros (_ & _ & _ & Ho) Hp Hq. apply gather_ext. intros i Hi.
  apply Ho; intros ->; done.
Qed.

Lemma swapped_scatter (p q : nat) (ind' ind : list Z) (g : list nat) (vals : list Z) :
  swapped p q ind' ind → p ∉ g → q ∉ g →
  swapped p q (scatter ind' g vals) (scatter ind g vals).
Proof.
  intros (Hlen & Hp & Hq & Ho) Hpg Hqg. split; [by rewrite !scatter_length |].
  split; [by rewrite !scatter_other |]. split; [by rewrite !scatter_other |].
  intros i H1 H2. apply scatter_ext_at; [done |]. by apply Ho.
Qed.

Lemma Forall_positions_scatter (ind : list Z) (g : list nat) (vals : list Z)
    (gs : list (list nat)) :
  Forall (Forall (λ p, (p < length ind)%nat)) gs →
  Forall (Forall (λ p, (p < length (scatter ind g vals))%nat)) gs.
Proof.
  intros Hgs. eapply Forall_impl; [exact Hgs |]. intros g' Hg'. simpl.
  eapply Forall_impl; [exact Hg' |]. intros p Hp. simpl. by rewrite scatter_length.
Qed.

(** The symmetric pass on two tuples that differ by the exchange of two
    positions outside every group. *)
Lemma sym_pass_swapped_other (p q : nat) (ind' ind : list Z) (groups : list (list nat)) :
  swapped p q ind' ind → p ∉ concat groups → q ∉ concat groups →
  swapped p q (sym_pass ind' groups) (sym_pass ind groups).
Proof.
  revert ind' ind. induction groups as [| g gs IH]; intros ind' ind Hs Hp Hq; [done |].
  simpl in Hp, Hq. apply not_elem_of_app in Hp as [Hpg Hpgs].
  apply not_elem_of_app in Hq as [Hqg Hqgs].
  rewrite !sym_pass_cons. apply IH; [| done | done].
  rewrite (swapped_gather_other p q ind' ind) by done. by apply swapped_scatter.
Qed.

(** The symmetric pass on two tuples that differ by the exchange of two
    positions of one group. *)
Lemma sym_pass_swapped_in (p q : nat) (ind' ind : list Z) (groups : list (list nat))
    (g : list nat) :
  NoDup (concat groups) → Forall (Forall (λ p, (p < length ind)%nat)) groups →
  g ∈ groups → p ∈ g → q ∈ g → swapped p q ind' ind →
  sym_pass ind' groups = sym_pass ind groups.
Proof.
  revert ind' ind. induction groups as [| g0 gs IH]; intros ind' ind Hn Hr Hg Hp Hq Hs.
  { by apply elem_of_nil in Hg. }
  simpl in Hn. apply NoDup_app in Hn as (Hn0 & Hdis & Hngs).
  apply Forall_cons in Hr as [Hr0 Hrgs].
  rewrite !sym_pass_cons.
  assert (Hsub : g ∈ gs → ∀ i, i ∈ g → i ∈ concat gs).
  { intros Hin i Hi. apply elem_of_concat. eauto. }
  apply elem_of_cons in Hg as [-> | Hg].
  - rewrite (sorted_Permutation (gather ind' g0) (gather ind g0))
      by (by apply (swapped_gather_perm p q)).
    f_equal. destruct Hs as (Hlen & _ & _ & Ho).
    apply scatter_agree; try done.
    + intros i Hi. apply Ho; intros ->; done.
    + by rewrite sorted_length, gather_length.
  - assert (Hpg : p ∉ g0) by (intros Hin; by apply (Hdis p Hin), Hsub).
    assert (Hqg : q ∉ g0) by (intros Hin; by apply (Hdis q Hin), Hsub).
    rewrite (swapped_gather_other p q ind' ind) by done.
    apply (IH _ _ Hngs); try done.
    + by apply Forall_positions_scatter.
    + by apply swapped_scatter.
Qed.

Lemma has_repeat_Permutation (l l' : list Z) : l ≡ₚ l' → has_repeat l = has_repeat l'.
Proof.
  intros Hp. unfold has_repeat.
  assert (Hl : length l = length l') by (by rewrite Hp).
  assert (Hset : (list_to_set l : gset Z) = list_to_set l')
    by (by apply list_to_set_perm_L).
  by rewrite Hl, Hset.
Qed.

(** The sign of the whole pass is linear in the sign it starts from. *)
Lemma antisym_pass_neg (s : Z) (ind : list Z) (groups : list (list nat)) :
  antisym_pass (- s) ind groups
  = (- (antisym_pass s ind groups).1, (antisym_pass s ind groups).2).
Proof.
  revert s ind. induction groups as [| g gs IH]; intros s ind; [done |].
  cbn [antisym_pass]. destruct (has_repeat _); [done |].
  case_bool_decide; [| apply IH]. rewrite Z.mul_opp_l. apply IH.
Qed.

Lemma signature_transposition (a b : Z) :
  a ≠ b → signature ((λ i, (index_of i [b; a] + 1)%nat) <$> [a; b]) = -1.
Proof.
  intros Hab. simpl.
  rewrite (bool_decide_eq_false_2 (b = a)) by done.
  by rewrite !bool_decide_eq_true_2 by done.
Qed.

Lemma sorted_pair (a b : Z) : a < b → sorted [a; b] = [a; b] ∧ sorted [b; a] = [a; b].
Proof.
  intros Hab. assert (Hs : sorted [a; b] = [a; b]).
  { apply sorted_Sorted. repeat constructor. lia. }
  split; [done |]. rewrite <- Hs. apply sorted_Permutation, perm_swap.
Qed.

(** The antisymmetric pass on two tuples that differ by the exchange of
    the two positions of a group: the keys agree and the signs are
    opposite. *)
Lemma antisym_pass_swapped_pair (p q : nat) (s : Z) (ind' ind : list Z)
    (groups : list (list nat)) :
  NoDup (concat groups) → Forall (Forall (λ p, (p < length ind)%nat)) groups →
  [p; q] ∈ groups → swapped p q ind' ind →
  antisym_pass s ind' groups
  = (- (antisym_pass s ind groups).1, (antisym_pass s ind groups).2).
Proof.
  revert s ind' ind. induction groups as [| g0 gs IH]; intros s ind' ind Hn Hr Hg Hs.
  { by apply elem_of_nil in Hg. }
  simpl in Hn. apply NoDup_app in Hn as (Hn0 & Hdis & Hngs).
  apply Forall_cons in Hr as [Hr0 Hrgs].
  assert (Hsub : [p; q] ∈ gs → ∀ i, i ∈ [p; q] → i ∈ concat gs).
  { intros Hin i Hi. apply elem_of_concat. eauto. }
  apply elem_of_cons in Hg as [<- | Hg].
  - pose proof Hs as (Hlen & Hp & Hq & Ho).
    cbn [antisym_pass]. set (a := ind !!! p). set (b := ind !!! q).
    assert (Hg1 : gather ind [p; q] = [a; b]) by done.
    assert (Hg2 : gather ind' [p; q] = [b; a]).
    { unfold gather. cbn [fmap list_fmap]. by rewrite Hp, Hq. }
    rewrite Hg1, Hg2.
    rewrite (has_repeat_Permutation [b; a] [a; b]) by apply perm_swap.
    destruct (has_repeat [a; b]) eqn:Hrep; [done |].
    apply has_repeat_false in Hrep. apply NoDup_cons in Hrep as [Hab _].
    rewrite not_elem_of_cons in Hab. destruct Hab as [Hab _].
    assert (Hsc : ∀ vals, length vals = 2%nat →
              scatter ind' [p; q] vals = scatter ind [p; q] vals).
    { intros vals Hv. apply scatter_agree; try done.
      intros i Hi. apply Ho; intros ->; apply Hi; set_solver. }
    destruct (decide (a < b)) as [Hlt | Hge].
    + destruct (sorted_pair a b Hlt) as [Hs1 Hs2]. rewrite Hs1, Hs2.
      rewrite (bool_decide_eq_true_2 ([a; b] ≠ [b; a])) by congruence.
      rewrite (bool_decide_eq_false_2 ([a; b] ≠ [a; b])) by (intros Hne; by apply Hne).
      rewrite signature_transposition by done. rewrite Hsc by done.
      replace (s * -1) with (- s) by lia. apply antisym_pass_neg.
    + assert (Hlt : b < a) by lia.
      destruct (sorted_pair b a Hlt) as [Hs1 Hs2]. rewrite Hs1, Hs2.
      rewrite (bool_decide_eq_true_2 ([b; a] ≠ [a; b])) by congruence.
      rewrite (bool_decide_eq_false_2 ([b; a] ≠ [b; a])) by (intros Hne; by apply Hne).
      rewrite signature_transposition by done. rewrite Hsc by done.
      replace (s * -1) with (- s) by lia. rewrite antisym_pass_neg. simpl.
      rewrite Z.opp_involutive. by destruct (antisym_pass _ _ _).
  - assert (Hpg : p ∉ g0) by (intros Hin; apply (Hdis p Hin), Hsub; [done | set_solver]).
    assert (Hqg : q ∉ g0) by (intros Hin; apply (Hdis q Hin), Hsub; [done | set_solver]).
    cbn [antisym_pass]. rewrite (swapped_gather_other p q ind' ind) by done.
    destruct (has_repeat _); [done |].
    apply (IH _ _ _ Hngs); try done.
    + by apply Forall_positions_scatter.
    + by apply swapped_scatter.
Qed.

Section Exchange.
Context {R : Type} `{Ring R} `{SetListing}.

Lemma swapped_in_range (c : Components R) (p q : nat) (ind' ind : list Z) :
  swapped p q ind' ind → (p < length ind)%nat → (q < length ind)%nat →
  in_range c ind → in_range c ind'.
Proof.
  unfold in_range. intros Hs Hp Hq Hr. rewrite Forall_lookup_total in Hr |- *.
  intros i Hi. rewrite (swapped_transpose p q ind' ind i Hs). apply Hr.
  destruct Hs as (Hlen & _). unfold transpose. repeat case_bool_decide; lia.
Qed.

(** The index check does not see the exchange of two positions. *)
Lemma swapped_check (c : Components R) (p q : nat) (ind' ind : list Z) :
  swapped p q ind' ind → (p < length ind)%nat → (q < length ind)%nat →
  (_check_indices c ind = Ok ind ∧ _check_indices c ind' = Ok ind')
  ∨ (∃ e, _check_indices c ind = Raise e ∧ _check_indices c ind' = Raise e).
Proof.
  intros Hs Hp Hq. pose proof Hs as (Hlen & _).
  pose proof (swapped_in_range c p q ind' ind Hs Hp Hq) as Hto.
  pose proof (swapped_in_range c p q ind ind' (swapped_sym _ _ _ _ Hs)) as Hfrom.
  rewrite Hlen in Hfrom.
  destruct (_check_indices_outcome c ind)
    as [(Hl & Hc) | [(Hl & Hr & Hc) | (Hl & Hr & Hc)]];
    destruct (_check_indices_outcome c ind')
      as [(Hl' & Hc') | [(Hl' & Hr' & Hc') | (Hl' & Hr' & Hc')]];
    try (exfalso; congruence); eauto.
  - exfalso. apply Hr. by apply Hfrom.
  - exfalso. apply Hr'. by apply Hto.
Qed.

Lemma swap_positions_length (ind : list Z) (p q : nat) :
  length (swap_positions ind p q) = length ind.
Proof. unfold swap_positions. by rewrite !length_insert. Qed.

(** With a wrong number of indices both accesses raise [TypeError]. *)
Lemma swap_positions_wrong_length (c : Components R) (p q : nat) (ind : list Z) :
  length ind ≠ nid c →
  _check_indices c ind = Raise TypeError
  ∧ _check_indices c (swap_positions ind p q) = Raise TypeError.
Proof.
  intros Hl. unfold _check_indices. rewrite swap_positions_length.
  by rewrite bool_decide_eq_true_2.
Qed.

Lemma _ordered_indices_sym_swap (c : Components R) (g : list nat) (p q : nat)
    (ind' ind : list Z) :
  valid_spec c → g ∈ sym c → p ∈ g → q ∈ g → swapped p q ind' ind →
  _check_indices c ind = Ok ind → _check_indices c ind' = Ok ind' →
  _ordered_indices c ind' = _ordered_indices c ind.
Proof.
  intros Hv Hg Hp Hq Hs Hc Hc'. unfold _ordered_indices. rewrite Hc, Hc'. simpl.
  apply _check_indices_Ok in Hc as (_ & Hl & _).
  destruct (valid_spec_positions c ind Hv Hl) as (Hrs & _ & Hns & _).
  by rewrite (sym_pass_swapped_in p q ind' ind (sym c) g).
Qed.

Lemma _ordered_indices_antisym_swap (c : Components R) (p q : nat)
    (ind' ind : list Z) :
  valid_spec c → [p; q] ∈ antisym c → swapped p q ind' ind →
  _check_indices c ind = Ok ind → _check_indices c ind' = Ok ind' →
  ∃ s k, _ordered_indices c ind = Ok (s, k) ∧ _ordered_indices c ind' = Ok (- s, k).
Proof.
  intros Hv Hg Hs Hc Hc'. unfold _ordered_indices. rewrite Hc, Hc'. simpl.
  apply _check_indices_Ok in Hc as (_ & Hl & _).
  destruct (valid_spec_positions c ind Hv Hl) as (_ & Hra & _ & Hna & Hdis).
  assert (Hin : ∀ i, i ∈ [p; q] → i ∉ concat (sym c)).
  { intros i Hi Hsy. apply (Hdis i Hsy). apply elem_of_concat. eauto. }
  pose proof (sym_pass_swapped_other p q ind' ind (sym c) Hs) as Hsw.
  rewrite (antisym_pass_swapped_pair p q 1 (sym_pass ind' (sym c)) (sym_pass ind (sym c)));
    try done.
  - destruct (antisym_pass 1 (sym_pass ind (sym c)) (antisym c)) as [s k]. eauto.
  - eapply Forall_impl; [exact Hra |]. intros g' Hg'. simpl.
    eapply Forall_impl; [exact Hg' |]. intros i Hi. simpl. by rewrite sym_pass_length.
  - apply Hsw; apply Hin; set_solver.
Qed.

Lemma group_position_lt (c : Components R) (g : list nat) (p : nat) :
  valid_spec c → g ∈ sym c ∨ g ∈ antisym c → p ∈ g → (p < nid c)%nat.
Proof.
  intros Hv Hg Hp. destruct (valid_spec_groups c Hv) as (Hs & Ha & _).
  rewrite Forall_forall in Hs, Ha.
  destruct Hg as [Hg | Hg]; [destruct (Hs g Hg) as [_ Hr] | destruct (Ha g Hg) as [_ Hr]];
    rewrite Forall_forall in Hr; by apply Hr.
Qed.

(** X19. A store is symmetric in the indices of each of its symmetric
    groups: in a well-formed store, exchanging the values at two
    positions of one symmetric group changes neither what an access
    returns or raises, nor what an assignment does. *)
Theorem getitem_symmetric (c : Components R) (g : list nat) (p q : nat)
    (ind : list Z) (v : value) :
  well_formed c → g ∈ sym c → p ∈ g → q ∈ g →
  getitem c (swap_positions ind p q) = getitem c ind
  ∧ setitem c (swap_positions ind p q) v = setitem c ind v.
Proof.
  intros (Hv & Hcls & _) Hg Hp Hq.
  destruct (decide (length ind = nid c)) as [Hl | Hl].
  2: { destruct (swap_positions_wrong_length c p q ind Hl) as [Hc Hc'].
       by rewrite !(getitem_unchecked _ _ _ Hc), !(getitem_unchecked _ _ _ Hc'),
         !(setitem_unchecked _ _ _ _ Hc), !(setitem_unchecked _ _ _ _ Hc'). }
  assert (Hpl : (p < length ind)%nat).
  { rewrite Hl. apply (group_position_lt c g); auto. }
  assert (Hql : (q < length ind)%nat).
  { rewrite Hl. apply (group_position_lt c g); auto. }
  pose proof (swap_positions_swapped ind p q Hpl Hql) as Hs.
  destruct (swapped_check c p q _ _ Hs Hpl Hql) as [[Hc Hc'] | (e & Hc & Hc')].
  2: { by rewrite !(getitem_unchecked _ _ _ Hc), !(getitem_unchecked _ _ _ Hc'),
         !(setitem_unchecked _ _ _ _ Hc), !(setitem_unchecked _ _ _ _ Hc'). }
  pose proof (_ordered_indices_sym_swap c g p q _ _ Hv Hg Hp Hq Hs Hc Hc') as Ho.
  unfold getitem, setitem, CompWithSym_getitem, CompFullySym_getitem,
    CompWithSym_setitem, CompFullySym_setitem.
  unfold class_spec in Hcls. destruct (klass_of c).
  - destruct Hcls as [Hsy _]. rewrite Hsy in Hg. by apply elem_of_nil in Hg.
  - by rewrite Ho.
  - by rewrite Ho.
  - by rewrite Ho.
Qed.

End Exchange.

Section ExchangeSign.
Context {R : Type} `{Ring R} `{!CommRing R} `{SetListing}.

Lemma signed_opp (s : Z) (v : R) :
  s = 1 ∨ s = -1 → signed (- s) v = rneg (signed s v).
Proof.
  intros [-> | ->]; unfold signed; simpl; [done |]. by rewrite rneg_involutive.
Qed.

(** X20. A store is antisymmetric in the two indices of an
    antisymmetric group of two positions: over a commutative ring, in a
    well-formed store, exchanging the values at these two positions
    turns the component that an access returns into its opposite, and
    leaves the exception that it raises unchanged. *)
Theorem getitem_antisymmetric (c : Components R) (p q : nat) (ind : list Z) :
  well_formed c → [p; q] ∈ antisym c →
  getitem c (swap_positions ind p q) = rneg <$> getitem c ind.
Proof.
  intros Hwf Hg. pose proof Hwf as (Hv & _).
  destruct (decide (length ind = nid c)) as [Hl | Hl].
  2: { destruct (swap_positions_wrong_length c p q ind Hl) as [Hc Hc'].
       by rewrite (getitem_unchecked _ _ _ Hc), (getitem_unchecked _ _ _ Hc'). }
  assert (Hpl : (p < length ind)%nat).
  { rewrite Hl. apply (group_position_lt c [p; q]); [done | auto | set_solver]. }
  assert (Hql : (q < length ind)%nat).
  { rewrite Hl. apply (group_position_lt c [p; q]); [done | auto | set_solver]. }
  pose proof (swap_positions_swapped ind p q Hpl Hql) as Hs.
  destruct (swapped_check c p q _ _ Hs Hpl Hql) as [[Hc Hc'] | (e & Hc & Hc')].
  2: { by rewrite (getitem_unchecked _ _ _ Hc), (getitem_unchecked _ _ _ Hc'). }
  destruct (_ordered_indices_antisym_swap c p q _ _ Hv Hg Hs Hc Hc')
    as (s & k & Ho & Ho').
  destruct (_ordered_indices_cases _ _ _ _ Ho) as [[-> ->] | [Hs1 [key ->]]].
  - rewrite (getitem_conflict _ _ _ Hwf Ho), (getitem_conflict _ _ _ Hwf Ho'). simpl.
    by rewrite rneg_zero.
  - rewrite (getitem_key _ _ _ _ Hwf Ho), (getitem_key _ _ _ _ Hwf Ho'). simpl.
    by rewrite signed_opp.
Qed.

End ExchangeSign.

Lemma getitem_symmetric_witness :
  getitem sym_pair_1 (swap_positions [0; 1] 0 1) = getitem sym_pair_1 [0; 1]
  ∧ setitem sym_pair_1 (swap_positions [0; 1] 0 1) (VInt 5)
    = setitem sym_pair_1 [0; 1] (VInt 5).
Proof.
  refine (getitem_symmetric (R:=Z) sym_pair_1 [0; 1]%nat 0 1 [0; 1] (VInt 5) _ _ _ _).
  - repeat split; reflexivity.
  - apply list_elem_of_In. left. reflexivity.
  - apply list_elem_of_In. left. reflexivity.
  - apply list_elem_of_In. right. left. reflexivity.
Defined.

Lemma getitem_antisymmetric_witness :
  getitem antisym_pair (swap_positions [0; 1] 0 1) = rneg <$> getitem antisym_pair [0; 1].
Proof.
  refine (getitem_antisymmetric (R:=Z) antisym_pair 0 1 [0; 1] _ _).
  - repeat split; reflexivity.
  - apply list_elem_of_In. left. reflexivity.
Defined.

(** ** The generator of the non-redundant indices *)

Lemma NoDup_List_filter {A} (f : A → bool) (l : list A) :
  NoDup l → NoDup (List.filter f l).
Proof.
  induction 1 as [| x l Hx _ IH]; simpl; [constructor |].
  destruct (f x); [| done]. constructor; [| done].
  intros Hin. apply Hx. apply list_elem_of_In in Hin. apply filter_In in Hin as [Hin _].
  by apply list_elem_of_In.
Qed.

Section GeneratorTheorem.
Context {R : Type} `{Ring R} `{SetListing}.

(** X21. For a well-formed store with one index at least,
    [non_redundant_index_generator] yields, each of them once, exactly
    the valid index tuples that are in canonical form; every yielded
    tuple is its own canonical form with sign 1, and the canonical form
    of every index whose component is not forced to zero is yielded. So
    the generator visits each independent component once. *)
Theorem non_redundant_generator_exact (c : Components R) :
  well_formed c → (1 ≤ nid c)%nat →
  ∃ l, non_redundant_index_generator c = Ok l ∧ NoDup l
    ∧ (∀ t, t ∈ l ↔ _check_indices c t = Ok t ∧ is_ordered c t = true)
    ∧ (∀ t, t ∈ l → _ordered_indices c t = Ok (1, Some t))
    ∧ (∀ ind s key, _ordered_indices c ind = Ok (s, Some key) → key ∈ l).
Proof.
  intros (Hv & Hcls & _) Hn.
  exists (List.filter (is_ordered c) (all_indices (sindex c) (dim c) (nid c))).
  split; [by apply non_redundant_index_generator_spec |].
  split; [apply NoDup_List_filter, all_indices_NoDup |].
  assert (Hmem : ∀ t, t ∈ List.filter (is_ordered c)
                          (all_indices (sindex c) (dim c) (nid c))
                 ↔ _check_indices c t = Ok t ∧ is_ordered c t = true).
  { intros t. rewrite list_elem_of_In, filter_In, <- list_elem_of_In, all_indices_elem.
    split.
    - intros [[Hl Hr] Ho]. split; [by apply _check_indices_intro | done].
    - intros [Hc Ho]. apply _check_indices_Ok in Hc as (_ & Hl & Hr). done. }
  split; [exact Hmem |]. split.
  - intros t Ht. apply Hmem in Ht as [Hc Ho]. by apply _ordered_indices_canonical.
  - intros ind s key Hi. apply Hmem. by apply (_ordered_indices_key c ind s key).
Qed.

End GeneratorTheorem.

Lemma non_redundant_generator_exact_witness :
  ∃ l, non_redundant_index_generator sym_pair_1 = Ok l ∧ NoDup l
    ∧ (∀ t, t ∈ l ↔ _check_indices sym_pair_1 t = Ok t ∧ is_ordered sym_pair_1 t = true)
    ∧ (∀ t, t ∈ l → _ordered_indices sym_pair_1 t = Ok (1, Some t))
    ∧ (∀ ind s key, _ordered_indices sym_pair_1 ind = Ok (s, Some key) → key ∈ l).
Proof.
  refine (non_redundant_generator_exact (R:=Z) sym_pair_1 _ _).
  - repeat split; reflexivity.
  - simpl. lia.
Defined.

(** ** Quotients by a scalar *)

Section Division.
Context {R : Type} `{Ring R} `{SetListing}.

Lemma div_loop_total (x : R) (l : list (list Z * R)) (r : Components R) :
  Forall (λ iv, ∃ q, rdiv iv.2 x = Ok q) l →
  foldM (λ r iv, q ← rdiv iv.2 x; Ok (set_comp r (<[iv.1 := q]> (_comp r)))) l r
  = Ok (store_all (quotient x) l r).
Proof.
  intros Hl. revert r. induction Hl as [| iv l [q Hq] _ IH]; intros r; [done |].
  simpl. rewrite Hq. simpl. rewrite IH. unfold store_all, quotient. simpl.
  by rewrite Hq.
Qed.

Lemma div_loop_Ok (x : R) (l : list (list Z * R)) (r r' : Components R) :
  foldM (λ r iv, q ← rdiv iv.2 x; Ok (set_comp r (<[iv.1 := q]> (_comp r)))) l r = Ok r' →
  Forall (λ iv, ∃ q, rdiv iv.2 x = Ok q) l.
Proof.
  revert r. induction l as [| iv l IH]; intros r; [constructor |].
  simpl. destruct (rdiv iv.2 x) as [q | |] eqn:Hq; simpl; try discriminate.
  intros Hf. constructor; [eauto | by eapply IH].
Qed.

Lemma div_loop_Raise (x : R) (l : list (list Z * R)) (r : Components R) (e : exn) :
  foldM (λ r iv, q ← rdiv iv.2 x; Ok (set_comp r (<[iv.1 := q]> (_comp r)))) l r = Raise e →
  ∃ iv, iv ∈ l ∧ rdiv iv.2 x = Raise e.
Proof.
  revert r. induction l as [| iv l IH]; intros r; [discriminate |].
  simpl. destruct (rdiv iv.2 x) as [q | e' |] eqn:Hq; simpl; try discriminate.
  - intros Hf. destruct (IH _ Hf) as (iv' & Hin & Hr). exists iv'. split; [by right | done].
  - intros [= ->]. exists iv. split; [by left | done].
Qed.

(** X22. Division of a well-formed store by a scalar divides the
    stored values one by one: it returns exactly when every stored
    value can be divided, and then the result has the same keys, each
    bound to the quotient; an exception it raises is the exception of
    the division of a stored value; an empty store is returned as it
    is, whatever the scalar, zero included. A Python integer is first
    taken into the ring, and division by a store raises
    [NotImplementedError]. *)
Theorem div_componentwise (c o : Components R) (x : R) (n : Z) :
  well_formed c →
  Components_div c (OComp o) = Raise NotImplementedError
  ∧ Components_div c (OInt n) = Components_div c (OScalar (rofZ n))
  ∧ ((∀ k v, _comp c !! k = Some v → ∃ q, rdiv v x = Ok q) →
     Components_div c (OScalar x) = Ok (set_comp c (quotient x <$> _comp c)))
  ∧ (∀ r, Components_div c (OScalar x) = Ok r →
       same_shape c r
       ∧ (∀ k v, _comp c !! k = Some v → ∃ q, rdiv v x = Ok q ∧ _comp r !! k = Some q)
       ∧ (∀ k, _comp c !! k = None → _comp r !! k = None))
  ∧ (∀ e, Components_div c (OScalar x) = Raise e →
       ∃ k v, _comp c !! k = Some v ∧ rdiv v x = Raise e)
  ∧ (_comp c = ∅ → Components_div c (OScalar x) = Ok c).
Proof.
  intros Hwf. split; [done |]. split; [done |].
  assert (Hdiv : Components_div c (OScalar x)
            = foldM (λ r iv, q ← rdiv iv.2 x; Ok (set_comp r (<[iv.1 := q]> (_comp r))))
                (items c) (set_comp c ∅)).
  { unfold Components_div. by rewrite (_new_instance_well_formed _ Hwf). }
  assert (Htotal : Forall (λ iv : list Z * R, ∃ q, rdiv iv.2 x = Ok q) (items c) →
            Components_div c (OScalar x) = Ok (set_comp c (quotient x <$> _comp c))).
  { intros Hall. rewrite Hdiv, div_loop_total by done.
    by rewrite store_all_items. }
  split; [| split; [| split]].
  - intros Hall. apply Htotal. apply Forall_forall. intros [k v] Hin.
    apply elem_of_map_to_list in Hin. by apply (Hall k v).
  - intros r Hr. pose proof Hr as Hall. rewrite Hdiv in Hall. apply div_loop_Ok in Hall.
    rewrite (Htotal Hall) in Hr. injection Hr as <-.
    split; [apply same_shape_set_comp |]. cbn [_comp set_comp]. split.
    + intros k v Hl. rewrite Forall_forall in Hall.
      destruct (Hall (k, v)) as [q Hq]; [by apply elem_of_map_to_list |].
      exists q. split; [done |]. rewrite lookup_fmap, Hl. simpl.
      unfold quotient. simpl in Hq. by rewrite Hq.
    + intros k Hl. by rewrite lookup_fmap, Hl.
  - intros e He. rewrite Hdiv in He. apply div_loop_Raise in He as ([k v] & Hin & Hr).
    apply elem_of_map_to_list in Hin. eauto.
  - intros He. rewrite Htotal.
    + rewrite He, fmap_empty, <- He. by rewrite set_comp_id.
    + unfold items. rewrite He, map_to_list_empty. constructor.
Qed.

End Division.

Lemma div_componentwise_witness :
  Components_div sym_pair_1 (OComp sym_pair_1) = Raise NotImplementedError
  ∧ Components_div sym_pair_1 (OInt 1) = Components_div sym_pair_1 (OScalar (rofZ 1))
  ∧ ((∀ k v, _comp sym_pair_1 !! k = Some v → ∃ q, rdiv v 1 = Ok q) →
     Components_div sym_pair_1 (OScalar 1)
     = Ok (set_comp sym_pair_1 (quotient 1 <$> _comp sym_pair_1)))
  ∧ (∀ r, Components_div sym_pair_1 (OScalar 1) = Ok r →
       same_shape sym_pair_1 r
       ∧ (∀ k v, _comp sym_pair_1 !! k = Some v →
            ∃ q, rdiv v 1 = Ok q ∧ _comp r !! k = Some q)
       ∧ (∀ k, _comp sym_pair_1 !! k = None → _comp r !! k = None))
  ∧ (∀ e, Components_div sym_pair_1 (OScalar 1) = Raise e →
       ∃ k v, _comp sym_pair_1 !! k = Some v ∧ rdiv v 1 = Raise e)
  ∧ (_comp sym_pair_1 = ∅ → Components_div sym_pair_1 (OScalar 1) = Ok sym_pair_1).
Proof.
  refine (div_componentwise (R:=Z) sym_pair_1 sym_pair_1 1 1 _).
  repeat split; reflexivity.
Defined.

(** ** The sum of two stores with different symmetries *)

Lemma NoDup_length_two {A} (l : list A) (p q : A) :
  p ≠ q → p ∈ l → q ∈ l → (2 ≤ length l)%nat.
Proof.
  intros Hne Hp Hq. destruct l as [| a [| b l]]; simpl; [| | lia].
  - by apply elem_of_nil in Hp.
  - apply list_elem_of_singleton in Hp, Hq. congruence.
Qed.

Section DifferentSymmetries.
Context {R : Type} `{Ring R} `{SetListing}.

Lemma common_lists_intersection (gs go : list nat) :
  lists_intersection (common gs go) gs go.
Proof. split; [apply NoDup_common | intros p; apply elem_of_common]. Qed.

(** The groups that the two loops of [__add__] collect are the pairwise
    intersections. *)
Lemma common_groups_pairwise (ss os : list (list nat)) :
  pairwise_intersections (common_groups ss os) ss os.
Proof.
  split.
  - intros g Hg. apply elem_of_common_groups in Hg as (gs & go & Hgs & Hgo & -> & Hlen).
    split; [done |]. exists gs, go.
    split; [done |]. split; [done |]. apply common_lists_intersection.
  - intros gs go p q Hgs Hgo Hne Hp Hq Hp' Hq'.
    exists (common gs go). split; [| apply common_lists_intersection].
    apply elem_of_common_groups. exists gs, go. repeat split; try done.
    apply (NoDup_length_two _ p q); [done | |]; by apply elem_of_common.
Qed.

(** C5 (amended): let [self] and [other] be two well-formed stores of the
    classes with symmetries, on the same frame, with the same number of
    indices and the same start index, whose symmetry specifications
    differ. When [other] is zero, [self + other] is [self], with its own
    class and symmetries. When [other] is not zero, [self + other]
    succeeds; the symmetries (antisymmetries) of the sum are the pairwise
    intersections, of two positions at least, of a symmetry (antisymmetry)
    of [self] with one of [other]; the sum is of the base class when
    there is no such intersection; and at every canonical tuple of the
    sum, its value is the value of [self] plus the value of [other]. *)
Theorem add_different_symmetries (self other : Components R) :
  well_formed self → well_formed other →
  isinstance_CompWithSym (klass_of self) = true →
  isinstance_CompWithSym (klass_of other) = true →
  frame other = frame self → nid other = nid self → sindex other = sindex self →
  same_groups (sym self) (sym other) && same_groups (antisym self) (antisym other) = false →
  (is_zero other = true → add self (OComp other) = Ok self)
  ∧ (is_zero other = false →
     ∃ r, add self (OComp other) = Ok r
       ∧ pairwise_intersections (sym r) (sym self) (sym other)
       ∧ pairwise_intersections (antisym r) (antisym self) (antisym other)
       ∧ klass_of r = (if bool_decide (sym r ≠ []) || bool_decide (antisym r ≠ [])
                       then cCompWithSym else cComponents)
       ∧ frame r = frame self ∧ nid r = nid self ∧ sindex r = sindex self
       ∧ ∀ ind, _check_indices r ind = Ok ind → is_ordered r ind = true →
           ∃ a b, getitem self ind = Ok a ∧ getitem other ind = Ok b
             ∧ getitem r ind = Ok (radd a b)).
Proof.
  intros Hws Hwo Hks Hko Hfr Hnid Hsi Hdiff. split.
  - intros Hz. by apply add_zero_operand.
  - intros Hnz.
    destruct (add_common_groups self other Hws Hwo Hks Hko Hfr Hnid Hsi Hdiff Hnz)
      as (r & Hr & Hs & Ha & Hrest).
    exists r. split; [done |].
    split; [rewrite Hs; apply common_groups_pairwise |].
    split; [rewrite Ha; apply common_groups_pairwise |].
    done.
Qed.

End DifferentSymmetries.

Lemma add_different_symmetries_witness :
  (is_zero antisym_pair = true → add sym_pair_1 (OComp antisym_pair) = Ok sym_pair_1)
  ∧ (is_zero sym_first_two = false →
     ∃ r, add sym_triple (OComp sym_first_two) = Ok r
       ∧ pairwise_intersections (sym r) (sym sym_triple) (sym sym_first_two)
       ∧ pairwise_intersections (antisym r) (antisym sym_triple) (antisym sym_first_two)
       ∧ klass_of r = (if bool_decide (sym r ≠ []) || bool_decide (antisym r ≠ [])
                       then cCompWithSym else cComponents)
       ∧ frame r = frame sym_triple ∧ nid r = nid sym_triple
       ∧ sindex r = sindex sym_triple
       ∧ ∀ ind, _check_indices r ind = Ok ind → is_ordered r ind = true →
           ∃ a b, getitem sym_triple ind = Ok a ∧ getitem sym_first_two ind = Ok b
             ∧ getitem r ind = Ok (radd a b)).
Proof.
  split.
  - refine (proj1 (add_different_symmetries (R:=Z) sym_pair_1 antisym_pair
                     _ _ _ _ _ _ _ _)).
    + repeat split; reflexivity.
    + repeat split; reflexivity.
    + reflexivity.
    + reflexivity.
    + reflexivity.
    + reflexivity.
    + reflexivity.
    + vm_compute. reflexivity.
  - refine (proj2 (add_different_symmetries (R:=Z) sym_triple sym_first_two
                     _ _ _ _ _ _ _ _)).
    + repeat split; reflexivity.
    + repeat split; reflexivity.
    + reflexivity.
    + reflexivity.
    + reflexivity.
    + reflexivity.
    + reflexivity.
    + vm_compute. reflexivity.
Defined.

(** The sum that the code computes on the two stores above: it is
    symmetric in its first two indices, and holds 2 at (0, 1, 2), (0, 2, 1)
    and (1, 2, 0), and 3 at (0, 0, 1). *)
Lemma sum_symmetric_in_two_indices :
  add sym_triple (OComp sym_first_two)
  = Ok (mkComponents cCompWithSym frame3 3 3 0 None
          {[ [0; 1; 2] := 2; [0; 2; 1] := 2; [1; 2; 0] := 2; [0; 0; 1] := 3 ]}
          [[0; 1]%nat] []).
Proof. vm_compute. reflexivity. Qed.

(** When [other] is zero the sum is [self]: it keeps the symmetry of
    [self] and its class, although no group of [self] meets a group of
    [other], so that there is no pairwise intersection. *)
Lemma add_zero_store_keeps_symmetry :
  well_formed sym_pair_1 ∧ well_formed antisym_pair
  ∧ frame antisym_pair = frame sym_pair_1 ∧ nid antisym_pair = nid sym_pair_1
  ∧ sindex antisym_pair = sindex sym_pair_1
  ∧ same_groups (sym sym_pair_1) (sym antisym_pair) = false
  ∧ ∃ r, add sym_pair_1 (OComp antisym_pair) = Ok r
      ∧ klass_of r = cCompWithSym
      ∧ ¬ pairwise_intersections (sym r) (sym sym_pair_1) (sym antisym_pair).
Proof.
  split; [repeat split; reflexivity |]. split; [repeat split; reflexivity |].
  do 3 (split; [reflexivity |]).
  split; [vm_compute; reflexivity |].
  exists sym_pair_1. split; [vm_compute; reflexivity |]. split; [reflexivity |].
  intros [Hall _]. destruct (Hall [0; 1]%nat) as (_ & gs & go & _ & Hgo & _).
  { apply list_elem_of_In. left. reflexivity. }
  apply list_elem_of_In in Hgo. destruct Hgo.
Qed.

(** ** Transpositions change the parity of a permutation *)

Lemma filter_length_ext (P Q : nat → Prop) `{∀ x, Decision (P x)} `{∀ x, Decision (Q x)}
    (l : list nat) :
  (∀ y, y ∈ l → P y ↔ Q y) → length (filter P l) = length (filter Q l).
Proof.
  induction l as [| x l IH]; intros Hpq; [done |].
  rewrite !filter_cons.
  assert (Hx : P x ↔ Q x) by (apply Hpq; by left).
  assert (Hl : length (filter P l) = length (filter Q l))
    by (apply IH; intros y Hy; apply Hpq; by right).
  destruct (decide (P x)), (decide (Q x)); simpl; try tauto; by rewrite Hl.
Qed.

Lemma filter_length_fmap (f : nat → nat) (P : nat → Prop) `{∀ x, Decision (P x)}
    (l : list nat) :
  length (filter P (f <$> l)) = length (filter (λ y, P (f y)) l).
Proof.
  induction l as [| x l IH]; [done |].
  rewrite fmap_cons, !filter_cons. destruct (decide (P (f x))); simpl; by rewrite IH.
Qed.

(** One more element passes the filter [P] than the filter [Q] when they
    differ on [a] alone. *)
Lemma filter_length_extra (P Q : nat → Prop) `{∀ x, Decision (P x)} `{∀ x, Decision (Q x)}
    (a : nat) (l : list nat) :
  NoDup l → a ∈ l → P a → ¬ Q a → (∀ y, y ∈ l → y ≠ a → P y ↔ Q y) →
  length (filter P l) = S (length (filter Q l)).
Proof.
  induction 1 as [| x l Hx Hnd IH]; intros Ha Hpa Hqa Hpq.
  { by apply elem_of_nil in Ha. }
  rewrite !filter_cons. apply elem_of_cons in Ha as [-> | Ha].
  - rewrite decide_True by done. rewrite decide_False by done. simpl. f_equal.
    apply filter_length_ext. intros y Hy. apply Hpq; [by right |].
    intros ->. done.
  - assert (Hne : x ≠ a) by (intros ->; done).
    assert (Hxx : P x ↔ Q x) by (apply Hpq; [by left | done]).
    assert (Hl : length (filter P l) = S (length (filter Q l))).
    { apply IH; try done. intros y Hy. apply Hpq. by right. }
    destruct (decide (P x)), (decide (Q x)); simpl; try tauto; by rewrite Hl.
Qed.

Lemma transpose_comm (p q i : nat) : transpose p q i = transpose q p i.
Proof. unfold transpose. repeat case_bool_decide; congruence. Qed.

Lemma NoDup_fmap_transpose (p q : nat) (l : list nat) :
  NoDup l → NoDup (transpose p q <$> l).
Proof.
  apply NoDup_fmap_2_strong. intros x y _ _ Hxy.
  by rewrite <- (transpose_involutive p q x), Hxy, transpose_involutive.
Qed.

Lemma elem_of_fmap_transpose (p q k : nat) (l : list nat) :
  transpose p q k ∈ l → k ∈ transpose p q <$> l.
Proof.
  intros Hk. apply list_elem_of_fmap. exists (transpose p q k).
  by rewrite transpose_involutive.
Qed.

(** The exchange of two consecutive values, one of which is absent, keeps
    every comparison. *)
Lemma inversions_transpose_absent (u : nat) (l : list nat) :
  u ∉ l ∨ S u ∉ l → inversions (transpose u (S u) <$> l) = inversions l.
Proof.
  induction l as [| x l IH]; intros Hab; [done |].
  rewrite fmap_cons. cbn [inversions].
  rewrite IH by (destruct Hab as [Hab | Hab]; [left | right]; set_solver).
  f_equal. rewrite filter_length_fmap. apply filter_length_ext.
  intros y Hy. unfold transpose.
  repeat case_bool_decide; subst; try lia;
    exfalso; destruct Hab as [Hab | Hab]; apply Hab; set_solver.
Qed.

(** The exchange of two consecutive values changes the number of
    inversions by one. *)
Lemma inversions_transpose_adjacent (u : nat) (l : list nat) :
  NoDup l → u ∈ l → S u ∈ l →
  inversions (transpose u (S u) <$> l) = S (inversions l)
  ∨ S (inversions (transpose u (S u) <$> l)) = inversions l.
Proof.
  induction 1 as [| x l Hx Hnd IH]; intros Hu Hsu.
  { by apply elem_of_nil in Hu. }
  rewrite fmap_cons. cbn [inversions]. rewrite filter_length_fmap.
  destruct (decide (x = u)) as [-> | Hxu].
  - (* [u] comes first: one inversion more *)
    assert (Hsu' : S u ∈ l) by (apply elem_of_cons in Hsu as [? | ?]; [lia | done]).
    left. rewrite inversions_transpose_absent by (by left).
    rewrite (filter_length_extra _ (λ y, (y < u)%nat) (S u)); try done.
    + unfold transpose. repeat case_bool_decide; lia.
    + lia.
    + intros y Hy Hne. unfold transpose.
      repeat case_bool_decide; subst; lia.
  - destruct (decide (x = S u)) as [-> | Hxsu].
    + (* [S u] comes first: one inversion less *)
      assert (Hu' : u ∈ l) by (apply elem_of_cons in Hu as [? | ?]; [lia | done]).
      right. rewrite inversions_transpose_absent by (by right).
      rewrite (filter_length_extra (λ y, (y < S u)%nat)
                 (λ y, (transpose u (S u) y < transpose u (S u) (S u))%nat) u); try done.
      * lia.
      * unfold transpose. repeat case_bool_decide; lia.
      * intros y Hy Hne. unfold transpose.
        repeat case_bool_decide; subst; lia.
    + assert (Hu' : u ∈ l) by (apply elem_of_cons in Hu as [? | ?]; [congruence | done]).
      assert (Hsu' : S u ∈ l) by (apply elem_of_cons in Hsu as [? | ?]; [congruence | done]).
      rewrite (filter_length_ext _ (λ y, (y < x)%nat)).
      2: { intros y Hy. unfold transpose. repeat case_bool_decide; subst; lia. }
      destruct (IH Hu' Hsu') as [-> | <-]; [left | right]; lia.
Qed.

Lemma even_flip (m n : nat) :
  m = S n ∨ S m = n → Nat.even m = negb (Nat.even n).
Proof.
  intros [-> | <-]; rewrite Nat.even_succ, <- Nat.negb_even; [done |].
  by rewrite negb_involutive.
Qed.

(** The exchange of two values changes the parity of the number of
    inversions of a list that holds every value between them. *)
Lemma inversions_transpose (d u : nat) (l : list nat) :
  NoDup l → (∀ k, (u ≤ k ≤ u + S d)%nat → k ∈ l) →
  Nat.even (inversions (transpose u (u + S d) <$> l)) = negb (Nat.even (inversions l)).
Proof.
  revert u l. induction d as [| d IH]; intros u l Hnd Hin.
  - replace (u + 1)%nat with (S u) by lia.
    apply even_flip, inversions_transpose_adjacent; [done | |]; apply Hin; lia.
  - rewrite (list_fmap_ext _
               (transpose u (S u) ∘ transpose (S u) (S u + S d) ∘ transpose u (S u)) l).
    2: { intros i x _. unfold transpose, compose. repeat case_bool_decide; lia. }
    rewrite !list_fmap_compose.
    set (l1 := transpose u (S u) <$> l).
    set (l2 := transpose (S u) (S u + S d) <$> l1).
    assert (Hn1 : NoDup l1) by (by apply NoDup_fmap_transpose).
    assert (Hn2 : NoDup l2) by (by apply NoDup_fmap_transpose).
    assert (Hin1 : ∀ k, (u ≤ k ≤ u + S (S d))%nat → k ∈ l1).
    { intros k Hk. apply elem_of_fmap_transpose, Hin.
      unfold transpose. repeat case_bool_decide; lia. }
    assert (Hin2 : ∀ k, (u ≤ k ≤ u + S (S d))%nat → k ∈ l2).
    { intros k Hk. apply elem_of_fmap_transpose, Hin1.
      unfold transpose. repeat case_bool_decide; lia. }
    assert (Hu : u ∈ l) by (apply Hin; lia).
    assert (Hsu : S u ∈ l) by (apply Hin; lia).
    assert (Hu2 : u ∈ l2) by (apply Hin2; lia).
    assert (Hsu2 : S u ∈ l2) by (apply Hin2; lia).
    rewrite (even_flip _ _ (inversions_transpose_adjacent u l2 Hn2 Hu2 Hsu2)).
    unfold l2. rewrite IH; [| done | intros k Hk; apply Hin1; lia].
    unfold l1. rewrite (even_flip _ _ (inversions_transpose_adjacent u l Hnd Hu Hsu)).
    by rewrite negb_involutive.
Qed.

Lemma inversions_seq (a n : nat) : inversions (seq a n) = 0%nat.
Proof.
  revert a. induction n as [| n IH]; intros a; [done |].
  cbn [seq inversions]. rewrite IH.
  rewrite (filter_length_ext _ (λ _, False)).
  - induction (seq (S a) n) as [| y l IHl]; [done |].
    rewrite filter_cons. by destruct (decide False).
  - intros y Hy. apply elem_of_seq in Hy. lia.
Qed.

(** ** The permutation that sorts the values of a group *)

Lemma index_of_inj (x y : Z) (l : list Z) :
  x ∈ l → y ∈ l → index_of x l = index_of y l → x = y.
Proof.
  induction l as [| a l IH]; intros Hx Hy; [by apply elem_of_nil in Hx |].
  apply elem_of_cons in Hx as [Hx | Hx]; apply elem_of_cons in Hy as [Hy | Hy];
    simpl; repeat case_bool_decide; try congruence.
  intros [= Heq]. by apply IH.
Qed.

Lemma index_of_lt (x : Z) (l : list Z) : x ∈ l → (index_of x l < length l)%nat.
Proof.
  induction l as [| a l IH]; intros Hx; [by apply elem_of_nil in Hx |].
  simpl. case_bool_decide; [lia |]. apply elem_of_cons in Hx as [-> | Hx]; [done |].
  specialize (IH Hx). lia.
Qed.

Lemma transposeZ_involutive (x y z : Z) : transposeZ x y (transposeZ x y z) = z.
Proof. unfold transposeZ. repeat case_bool_decide; congruence. Qed.

Lemma index_of_transposeZ (x y z : Z) (l : list Z) :
  index_of z (transposeZ x y <$> l) = index_of (transposeZ x y z) l.
Proof.
  induction l as [| a l IH]; [done |].
  rewrite fmap_cons. cbn [index_of]. rewrite IH.
  rewrite (bool_decide_ext (transposeZ x y a = z) (a = transposeZ x y z)); [done |].
  split; [intros <- | intros ->]; by rewrite transposeZ_involutive.
Qed.

Lemma transposeZ_Permutation (x y : Z) (l : list Z) :
  NoDup l → x ∈ l → y ∈ l → transposeZ x y <$> l ≡ₚ l.
Proof.
  intros Hn Hx Hy. apply NoDup_Permutation; [| done |].
  - apply NoDup_fmap_2_strong; [| done]. intros a b _ _ Hab.
    by rewrite <- (transposeZ_involutive x y a), Hab, transposeZ_involutive.
  - assert (Hin : ∀ z, z ∈ l → transposeZ x y z ∈ l).
    { intros z Hz. unfold transposeZ. by repeat case_bool_decide. }
    intros z. rewrite list_elem_of_fmap. split.
    + intros (w & -> & Hw). by apply Hin.
    + intros Hz. exists (transposeZ x y z). split; [by rewrite transposeZ_involutive |].
      by apply Hin.
Qed.

Lemma index_of_self (l : list Z) :
  NoDup l → (λ i, (index_of i l + 1)%nat) <$> l = seq 1 (length l).
Proof.
  induction 1 as [| a l Ha Hnd IH]; [done |].
  rewrite fmap_cons. cbn [index_of length seq].
  rewrite bool_decide_eq_true_2 by done. f_equal.
  rewrite <- fmap_S_seq, <- IH, <- list_fmap_compose.
  apply list_fmap_ext. intros k z Hz. simpl.
  rewrite bool_decide_eq_false_2; [done |].
  intros ->. apply Ha. by eapply list_elem_of_lookup_2.
Qed.

Lemma elem_of_sorted (x : Z) (l : list Z) : x ∈ sorted l ↔ x ∈ l.
Proof. unfold sorted. by rewrite merge_sort_Permutation. Qed.

Lemma sorting_perm_Permutation (l : list Z) :
  NoDup l → sorting_perm l ≡ₚ seq 1 (length l).
Proof.
  intros Hn. rewrite <- index_of_self by done. unfold sorting_perm, sorted.
  apply fmap_Permutation, merge_sort_Permutation.
Qed.

(** Values that are already in increasing order need no permutation. *)
Lemma sorting_perm_sorted (l : list Z) :
  NoDup l → sorted l = l → signature (sorting_perm l) = 1.
Proof.
  intros Hn Hs. unfold sorting_perm. rewrite Hs, index_of_self by done.
  unfold signature. by rewrite inversions_seq.
Qed.

(** Exchanging two values of [l] exchanges their ranks in the permutation. *)
Lemma sorting_perm_transposed (x y : Z) (l : list Z) :
  NoDup l → x ∈ l → y ∈ l →
  sorting_perm (transposeZ x y <$> l)
  = transpose (index_of x l + 1) (index_of y l + 1) <$> sorting_perm l.
Proof.
  intros Hn Hx Hy. unfold sorting_perm.
  rewrite (sorted_Permutation _ l) by (by apply transposeZ_Permutation).
  rewrite <- list_fmap_compose. apply list_fmap_ext. intros k z Hz. simpl.
  assert (Hzl : z ∈ l) by (apply elem_of_sorted; by eapply list_elem_of_lookup_2).
  rewrite index_of_transposeZ. unfold transposeZ, transpose.
  repeat case_bool_decide; subst; try lia.
  - exfalso. assert (z = x) by (apply (index_of_inj _ _ l); [done | done | lia]). done.
  - exfalso. assert (z = y) by (apply (index_of_inj _ _ l); [done | done | lia]). done.
Qed.

(** The signature changes sign when two values are exchanged. *)
Lemma signature_transposed (x y : Z) (l : list Z) :
  NoDup l → x ∈ l → y ∈ l → x ≠ y →
  signature (sorting_perm (transposeZ x y <$> l)) = - signature (sorting_perm l).
Proof.
  intros Hn Hx Hy Hxy. rewrite sorting_perm_transposed by done.
  pose proof (index_of_lt x l Hx) as Hlx. pose proof (index_of_lt y l Hy) as Hly.
  assert (Hne : index_of x l ≠ index_of y l).
  { intros Heq. by apply Hxy, (index_of_inj _ _ l). }
  pose proof (sorting_perm_Permutation l Hn) as Hperm.
  assert (Hnd : NoDup (sorting_perm l)) by (rewrite Hperm; apply NoDup_seq).
  assert (Hin : ∀ k, (1 ≤ k ≤ length l)%nat → k ∈ sorting_perm l).
  { intros k Hk. rewrite Hperm. apply elem_of_seq. lia. }
  assert (Hflip : ∀ a b, (a < b)%nat → (b < length l)%nat →
            Nat.even (inversions (transpose (a + 1) (b + 1) <$> sorting_perm l))
            = negb (Nat.even (inversions (sorting_perm l)))).
  { intros a b Hab Hb. replace (b + 1)%nat with ((a + 1) + S (b - a - 1))%nat by lia.
    apply inversions_transpose; [done |]. intros k Hk. apply Hin. lia. }
  unfold signature.
  destruct (decide (index_of x l < index_of y l)%nat) as [Hlt | Hge].
  - rewrite Hflip by done. by destruct (Nat.even _).
  - rewrite (list_fmap_ext _ (transpose (index_of y l + 1) (index_of x l + 1))
               (sorting_perm l)) by (intros; apply transpose_comm).
    rewrite Hflip by lia. by destruct (Nat.even _).
Qed.

(** One step of the antisymmetric pass, on values that are all different. *)
Lemma antisym_pass_cons_NoDup (s : Z) (ind : list Z) (g : list nat)
    (rest : list (list nat)) :
  NoDup (gather ind g) →
  antisym_pass s ind (g :: rest)
  = antisym_pass (s * signature (sorting_perm (gather ind g)))
      (scatter ind g (sorted (gather ind g))) rest.
Proof.
  intros Hn. cbn [antisym_pass].
  rewrite (proj2 (has_repeat_false _) Hn).
  case_bool_decide as Hs; [done |].
  rewrite sorting_perm_sorted; [by rewrite Z.mul_1_r | done |].
  destruct (decide (sorted (gather ind g) = gather ind g)); [done | contradiction].
Qed.

Lemma NoDup_fmap_inj_on {A B} (f : A → B) (l : list A) (x y : A) :
  NoDup (f <$> l) → x ∈ l → y ∈ l → f x = f y → x = y.
Proof.
  induction l as [| a l IH]; intros Hn Hx Hy Hf; [by apply elem_of_nil in Hx |].
  rewrite fmap_cons in Hn. apply NoDup_cons in Hn as [Ha Hn].
  apply elem_of_cons in Hx as [-> | Hx]; apply elem_of_cons in Hy as [-> | Hy];
    try done.
  - exfalso. apply Ha. rewrite Hf. by apply list_elem_of_fmap_2.
  - exfalso. apply Ha. rewrite <- Hf. by apply list_elem_of_fmap_2.
  - by apply IH.
Qed.

(** Exchanging two positions of a group exchanges two of its values. *)
Lemma swapped_gather_transposeZ (p q : nat) (ind' ind : list Z) (g : list nat) :
  swapped p q ind' ind → p ∈ g → q ∈ g → NoDup (gather ind g) →
  gather ind' g = transposeZ (ind !!! p) (ind !!! q) <$> gather ind g.
Proof.
  intros (_ & Hp & Hq & Ho) Hpg Hqg Hn. unfold gather.
  rewrite <- list_fmap_compose. apply list_fmap_ext. intros k i Hi. simpl.
  assert (Hig : i ∈ g) by (by eapply list_elem_of_lookup_2).
  unfold transposeZ. destruct (decide (i = p)) as [-> | Hip].
  { by rewrite bool_decide_eq_true_2. }
  destruct (decide (i = q)) as [-> | Hiq].
  { rewrite Hq. by repeat case_bool_decide. }
  rewrite Ho by done.
  rewrite !bool_decide_eq_false_2; [done | |]; intros Heq.
  - apply Hiq. by apply (NoDup_fmap_inj_on (λ j, ind !!! j) g).
  - apply Hip. by apply (NoDup_fmap_inj_on (λ j, ind !!! j) g).
Qed.

(** The antisymmetric pass on two tuples that differ by the exchange of
    two positions of one group, of any size: the keys agree and the signs
    are opposite. *)
Lemma antisym_pass_swapped_in (p q : nat) (s : Z) (ind' ind : list Z)
    (groups : list (list nat)) (g : list nat) :
  NoDup (concat groups) → Forall (Forall (λ p, (p < length ind)%nat)) groups →
  g ∈ groups → p ∈ g → q ∈ g → p ≠ q → swapped p q ind' ind →
  antisym_pass s ind' groups
  = (- (antisym_pass s ind groups).1, (antisym_pass s ind groups).2).
Proof.
  revert s ind' ind. induction groups as [| g0 gs IH]; intros s ind' ind Hn Hr Hg Hp Hq Hpq Hs.
  { by apply elem_of_nil in Hg. }
  simpl in Hn. apply NoDup_app in Hn as (Hn0 & Hdis & Hngs).
  apply Forall_cons in Hr as [Hr0 Hrgs].
  assert (Hsub : g ∈ gs → ∀ i, i ∈ g → i ∈ concat gs).
  { intros Hin i Hi. apply elem_of_concat. eauto. }
  apply elem_of_cons in Hg as [-> | Hg].
  - pose proof Hs as (Hlen & _ & _ & Ho).
    pose proof (swapped_gather_perm p q ind' ind g0 Hs Hn0 Hp Hq) as Hperm.
    destruct (has_repeat (gather ind g0)) eqn:Hrep.
    { cbn [antisym_pass]. by rewrite (has_repeat_Permutation _ _ Hperm), Hrep. }
    apply has_repeat_false in Hrep.
    assert (Hrep' : NoDup (gather ind' g0)) by (by rewrite Hperm).
    rewrite !antisym_pass_cons_NoDup by done.
    rewrite (sorted_Permutation _ _ Hperm).
    rewrite (scatter_agree ind' ind g0); try done.
    2: { intros i Hi. apply Ho; intros ->; done. }
    2: { by rewrite sorted_length, gather_length. }
    rewrite (swapped_gather_transposeZ p q ind' ind g0) by done.
    rewrite signature_transposed; try done.
    + rewrite Z.mul_opp_r. apply antisym_pass_neg.
    + exact (list_elem_of_fmap_2 (λ j : nat, ind !!! j) g0 p Hp).
    + exact (list_elem_of_fmap_2 (λ j : nat, ind !!! j) g0 q Hq).
    + intros Heq. apply Hpq. by apply (NoDup_fmap_inj_on (λ j, ind !!! j) g0).
  - assert (Hpg : p ∉ g0) by (intros Hin; by apply (Hdis p Hin), Hsub).
    assert (Hqg : q ∉ g0) by (intros Hin; by apply (Hdis q Hin), Hsub).
    cbn [antisym_pass]. rewrite (swapped_gather_other p q ind' ind) by done.
    destruct (has_repeat _); [done |].
    apply (IH _ _ _ Hngs); try done.
    + by apply Forall_positions_scatter.
    + by apply swapped_scatter.
Qed.

(** ** Tuples equal up to symmetry *)

Lemma antisym_pass_key (s s' : Z) (ind key : list Z) (groups : list (list nat)) :
  antisym_pass s ind groups = (s', Some key) → key = sym_pass ind groups.
Proof.
  revert s ind. induction groups as [| g gs IH]; intros s ind.
  - by intros [= _ <-].
  - cbn [antisym_pass]. rewrite sym_pass_cons.
    destruct (has_repeat _); [discriminate |]. apply IH.
Qed.

Section UpToSymmetry.
Context {R : Type} `{Ring R}.

Lemma same_up_to_symmetry_sign (c : Components R) (i j : list Z) (s : Z) :
  same_up_to_symmetry c i j s → s = 1 ∨ s = -1.
Proof. induction 1; lia. Qed.

Lemma same_up_to_symmetry_length (c : Components R) (i j : list Z) (s : Z) :
  same_up_to_symmetry c i j s → length j = length i.
Proof. induction 1; by rewrite ?swap_positions_length. Qed.

Lemma _ordered_indices_antisym_swap_in (c : Components R) (g : list nat) (p q : nat)
    (ind' ind : list Z) :
  valid_spec c → g ∈ antisym c → p ∈ g → q ∈ g → p ≠ q → swapped p q ind' ind →
  _check_indices c ind = Ok ind → _check_indices c ind' = Ok ind' →
  ∃ s k, _ordered_indices c ind = Ok (s, k) ∧ _ordered_indices c ind' = Ok (- s, k).
Proof.
  intros Hv Hg Hp Hq Hpq Hs Hc Hc'. unfold _ordered_indices. rewrite Hc, Hc'. simpl.
  apply _check_indices_Ok in Hc as (_ & Hl & _).
  destruct (valid_spec_positions c ind Hv Hl) as (_ & Hra & _ & Hna & Hdis).
  assert (Hin : ∀ i, i ∈ g → i ∉ concat (sym c)).
  { intros i Hi Hsy. apply (Hdis i Hsy). apply elem_of_concat. eauto. }
  pose proof (sym_pass_swapped_other p q ind' ind (sym c) Hs) as Hsw.
  rewrite (antisym_pass_swapped_in p q 1 (sym_pass ind' (sym c)) (sym_pass ind (sym c))
             (antisym c) g); try done.
  - destruct (antisym_pass 1 (sym_pass ind (sym c)) (antisym c)) as [s k]. eauto.
  - eapply Forall_impl; [exact Hra |]. intros g' Hg'. simpl.
    eapply Forall_impl; [exact Hg' |]. intros i Hi. simpl. by rewrite sym_pass_length.
  - apply Hsw; by apply Hin.
Qed.

(** Tuples equal up to symmetry have the same canonical form, and their
    signs differ by their relative parity. *)
Lemma _ordered_indices_up_to_symmetry (c : Components R) (i j : list Z) (s si : Z)
    (k : option (list Z)) :
  valid_spec c → same_up_to_symmetry c i j s →
  _check_indices c i = Ok i → _ordered_indices c i = Ok (si, k) →
  _check_indices c j = Ok j ∧ _ordered_indices c j = Ok (si * s, k).
Proof.
  intros Hv Hij Hc Ho.
  induction Hij as [| j s g p q Hij IH Hg Hp Hq | j s g p q Hij IH Hg Hp Hq Hpq].
  - split; [done |]. by rewrite Z.mul_1_r.
  - destruct IH as [Hcj Hoj].
    destruct (_check_indices_Ok _ _ _ Hcj) as (_ & Hl & _).
    assert (Hpl : (p < length j)%nat).
    { rewrite Hl. apply (group_position_lt c g); auto. }
    assert (Hql : (q < length j)%nat).
    { rewrite Hl. apply (group_position_lt c g); auto. }
    pose proof (swap_positions_swapped j p q Hpl Hql) as Hs.
    destruct (swapped_check c p q _ _ Hs Hpl Hql) as [[_ Hc'] | (e & Hce & _)];
      [| congruence].
    split; [done |].
    by rewrite (_ordered_indices_sym_swap c g p q _ j).
  - destruct IH as [Hcj Hoj].
    destruct (_check_indices_Ok _ _ _ Hcj) as (_ & Hl & _).
    assert (Hpl : (p < length j)%nat).
    { rewrite Hl. apply (group_position_lt c g); auto. }
    assert (Hql : (q < length j)%nat).
    { rewrite Hl. apply (group_position_lt c g); auto. }
    pose proof (swap_positions_swapped j p q Hpl Hql) as Hs.
    destruct (swapped_check c p q _ _ Hs Hpl Hql) as [[_ Hc'] | (e & Hce & _)];
      [| congruence].
    split; [done |].
    destruct (_ordered_indices_antisym_swap_in c g p q _ j Hv Hg Hp Hq Hpq Hs Hcj Hc')
      as (s0 & k0 & Ho0 & Ho0').
    rewrite Ho0'. rewrite Hoj in Ho0. injection Ho0 as <- <-.
    by rewrite Z.mul_opp_r.
Qed.

(** Writing the values [vals], a rearrangement of the values that [j]
    holds at the positions [g'] of a group, is a sequence of exchanges. *)
Lemma same_up_to_symmetry_scatter (c : Components R) (g : list nat) (i : list Z)
    (g' : list nat) (j vals : list Z) (s : Z) :
  g ∈ sym c ∨ g ∈ antisym c → (∀ p, p ∈ g' → p ∈ g) → NoDup g' →
  Forall (λ p, (p < length j)%nat) g' → vals ≡ₚ gather j g' →
  same_up_to_symmetry c i j s →
  ∃ s', same_up_to_symmetry c i (scatter j g' vals) s'.
Proof.
  intros Hg. revert j vals s.
  induction g' as [| p g' IH]; intros j vals s Hsub Hnd Hlt Hperm Hij.
  { exists s. by destruct vals. }
  apply NoDup_cons in Hnd as [Hp Hnd]. apply Forall_cons in Hlt as [Hpl Hlt].
  unfold gather in Hperm. rewrite fmap_cons in Hperm. fold (gather j g') in Hperm.
  destruct vals as [| v vals].
  { by apply Permutation_nil_cons in Hperm. }
  cbn [scatter].
  assert (Hv : v ∈ j !!! p :: gather j g') by (rewrite <- Hperm; by left).
  apply elem_of_cons in Hv as [-> | Hv].
  - rewrite list_insert_total_id. apply (IH j vals s); try done.
    + intros r Hr. apply Hsub. by right.
    + by apply Permutation_cons_inv in Hperm.
  - apply list_elem_of_fmap in Hv as (r & -> & Hr).
    assert (Hrl : (r < length j)%nat) by (rewrite Forall_forall in Hlt; by apply Hlt).
    assert (Hpr : p ≠ r) by (intros ->; done).
    pose proof (swap_positions_swapped j p r Hpl Hrl) as Hsw.
    pose proof Hsw as (Hlen & Hsp & Hsr & Hso).
    assert (Hj1 : ∃ s1, same_up_to_symmetry c i (swap_positions j p r) s1).
    { destruct Hg as [Hg | Hg].
      - exists s. apply (same_sym c i j s g p r); try done; apply Hsub; [by left | by right].
      - exists (- s). apply (same_antisym c i j s g p r); try done;
          apply Hsub; [by left | by right]. }
    destruct Hj1 as [s1 Hj1].
    rewrite (scatter_agree (<[p := j !!! r]> j) (swap_positions j p r) g' vals).
    + apply (IH _ vals s1); try done.
      * intros r' Hr'. apply Hsub. by right.
      * by rewrite Hlen.
      * apply (Permutation_cons_inv (a := j !!! r)).
        rewrite Hperm. rewrite <- Hsp.
        change (swap_positions j p r !!! p :: gather (swap_positions j p r) g')
          with (gather (swap_positions j p r) (p :: g')).
        change (j !!! p :: gather j g') with (gather j (p :: g')).
        symmetry. apply (swapped_gather_perm p r); [done | | by left | by right].
        by constructor.
    + done.
    + by rewrite Hlen.
    + by rewrite length_insert, Hlen.
    + intros k Hk. destruct (decide (k = p)) as [-> | Hkp].
      * by rewrite list_lookup_total_insert_eq, Hsp by done.
      * rewrite list_lookup_total_insert_ne by done. symmetry. apply Hso; [done |].
        intros ->. done.
    + apply Permutation_length in Hperm. simpl in Hperm.
      rewrite gather_length in Hperm. lia.
Qed.

(** Sorting every group of a list of groups is a sequence of exchanges. *)
Lemma same_up_to_symmetry_pass (c : Components R) (i : list Z)
    (groups : list (list nat)) (j : list Z) (s : Z) :
  (∀ g, g ∈ groups → g ∈ sym c ∨ g ∈ antisym c) → Forall (NoDup (A:=nat)) groups →
  Forall (Forall (λ p, (p < length j)%nat)) groups →
  same_up_to_symmetry c i j s →
  ∃ s', same_up_to_symmetry c i (sym_pass j groups) s'.
Proof.
  revert j s. induction groups as [| g gs IH]; intros j s Hin Hnd Hlt Hij.
  { by exists s. }
  apply Forall_cons in Hnd as [Hng Hnd]. apply Forall_cons in Hlt as [Hlg Hlt].
  rewrite sym_pass_cons.
  destruct (same_up_to_symmetry_scatter c g i g j (sorted (gather j g)) s)
    as [s1 Hs1]; try done.
  { apply Hin. by left. }
  { unfold sorted. apply merge_sort_Permutation. }
  apply (IH _ s1); try done.
  - intros g' Hg'. apply Hin. by right.
  - by apply Forall_positions_scatter.
Qed.

Lemma NoDup_concat_Forall (gs : list (list nat)) :
  NoDup (concat gs) → Forall (NoDup (A:=nat)) gs.
Proof.
  induction gs as [| g gs IH]; intros Hn; [constructor |].
  simpl in Hn. apply NoDup_app in Hn as (Hg & _ & Hgs). constructor; auto.
Qed.

(** The canonical form of a tuple is equal to the tuple up to symmetry,
    and the sign of the canonical form is their relative parity. *)
Lemma _ordered_indices_reached (c : Components R) (i key : list Z) (si : Z) :
  valid_spec c → _ordered_indices c i = Ok (si, Some key) →
  same_up_to_symmetry c i key si.
Proof.
  intros Hv Ho.
  assert (Hc : _check_indices c i = Ok i).
  { unfold _ordered_indices in Ho.
    destruct (_check_indices c i) as [i' | |] eqn:Hc; simpl in Ho; try discriminate.
    by apply _check_indices_Ok in Hc as (-> & _). }
  destruct (_check_indices_Ok _ _ _ Hc) as (_ & Hl & _).
  destruct (valid_spec_positions c i Hv Hl) as (Hrs & Hra & Hns & Hna & _).
  assert (Hkey : key = sym_pass (sym_pass i (sym c)) (antisym c)).
  { unfold _ordered_indices in Ho. rewrite Hc in Ho. simpl in Ho.
    injection Ho as Ho. by apply antisym_pass_key in Ho. }
  destruct (same_up_to_symmetry_pass c i (sym c) i 1) as [s1 Hs1]; try done.
  { intros g Hg. by left. }
  { by apply NoDup_concat_Forall. }
  { constructor. }
  destruct (same_up_to_symmetry_pass c i (antisym c) (sym_pass i (sym c)) s1)
    as [s2 Hs2]; try done.
  { intros g Hg. by right. }
  { by apply NoDup_concat_Forall. }
  { eapply Forall_impl; [exact Hra |]. intros g' Hg'. simpl.
    eapply Forall_impl; [exact Hg' |]. intros p Hp. simpl. by rewrite sym_pass_length. }
  rewrite <- Hkey in Hs2.
  destruct (_ordered_indices_up_to_symmetry c i key s2 si (Some key) Hv Hs2 Hc Ho)
    as [Hck Hok].
  destruct (_ordered_indices_key c i si key Hv Ho) as [_ Hord].
  rewrite (_ordered_indices_canonical c key Hck Hord) in Hok.
  injection Hok as Hs.
  destruct (_ordered_indices_cases _ _ _ _ Ho) as [[_ ?] | [Hsi _]]; [done |].
  destruct (same_up_to_symmetry_sign _ _ _ _ Hs2) as [-> | ->];
    destruct Hsi as [-> | ->]; try done; lia.
Qed.

Lemma same_up_to_symmetry_trans (c : Components R) (i j k : list Z) (s t : Z) :
  same_up_to_symmetry c i j s → same_up_to_symmetry c j k t →
  same_up_to_symmetry c i k (s * t).
Proof.
  intros Hij Hjk. induction Hjk as [| k t g p q _ IH Hg Hp Hq | k t g p q _ IH Hg Hp Hq Hpq].
  - by rewrite Z.mul_1_r.
  - by apply (same_sym c i k (s * t) g).
  - rewrite Z.mul_opp_r. by apply (same_antisym c i k (s * t) g).
Qed.

Lemma swap_positions_involutive (j : list Z) (p q : nat) :
  (p < length j)%nat → (q < length j)%nat →
  swap_positions (swap_positions j p q) p q = j.
Proof.
  intros Hp Hq. pose proof (swap_positions_swapped j p q Hp Hq) as Hs1.
  pose proof (swap_positions_swapped (swap_positions j p q) p q) as Hs2.
  rewrite swap_positions_length in Hs2. specialize (Hs2 Hp Hq).
  apply list_total_ext; [by rewrite !swap_positions_length |].
  intros k. rewrite (swapped_transpose p q _ _ k Hs2), (swapped_transpose p q _ _ _ Hs1).
  by rewrite transpose_involutive.
Qed.

Lemma same_up_to_symmetry_sym (c : Components R) (i j : list Z) (s : Z) :
  valid_spec c → length i = nid c →
  same_up_to_symmetry c i j s → same_up_to_symmetry c j i s.
Proof.
  intros Hv Hl Hij.
  induction Hij as [| j s g p q Hij IH Hg Hp Hq | j s g p q Hij IH Hg Hp Hq Hpq].
  - constructor.
  - pose proof (same_up_to_symmetry_length _ _ _ _ Hij) as Hlj.
    assert (Hpl : (p < length j)%nat).
    { rewrite Hlj, Hl. apply (group_position_lt c g); auto. }
    assert (Hql : (q < length j)%nat).
    { rewrite Hlj, Hl. apply (group_position_lt c g); auto. }
    replace s with (1 * s) by lia.
    apply (same_up_to_symmetry_trans c _ j); [| done].
    rewrite <- (swap_positions_involutive j p q Hpl Hql) at 2.
    apply (same_sym c _ _ 1 g); [constructor | done | done | done].
  - pose proof (same_up_to_symmetry_length _ _ _ _ Hij) as Hlj.
    assert (Hpl : (p < length j)%nat).
    { rewrite Hlj, Hl. apply (group_position_lt c g); auto. }
    assert (Hql : (q < length j)%nat).
    { rewrite Hlj, Hl. apply (group_position_lt c g); auto. }
    replace (- s) with (-1 * s) by lia.
    apply (same_up_to_symmetry_trans c _ j); [| done].
    rewrite <- (swap_positions_involutive j p q Hpl Hql) at 2.
    apply (same_antisym c _ _ 1 g); [constructor | done | done | done | done].
Qed.

(** The relative parity of two tuples does not depend on the exchanges
    that lead from one to the other, unless an antisymmetry forces the
    component to zero. *)
Lemma same_up_to_symmetry_parity (c : Components R) (i j : list Z) (s t : Z) :
  valid_spec c → length i = nid c → in_range c i → ¬ antisym_conflict c i →
  same_up_to_symmetry c i j s → same_up_to_symmetry c i j t → s = t.
Proof.
  intros Hv Hl Hr Hnc Hs Ht.
  assert (Hc : _check_indices c i = Ok i) by (by apply _check_indices_intro).
  destruct (_ordered_indices_outcome c i Hv Hc) as [[Hcf _] | (_ & si & key & Ho & Hsi)];
    [done |].
  destruct (_ordered_indices_up_to_symmetry c i j s si (Some key) Hv Hs Hc Ho) as [_ H1].
  destruct (_ordered_indices_up_to_symmetry c i j t si (Some key) Hv Ht Hc Ho) as [_ H2].
  rewrite H1 in H2. injection H2 as H2. destruct Hsi as [-> | ->]; lia.
Qed.

(** Two tuples with the same canonical form are equal up to symmetry. *)
Lemma same_canonical_form (c : Components R) (i j key : list Z) (si sj : Z) :
  valid_spec c →
  _ordered_indices c i = Ok (si, Some key) → _ordered_indices c j = Ok (sj, Some key) →
  same_up_to_symmetry c i j (si * sj).
Proof.
  intros Hv Hi Hj.
  apply (same_up_to_symmetry_trans c i key j); [by apply _ordered_indices_reached |].
  apply same_up_to_symmetry_sym; [done | | by apply _ordered_indices_reached].
  unfold _ordered_indices in Hj.
  destruct (_check_indices c j) as [j' | |] eqn:Hc; simpl in Hj; try discriminate.
  by apply _check_indices_Ok in Hc as (-> & ? & _).
Qed.

End UpToSymmetry.

Section RoundTripTheorem.
Context {R : Type} `{Ring R} `{!CommRing R}.

Lemma signed_mul (s t : Z) (v : R) :
  s = 1 ∨ s = -1 → t = 1 ∨ t = -1 → signed (s * t) (signed s v) = signed t v.
Proof.
  intros [-> | ->] [-> | ->]; unfold signed; simpl; try done.
  by rewrite rneg_involutive.
Qed.

(** C1: let [c] be a well-formed store, [v] a nonzero value and [i] an
    index tuple in range on which no antisymmetry of [c] forces a zero.
    Then [c[[i]] = v] succeeds; afterwards [c[[i]]] is [v], and for every
    tuple [j] equal to [i] up to the symmetries of [c], that is reached
    from [i] by exchanges of two positions of one group, [c[[j]]] is [v]
    when the number of exchanges inside antisymmetric groups is even and
    [-v] when it is odd. The assignment stores one entry: the value [v],
    with the sign of the relative parity of [i] and [key], under a tuple
    [key] that is equal to [i] up to symmetry and in canonical order. *)
Theorem set_get_round_trip (c : Components R) (i j : list Z) (s : Z) (v : R) :
  well_formed c → v ≠ zero_element →
  length i = nid c → in_range c i → ¬ antisym_conflict c i →
  same_up_to_symmetry c i j s →
  ∃ c' key si,
    setitem c i (VRing v) = Ok c'
    ∧ getitem c' i = Ok v
    ∧ getitem c' j = Ok (signed s v)
    ∧ same_up_to_symmetry c i key si
    ∧ is_ordered c key = true
    ∧ _comp c' = <[key := signed si v]> (_comp c)
    ∧ ∀ t st, _ordered_indices c t = Ok (st, Some key) →
        same_up_to_symmetry c i t (si * st).
Proof.
  intros Hwf Hnz Hl Hr Hnc Hij. pose proof Hwf as (Hv & _).
  assert (Hc : _check_indices c i = Ok i) by (by apply _check_indices_intro).
  destruct (_ordered_indices_outcome c i Hv Hc) as [[Hcf _] | (_ & si & key & Ho & Hsi)];
    [done |].
  exists (set_comp c (upd (_comp c) key (signed si v))), key, si.
  assert (Hupd : upd (_comp c) key (signed si v) = <[key := signed si v]> (_comp c)).
  { unfold upd. rewrite is0_signed. unfold is0. by rewrite bool_decide_eq_false_2. }
  set (c' := set_comp c (upd (_comp c) key (signed si v))).
  assert (Hwf' : well_formed c') by (by apply well_formed_set_comp).
  assert (Hsh : same_shape c c') by apply same_shape_set_comp.
  assert (Hlk : _comp c' !! key = Some (signed si v)).
  { unfold c'. destruct c. simpl in *. rewrite Hupd. apply lookup_insert_eq. }
  assert (Hget : ∀ t st, same_up_to_symmetry c i t st →
            getitem c' t = Ok (signed st v)).
  { intros t st Ht.
    destruct (_ordered_indices_up_to_symmetry c i t st si (Some key) Hv Ht Hc Ho)
      as [_ Hot].
    rewrite <- (_ordered_indices_shape c c') in Hot by done.
    rewrite (getitem_key c' t (si * st) key Hwf' Hot), Hlk. simpl.
    f_equal. apply signed_mul; [done |]. by eapply same_up_to_symmetry_sign. }
  split; [by apply setitem_key |].
  split.
  { rewrite (Hget i 1); [| constructor]. unfold signed. by rewrite bool_decide_eq_true_2. }
  split; [by apply Hget |].
  split; [by apply _ordered_indices_reached |].
  split; [by apply (_ordered_indices_key c i si key) |].
  split; [unfold c'; destruct c; simpl in *; done |].
  intros t st Ht. by apply (same_canonical_form c i t key).
Qed.

End RoundTripTheorem.

Lemma set_get_round_trip_witness :
  (∃ c' key si,
     setitem sym_pair_1 [1; 0] (VRing 7) = Ok c'
     ∧ getitem c' [1; 0] = Ok 7
     ∧ getitem c' [0; 1] = Ok (signed 1 7)
     ∧ same_up_to_symmetry sym_pair_1 [1; 0] key si
     ∧ is_ordered sym_pair_1 key = true
     ∧ _comp c' = <[key := signed si 7]> (_comp sym_pair_1)
     ∧ ∀ t st, _ordered_indices sym_pair_1 t = Ok (st, Some key) →
         same_up_to_symmetry sym_pair_1 [1; 0] t (si * st))
  ∧ (∃ c' key si,
       setitem antisym_pair [1; 0] (VRing 3) = Ok c'
       ∧ getitem c' [1; 0] = Ok 3
       ∧ getitem c' [0; 1] = Ok (signed (-1) 3)
       ∧ same_up_to_symmetry antisym_pair [1; 0] key si
       ∧ is_ordered antisym_pair key = true
       ∧ _comp c' = <[key := signed si 3]> (_comp antisym_pair)
       ∧ ∀ t st, _ordered_indices antisym_pair t = Ok (st, Some key) →
           same_up_to_symmetry antisym_pair [1; 0] t (si * st)).
Proof.
  split.
  - refine (set_get_round_trip (R:=Z) sym_pair_1 [1; 0] [0; 1] 1 7 _ _ _ _ _ _).
    + repeat split; reflexivity.
    + discriminate.
    + reflexivity.
    + repeat (apply Forall_cons_2; [simpl; lia |]). apply Forall_nil_2.
    + intros (g & Hg & _). vm_compute in Hg. by apply elem_of_nil in Hg.
    + apply (same_sym sym_pair_1 [1; 0] [1; 0] 1 [0; 1]%nat 0 1).
      * constructor.
      * apply list_elem_of_In. left. reflexivity.
      * apply list_elem_of_In. left. reflexivity.
      * apply list_elem_of_In. right. left. reflexivity.
  - refine (set_get_round_trip (R:=Z) antisym_pair [1; 0] [0; 1] (-1) 3 _ _ _ _ _ _).
    + repeat split; reflexivity.
    + discriminate.
    + reflexivity.
    + repeat (apply Forall_cons_2; [simpl; lia |]). apply Forall_nil_2.
    + intros (g & Hg & Hn). apply Hn.
      apply list_elem_of_In in Hg. destruct Hg as [<- | []].
      apply NoDup_ListNoDup. repeat constructor; simpl; intuition discriminate.
    + apply (same_antisym antisym_pair [1; 0] [1; 0] 1 [0; 1]%nat 0 1).
      * constructor.
      * apply list_elem_of_In. left. reflexivity.
      * apply list_elem_of_In. left. reflexivity.
      * apply list_elem_of_In. right. left. reflexivity.
      * discriminate.
Defined.
